(** * CleanText: the Markdown-to-plain-text converter and its statistics

    A shallow embedding of [utils/regexConverter.ts]: the two exported
    functions [markdownToHuman] and [getStats].

    - A string is the sequence of its UTF-16 code units, as [length],
      [replace] and [trim] see it.
    - A regular expression literal is a term of [regex]; it is run by a
      backtracking matcher in continuation-passing style, the way the
      language definition describes pattern matching (match states,
      continuations, the repeat matcher with its empty-iteration check).
    - A Number is a binary64 value ([spec_float] with precision 53 and
      maximal exponent 1024).

    The definitions come first: strings, the matcher, the converter, the
    statistics, then the predicates the properties are stated with and
    the parts of the caller, [App], that use the two functions or are
    functions of its state (the statistics badge, the toasts, the view
    mode).  The proofs follow: the search always finishes, patterns that
    cannot match, the characters a replacement can write, inputs of
    white space, links against images, rounding; then what the output
    is made of, the sign of the reduction, the single constructs
    (headings, emphasis, links, quotes, list items, rules, code spans),
    the length of the output, and the caller. *)

From Stdlib Require Import List Bool Arith NArith ZArith QArith Qpower.
From Stdlib Require Import Lia Lqa Ascii String.
From Stdlib Require Import Floats.SpecFloat.
Import ListNotations.

Close Scope Q_scope.
Open Scope nat_scope.

Set Implicit Arguments.

(** ** Strings *)

Module JsString.

Definition char := N.
Definition jsstring := list char.

Definition chr (a : ascii) : char := N_of_ascii a.
Definition str (s : string) : jsstring := map chr (list_ascii_of_string s).

Definition TAB : char := 9%N.
Definition LF : char := 10%N.
Definition SP : char := 32%N.

Definition in_range (lo hi c : char) : bool := (lo <=? c)%N && (c <=? hi)%N.

(** Line terminators: LF, CR, LS, PS. *)
Definition LineTerminator (c : char) : bool :=
  (c =? 10)%N || (c =? 13)%N || (c =? 8232)%N || (c =? 8233)%N.

(** White space: TAB, VT, FF, ZWNBSP and the space separators. *)
Definition WhiteSpace (c : char) : bool :=
  (c =? 9)%N || (c =? 11)%N || (c =? 12)%N || (c =? 32)%N || (c =? 160)%N ||
  (c =? 5760)%N || in_range 8192%N 8202%N c || (c =? 8239)%N || (c =? 8287)%N ||
  (c =? 12288)%N || (c =? 65279)%N.

(** What [trim] strips and what the class escape [\s] matches. *)
Definition is_space (c : char) : bool := WhiteSpace c || LineTerminator c.

(** [s.substring(from, to)] for [from <= to]. *)
Definition substring (s : jsstring) (from to : nat) : jsstring :=
  firstn (to - from) (skipn from s).

Fixpoint trimStart (s : jsstring) : jsstring :=
  match s with
  | c :: s' => if is_space c then trimStart s' else s
  | [] => []
  end.

Definition trimEnd (s : jsstring) : jsstring := rev (trimStart (rev s)).

Definition trim (s : jsstring) : jsstring := trimEnd (trimStart s).

End JsString.

Import JsString.

(** ** Regular expressions *)

Module RegExp.

Inductive regex : Type :=
| Empty
| Char (c : char)                       (* a literal or escaped character *)
| CharSet (p : char -> bool)            (* a class, a class escape or [.] *)
| LineStart                             (* [^] under the [m] flag *)
| LineEnd                               (* [$] under the [m] flag *)
| Seq (r1 r2 : regex)
| Alt (r1 r2 : regex)
| Group (n : nat) (r : regex)           (* the n-th capturing group *)
| Backref (n : nat)
| Repeat (greedy : bool) (min : nat) (max : option nat) (r : regex).

(** Quantifiers. *)
Definition Star r := Repeat true 0 None r.
Definition Plus r := Repeat true 1 None r.
Definition Opt r := Repeat true 0 (Some 1) r.
Definition AtLeast n r := Repeat true n None r.
Definition LazyStar r := Repeat false 0 None r.

(** [.] without the [s] flag: anything but a line terminator. *)
Definition Dot : regex := CharSet (fun c => negb (LineTerminator c)).
(** [\s] and [\d]. *)
Definition Space : regex := CharSet is_space.
Definition Digit : regex := CharSet (in_range 48%N 57%N).
(** [[\s\S]]. *)
Definition AnyChar : regex := CharSet (fun c => is_space c || negb (is_space c)).
(** [[...]] and [[^...]] over listed characters. *)
Definition OneOf (l : list char) : regex := CharSet (fun c => existsb (N.eqb c) l).
Definition NoneOf (l : list char) : regex :=
  CharSet (fun c => negb (existsb (N.eqb c) l)).

(** A pattern read left to right. *)
Fixpoint cat (l : list regex) : regex :=
  match l with
  | [] => Empty
  | [r] => r
  | r :: l' => Seq r (cat l')
  end.

(** The capturing groups written inside a pattern. *)
Fixpoint groups (r : regex) : list nat :=
  match r with
  | Seq r1 r2 | Alt r1 r2 => groups r1 ++ groups r2
  | Group n r' => n :: groups r'
  | Repeat _ _ _ r' => groups r'
  | _ => []
  end.

(** *** Match states *)

Definition CaptureRange := (nat * nat)%type.

Record MatchState := mkState {
  endIndex : nat;
  captures : list (nat * option CaptureRange)
}.

Fixpoint capture (n : nat) (caps : list (nat * option CaptureRange))
  : option CaptureRange :=
  match caps with
  | [] => None
  | (k, v) :: caps' => if k =? n then v else capture n caps'
  end.

Definition set_capture (n : nat) (v : option CaptureRange)
  (caps : list (nat * option CaptureRange)) := (n, v) :: caps.

Definition clear_captures (ns : list nat)
  (caps : list (nat * option CaptureRange)) :=
  fold_right (fun n acc => set_capture n None acc) caps ns.

(** The outcome of a matcher.  [OutOfFuel] belongs to the embedding
    only: it says that the iteration bound of a repeat was hit.
    [Fuel.match_at_fuel] shows it is never the outcome of a search. *)
Inductive MatchResult :=
| Matched (y : MatchState)
| Failure
| OutOfFuel.

Definition Continuation := MatchState -> MatchResult.
Definition Matcher := MatchState -> Continuation -> MatchResult.

(** Backtracking: the second branch runs when the first fails. *)
Definition orElse (a : MatchResult) (b : unit -> MatchResult) : MatchResult :=
  match a with
  | Failure => b tt
  | _ => a
  end.

(** *** The repeat matcher

    One more iteration of [m] is tried with a continuation [d] that
    refuses an iteration which matched the empty string once [min] is
    exhausted; this is what makes the search finite.  [fuel] bounds the
    number of nested iterations. *)
Fixpoint RepeatMatcher (m : Matcher) (inner : list nat) (fuel : nat)
  (min : nat) (max : option nat) (greedy : bool)
  (x : MatchState) (c : Continuation) {struct fuel} : MatchResult :=
  match fuel with
  | O => OutOfFuel
  | S fuel' =>
    match max with
    | Some O => c x
    | _ =>
      let d : Continuation := fun y =>
        if (min =? 0) && (endIndex y =? endIndex x) then Failure
        else RepeatMatcher m inner fuel' (pred min) (option_map pred max)
                           greedy y c in
      let xr := mkState (endIndex x) (clear_captures inner (captures x)) in
      if negb (min =? 0) then m xr d
      else if greedy then orElse (m xr d) (fun _ => c x)
      else orElse (c x) (fun _ => m xr d)
    end
  end.

Section Matching.

Variable input : jsstring.

(** The comparison loop of a backreference. *)
Fixpoint same_range (from1 from2 len : nat) : bool :=
  match len with
  | O => true
  | S len' =>
    match nth_error input from1, nth_error input from2 with
    | Some a, Some b => (a =? b)%N && same_range (S from1) (S from2) len'
    | _, _ => false
    end
  end.

(** Every iteration past the first [min] consumes a character, so this
    many iterations cannot be exceeded. *)
Definition repeat_fuel (min : nat) (x : MatchState) : nat :=
  S (min + (List.length input - endIndex x)).

Fixpoint compile (r : regex) : Matcher :=
  fun x c =>
  match r with
  | Empty => c x
  | Char ch =>
    match nth_error input (endIndex x) with
    | Some ch' =>
      if (ch' =? ch)%N then c (mkState (S (endIndex x)) (captures x))
      else Failure
    | None => Failure
    end
  | CharSet p =>
    match nth_error input (endIndex x) with
    | Some ch' =>
      if p ch' then c (mkState (S (endIndex x)) (captures x)) else Failure
    | None => Failure
    end
  | LineStart =>
    match endIndex x with
    | O => c x
    | S e' =>
      match nth_error input e' with
      | Some ch' => if LineTerminator ch' then c x else Failure
      | None => Failure
      end
    end
  | LineEnd =>
    match nth_error input (endIndex x) with
    | None => c x
    | Some ch' => if LineTerminator ch' then c x else Failure
    end
  | Seq r1 r2 => compile r1 x (fun y => compile r2 y c)
  | Alt r1 r2 => orElse (compile r1 x c) (fun _ => compile r2 x c)
  | Group n r' =>
    compile r' x (fun y =>
      c (mkState (endIndex y)
           (set_capture n (Some (endIndex x, endIndex y)) (captures y))))
  | Backref n =>
    match capture n (captures x) with
    | None => c x
    | Some (from, to) =>
      let len := to - from in
      if (endIndex x + len <=? List.length input)
         && same_range from (endIndex x) len
      then c (mkState (endIndex x + len) (captures x))
      else Failure
    end
  | Repeat greedy min max r' =>
    RepeatMatcher (compile r') (groups r') (repeat_fuel min x)
                  min max greedy x c
  end.

(** One attempt at index [i], as the loop of [exec] makes it. *)
Definition match_at (r : regex) (i : nat) : MatchResult :=
  compile r (mkState i []) (fun y => Matched y).

(** The text of a capture; an unset capture reads as the empty string. *)
Definition captured (n : nat) (st : MatchState) : jsstring :=
  match capture n (captures st) with
  | Some (from, to) => substring input from to
  | None => []
  end.

End Matching.

(** *** Replacement *)

(** A replacement string, parsed: literal characters and [$n]. *)
Inductive titem := TChar (c : char) | TGroup (n : nat).
Definition template := list titem.

Definition expand_item (input : jsstring) (st : MatchState) (t : titem)
  : jsstring :=
  match t with
  | TChar c => [c]
  | TGroup n => captured input n st
  end.

(** A replacer maps the input, the index of the match and its final
    state to the replacement text ([None]: a nested search ran out of
    fuel). *)
Definition replacer := jsstring -> nat -> MatchState -> option jsstring.

Definition by_template (t : template) : replacer :=
  fun input _ st => Some (flat_map (expand_item input st) t).

(** A replacer function called with the matched text only. *)
Definition by_function (f : jsstring -> option jsstring) : replacer :=
  fun input i st => f (substring input i (endIndex st)).

Definition bind {A B} (a : option A) (f : A -> option B) : option B :=
  match a with
  | Some v => f v
  | None => None
  end.

Notation "x <- a ;; b" := (bind a (fun x => b))
  (at level 61, a at next level, right associativity).

Section Replace.

Variable r : regex.
Variable rep : replacer.
Variable input : jsstring.

(** [replace] with the [g] flag.  [i] is the index of the head of
    [rest]; [lastIndex] is where the next search starts: the indices
    below it lie inside the previous match and are skipped.  After an
    empty match the search resumes one character further. *)
Fixpoint replace_from (i : nat) (rest : jsstring) (lastIndex : nat)
  : option jsstring :=
  match rest with
  | [] =>
    if lastIndex <=? i then
      match match_at input r i with
      | Matched st => rep input i st
      | Failure => Some []
      | OutOfFuel => None
      end
    else Some []
  | ch :: rest' =>
    if i <? lastIndex then replace_from (S i) rest' lastIndex
    else
      match match_at input r i with
      | Matched st =>
        out <- rep input i st ;;
        tail <- (if endIndex st =? i
                 then option_map (cons ch) (replace_from (S i) rest' (S i))
                 else replace_from (S i) rest' (endIndex st)) ;;
        Some (out ++ tail)
      | Failure => option_map (cons ch) (replace_from (S i) rest' lastIndex)
      | OutOfFuel => None
      end
  end.

(** [replace] without the [g] flag: the first match only. *)
Fixpoint replace_first_from (i : nat) (rest : jsstring) : option jsstring :=
  match match_at input r i with
  | Matched st =>
    out <- rep input i st ;; Some (out ++ skipn (endIndex st) input)
  | Failure =>
    match rest with
    | [] => Some []
    | ch :: rest' => option_map (cons ch) (replace_first_from (S i) rest')
    end
  | OutOfFuel => None
  end.

End Replace.

Definition replaceAll (r : regex) (rep : replacer) (s : jsstring)
  : option jsstring :=
  replace_from r rep s 0 s 0.

Definition replaceFirst (r : regex) (rep : replacer) (s : jsstring)
  : option jsstring :=
  replace_first_from r rep s 0 s.

End RegExp.

Import RegExp.

(** ** The converter *)

Module Converter.

Local Open Scope char_scope.

Definition c (a : ascii) : regex := Char (chr a).
Definition backtick : regex := c "`".

(** [/^\s*#+\s*/gm] *)
Definition re_heading : regex :=
  cat [LineStart; Star Space; Plus (c "#"); Star Space].

(** [/(\*\*|__)(.*?)\1/g] *)
Definition re_strong : regex :=
  cat [Group 1 (Alt (Seq (c "*") (c "*")) (Seq (c "_") (c "_")));
       Group 2 (LazyStar Dot); Backref 1].

(** [/(\*|_)(.*?)\1/g] *)
Definition re_weak : regex :=
  cat [Group 1 (Alt (c "*") (c "_")); Group 2 (LazyStar Dot); Backref 1].

(** [/\[(.*?)\]\((.*?)\)/g] *)
Definition re_link : regex :=
  cat [c "["; Group 1 (LazyStar Dot); c "]"; c "(";
       Group 2 (LazyStar Dot); c ")"].

(** [/!\[(.*?)\]\(.*?\)/g] *)
Definition re_image : regex :=
  cat [c "!"; c "["; Group 1 (LazyStar Dot); c "]"; c "(";
       LazyStar Dot; c ")"].

(** The inline-code pattern, flag [g]: a backtick, group 1 holding
    [[^`]] zero or more times, a backtick. *)
Definition re_code : regex :=
  cat [backtick; Group 1 (Star (NoneOf [chr "`"])); backtick].

(** [/```[\s\S]*?```/g] *)
Definition re_fence : regex :=
  cat [backtick; backtick; backtick; LazyStar AnyChar;
       backtick; backtick; backtick].

(** [/```.*\n?/] *)
Definition re_fence_open : regex :=
  cat [backtick; backtick; backtick; Star Dot; Opt (Char LF)].

(** [/```/] *)
Definition re_fence_close : regex := cat [backtick; backtick; backtick].

(** [/^\s*>\s?/gm] *)
Definition re_quote : regex :=
  cat [LineStart; Star Space; c ">"; Opt Space].

(** [/\|\s*/g] *)
Definition re_pipe : regex := cat [c "|"; Star Space].

(** [/ {2,}/g] *)
Definition re_spaces : regex := AtLeast 2 (c " ").

(** [/^\s*(-{3,}|\*{3,}|_{3,})\s*$/gm] *)
Definition re_rule : regex :=
  cat [LineStart; Star Space;
       Group 1 (Alt (AtLeast 3 (c "-"))
                    (Alt (AtLeast 3 (c "*")) (AtLeast 3 (c "_"))));
       Star Space; LineEnd].

(** [/\\(.)/g] *)
Definition re_escape : regex := cat [c "\"; Group 1 Dot].

(** [/^\s*[-*+]\s+/gm] *)
Definition re_unordered : regex :=
  cat [LineStart; Star Space; OneOf [chr "-"; chr "*"; chr "+"]; Plus Space].

(** [/^\s*\d+\.\s+/gm] *)
Definition re_ordered : regex :=
  cat [LineStart; Star Space; Plus Digit; c "."; Plus Space].

(** [/\n{3,}/g] *)
Definition re_newlines : regex := AtLeast 3 (Char LF).

(** The replacement strings: [''], ['$1'], ['$2'], ['$1 ($2)'], [' ']
    and two newlines. *)
Definition t_empty : template := [].
Definition t_1 : template := [TGroup 1].
Definition t_2 : template := [TGroup 2].
Definition t_link : template :=
  [TGroup 1; TChar SP; TChar (chr "("); TGroup 2; TChar (chr ")")].
Definition t_space : template := [TChar SP].
Definition t_paragraph : template := [TChar LF; TChar LF].

(** The replacer function of the fenced-code pass. *)
Definition strip_fence (matched : jsstring) : option jsstring :=
  bind (replaceFirst re_fence_open (by_template t_empty) matched)
       (replaceFirst re_fence_close (by_template t_empty)).

(** The local variables of [markdownToHuman]: the parameter and the
    working copy that every statement reassigns. *)
Record locals := mkLocals { text : jsstring; cleaned : jsstring }.

Definition stmt := locals -> option locals.

(** [cleaned = cleaned.replace(...)] *)
Definition assign_cleaned (f : jsstring -> option jsstring) : stmt :=
  fun l => bind (f (cleaned l)) (fun v => Some (mkLocals (text l) v)).

Definition pass (r : regex) (t : template) : stmt :=
  assign_cleaned (replaceAll r (by_template t)).

(** The link pass and the image pass, on strings. *)
Definition rewrite_links (s : jsstring) : option jsstring :=
  replaceAll re_link (by_template t_link) s.
Definition rewrite_images (s : jsstring) : option jsstring :=
  replaceAll re_image (by_template t_1) s.

(** The inline-code pass and the fenced-code pass, on strings. *)
Definition rewrite_code (s : jsstring) : option jsstring :=
  replaceAll re_code (by_template t_1) s.
Definition rewrite_fences (s : jsstring) : option jsstring :=
  replaceAll re_fence (by_function strip_fence) s.

Definition pass_link : stmt := assign_cleaned rewrite_links.
Definition pass_image : stmt := assign_cleaned rewrite_images.
Definition pass_code : stmt := assign_cleaned rewrite_code.
Definition pass_fence : stmt := assign_cleaned rewrite_fences.

(** The statements after [let cleaned = text], in source order. *)
Definition body : list stmt :=
  [ pass re_heading t_empty;
    pass re_strong t_2;
    pass re_weak t_2;
    pass_link;
    pass_image;
    pass_code;
    pass_fence;
    pass re_quote t_empty;
    pass re_pipe t_space;
    pass re_spaces t_space;
    pass re_rule t_empty;
    pass re_escape t_1;
    pass re_unordered t_empty;
    pass re_ordered t_empty;
    pass re_newlines t_paragraph ].

Fixpoint run (ss : list stmt) (l : locals) : option locals :=
  match ss with
  | [] => Some l
  | s :: ss' => bind (s l) (run ss')
  end.

(** The locals when control reaches the final [return]. *)
Definition markdownToHuman_locals (t : jsstring) : option locals :=
  run body (mkLocals t t).

Definition markdownToHuman (t : jsstring) : option jsstring :=
  match t with
  | [] => Some []                             (* [if (!text) return ''] *)
  | _ => bind (markdownToHuman_locals t) (fun l => Some (trim (cleaned l)))
  end.

End Converter.

Import Converter.

(** ** The statistics *)

Module Stats.

(** Numbers are binary64 values. *)
Definition prec : Z := 53.
Definition emax : Z := 1024.
Definition Number := spec_float.

Definition sub : Number -> Number -> Number := SFsub prec emax.
Definition mul : Number -> Number -> Number := SFmul prec emax.
Definition div : Number -> Number -> Number := SFdiv prec emax.
(** [x > y] *)
Definition gt (x y : Number) : bool := SFltb y x.
(** [x === y] on numbers: the two zeros are equal. *)
Definition eqb (x y : Number) : bool := SFeqb x y.

(** The Number of an integer literal, rounded to nearest even. *)
Definition of_Z (z : Z) : Number := binary_normalize prec emax z 0 false.

Definition Zero : Number := S754_zero false.

(** The Number of a string length.  A length is an integer below 2^53,
    so no rounding takes place: the mantissa is only aligned to 53 bits
    ([LengthFacts.of_length_exact] compares it with [of_Z]). *)
Definition of_length (n : nat) : Number :=
  match Z.of_nat n with
  | Zpos p =>
    let '(m, e) :=
      shl_align p 0 (fexp prec emax (Zpos (digits2_pos p))) in
    S754_finite false m e
  | _ => Zero
  end.

(** The result of [Math.round] when the integer picked is [k] and the
    argument had sign [s]: an argument in [-0.5, -0] gives [-0]. *)
Definition integral (s : bool) (k : Z) : Number :=
  match k with
  | Z0 => S754_zero s
  | _ => of_Z k
  end.

(** [Math.round]: the integer closest to [x], the larger one in case of
    a tie, that is the floor of [x + 1/2].  A value whose exponent is
    not negative is an integer already. *)
Definition Math_round (x : Number) : Number :=
  match x with
  | S754_finite s m (Zneg p) =>
    let d := Z.pow_pos 2 p in
    integral s ((2 * cond_Zopp s (Zpos m) + d) / (2 * d))
  | _ => x
  end.

Record ConversionStats := mkStats {
  originalChars : Number;
  cleanedChars : Number;
  reductionPercent : Number
}.

(** The local [reduction] of [getStats]. *)
Definition reduction (originalChars cleanedChars : Number) : Number :=
  if gt originalChars Zero
  then mul (div (sub originalChars cleanedChars) originalChars) (of_Z 100)
  else Zero.

Definition getStats (original cleaned : jsstring) : ConversionStats :=
  let originalChars := of_length (List.length original) in
  let cleanedChars := of_length (List.length cleaned) in
  let reduction := reduction originalChars cleanedChars in
  mkStats originalChars cleanedChars
          (div (Math_round (mul reduction (of_Z 10))) (of_Z 10)).

End Stats.

Import Stats.

(** ** Definitions used to state the properties *)

(** Every match of [r] consumes a character on which [q] holds. *)
Fixpoint requires (q : char -> bool) (r : regex) : Prop :=
  match r with
  | Char ch => q ch = true
  | CharSet p => forall ch, p ch = true -> q ch = true
  | Seq r1 r2 => requires q r1 \/ requires q r2
  | Alt r1 r2 => requires q r1 /\ requires q r2
  | Group _ r' => requires q r'
  | Repeat _ min max r' => 0 < min /\ max <> Some 0 /\ requires q r'
  | _ => False
  end.

(** No outcome but a failed match or an exhausted bound. *)
Definition unmatched (res : MatchResult) : Prop :=
  forall y, res <> Matched y.

(** An image marker: [!] immediately followed by [[]. *)
Fixpoint has_image_marker (s : jsstring) : bool :=
  match s with
  | a :: s' =>
    match s' with
    | b :: _ => ((a =? chr "!") && (b =? chr "["))%N || has_image_marker s'
    | [] => false
    end
  | [] => false
  end.

(** [c] never runs out of fuel on the states a matcher started at [x]
    can hand to it. *)
Definition safe_from (input : jsstring) (x : MatchState) (c : Continuation)
  : Prop :=
  forall y, endIndex x <= endIndex y <= List.length input -> c y <> OutOfFuel.

Definition safe_matcher (input : jsstring) (m : Matcher) : Prop :=
  forall x c, endIndex x <= List.length input -> safe_from input x c ->
              m x c <> OutOfFuel.

(** A matcher succeeds only through its continuation. *)
Definition through (m : Matcher) : Prop :=
  forall x c, (forall y, unmatched (c y)) -> unmatched (m x c).

Definition total_replacer (rep : replacer) : Prop :=
  forall input i st, exists out, rep input i st = Some out.

(** A statement that returns and leaves the parameter alone. *)
Definition total_stmt (s : stmt) : Prop :=
  forall l, exists l', s l = Some l' /\ text l' = text l.

(** A replacer whose text is made of characters satisfying [P] when the
    input is. *)
Definition keeps (P : char -> Prop) (rep : replacer) : Prop :=
  forall input i st out,
    Forall P input -> rep input i st = Some out -> Forall P out.

Definition spaces (s : jsstring) : Prop :=
  Forall (fun ch => is_space ch = true) s.

Definition not_space (ch : char) : bool := negb (is_space ch).

(** A statement that maps white space to white space. *)
Definition keeps_spaces (s : stmt) : Prop :=
  forall l, spaces (cleaned l) ->
            exists l', s l = Some l' /\ spaces (cleaned l').

Definition BT : char := chr "`".
Definition backticks (s : jsstring) : nat := count_occ N.eq_dec s BT.
Definition not_backtick (ch : char) : bool :=
  negb (existsb (N.eqb ch) [BT]).

(** The characters of [input] from [e] on, [n] of them, are in the
    class [p]. *)
Definition run_of (input : jsstring) (p : char -> bool) (e n : nat) : Prop :=
  forall k, k < n ->
            exists ch, nth_error input (e + k) = Some ch /\ p ch = true.

Definition BANG : char := chr "!".
Definition LBRACK : char := chr "[".
Definition LPAREN : char := chr "(".
Definition RPAREN : char := chr ")".

(** [prev] is the character written last by a replacement that has
    reached index [i].  When it is a [!], it is the input character just
    before [i] and the search is not skipping. *)
Definition after (input : jsstring) (prev : char) (i lastIndex : nat) : Prop :=
  prev = BANG ->
  lastIndex <= i /\ exists j, i = S j /\ nth_error input j = Some BANG.

(** The literal characters of a replacement string. *)
Fixpoint template_chars (t : template) : jsstring :=
  match t with
  | [] => []
  | TChar ch :: t' => ch :: template_chars t'
  | TGroup _ :: t' => template_chars t'
  end.

Module Rounding.

Local Open Scope Z_scope.

(** The exact value of a finite Number, as a fraction. *)
Definition exact (x : Number) : Q :=
  match x with
  | S754_finite s m (Zneg p) => Qmake (cond_Zopp s (Zpos m)) (2 ^ p)
  | S754_finite s m e => inject_Z (cond_Zopp s (Zpos m) * 2 ^ e)
  | _ => 0%Q
  end.

(** [x] is the Number of the count [n]: [+0] for no character, and
    otherwise a positive finite Number whose exact value is [n]. *)
Definition is_count (x : Number) (n : nat) : Prop :=
  match x with
  | S754_zero s => s = false /\ n = 0%nat
  | S754_finite s _ _ => s = false /\ (exact x == inject_Z (Z.of_nat n))%Q
  | _ => False
  end.

(** [y] is [x] rounded to the nearest integer, a tie going to the larger
    one.  A Number without fraction bits, an infinity and NaN are left
    as they are. *)
Definition rounds_half_up (x y : Number) : Prop :=
  match x with
  | S754_finite s m (Zneg p) =>
    exists k : Z,
      y = integral s k /\
      (inject_Z k - (1 # 2) <= exact x)%Q /\ (exact x < inject_Z k + (1 # 2))%Q
  | _ => y = x
  end.

(** The two modes the specification names, on the exact fraction
    [num / den] with [0 < den]; they follow the specification's words,
    not the code. *)
Definition spec_round_half_away_from_zero (num den : Z) : Z :=
  Z.sgn num * ((2 * Z.abs num + den) / (2 * den)).

Definition spec_round_half_to_even (num den : Z) : Z :=
  let q := num / den in
  match 2 * (num mod den) ?= den with
  | Lt => q
  | Gt => q + 1
  | Eq => if Z.even q then q else q + 1
  end.

(** [k] tenths as a Number: the binary64 value nearest to [k / 10]. *)
Definition tenths (k : Z) : Number := div (of_Z k) (of_Z 10).

(** The specification's reading of [reductionPercent] for lengths [o]
    and [c]: the exact percentage [(o - c) / o * 100] rounded to one
    decimal place in the given mode. *)
Definition spec_reductionPercent (mode : Z -> Z -> Z) (o c : nat) : Number :=
  tenths (mode (1000 * (Z.of_nat o - Z.of_nat c)) (Z.of_nat o)).

Definition agrees_with_a_spec_mode (original cleaned : jsstring) : Prop :=
  let o := List.length original in
  let c := List.length cleaned in
  let p := reductionPercent (getStats original cleaned) in
  eqb p (spec_reductionPercent spec_round_half_away_from_zero o c) = true \/
  eqb p (spec_reductionPercent spec_round_half_to_even o c) = true.

(** Both modes give the code's result. *)
Definition agrees_with_both_spec_modes (original cleaned : jsstring) : Prop :=
  let o := List.length original in
  let c := List.length cleaned in
  let p := reductionPercent (getStats original cleaned) in
  eqb p (spec_reductionPercent spec_round_half_away_from_zero o c) = true /\
  eqb p (spec_reductionPercent spec_round_half_to_even o c) = true.

(** [k / 10] is a one-decimal value nearest to the exact percentage
    [(o - c) / o * 100]: the two are at most [0.05] apart, that is,
    [|k * o - 1000 * (o - c)| <= o / 2]. *)
Definition nearest_tenth (o c : nat) (k : Z) : Prop :=
  2 * Z.abs (k * Z.of_nat o - 1000 * (Z.of_nat o - Z.of_nat c)) <= Z.of_nat o.

(** The exact percentage falls on a half at the first decimal: ten times
    the percentage is an integer and a half. *)
Definition on_a_half (o c : nat) : Prop :=
  2 * ((1000 * (Z.of_nat o - Z.of_nat c)) mod Z.of_nat o) = Z.of_nat o.

(** The magnitude of a finite Number of mantissa [m] and exponent [e]. *)
Definition mag (m : positive) (e : Z) : Q := (inject_Z (Zpos m) * 2 ^ e)%Q.

(** [2 ^ -52], the distance from 1 to the next Number. *)
Definition ulp : Q := (1 # 4503599627370496)%Q.

(** [r] is [v] up to a relative error of [ulp]. *)
Definition near (v r : Q) : Prop :=
  (r * (1 - ulp) <= v)%Q /\ (v <= r * (1 + ulp))%Q.

(** A string of [n] spaces. *)
Definition blank (n : nat) : jsstring := repeat SP n.

End Rounding.

Import Rounding.

(** ** The worked examples of the specification *)

Module Examples.

(** An opening fence with the tag [bash], one line of code, a closing
    fence. *)
Definition fenced_example : jsstring :=
  str "```bash" ++ [LF] ++ str "npm start" ++ [LF] ++ str "```".

Definition image_example : jsstring := str "![alt](img.png)".

(** Backslash, star, [not italic], backslash, star. *)
Definition escape_example : jsstring := str "\*not italic\*".

Definition link_example : jsstring := str "[Docs](https://example.com)".

(** A space, a tab, a newline, two spaces. *)
Definition blank_example : jsstring := [SP; TAB; LF; SP; SP].

End Examples.

Import Examples.

(** ** The callers and further predicates *)

(** A statement under which [cleaned] keeps the property [I]. *)
Definition stmt_keeps (I : jsstring -> Prop) (s : stmt) : Prop :=
  forall l l', I (cleaned l) -> s l = Some l' -> I (cleaned l').

(** The characters a replacement string of the converter can write:
    the space, the two parentheses and the newline. *)
Definition written (ch : char) : Prop :=
  ch = SP \/ ch = LPAREN \/ ch = RPAREN \/ ch = LF.

Definition PIPE : char := chr "|".

(** The statements before the pipe pass and after it. *)
Definition before_pipe : list stmt := firstn 8 body.
Definition after_pipe : list stmt := skipn 9 body.

(** A matcher hands to its continuation a state that is not before the
    one it started from. *)
Definition forward (input : jsstring) (m : Matcher) : Prop :=
  forall x c z, m x c = Matched z ->
                exists y, c y = Matched z /\ endIndex x <= endIndex y.

(** [m] matches one character of the class [p]. *)
Definition single (input : jsstring) (p : char -> bool) (m : Matcher) : Prop :=
  forall x c,
    m x c = match nth_error input (endIndex x) with
            | Some ch =>
              if p ch then c (mkState (S (endIndex x)) (captures x))
              else Failure
            | None => Failure
            end.

(** No character of the class [p] at index [e]. *)
Definition stops (input : jsstring) (p : char -> bool) (e : nat) : Prop :=
  match nth_error input e with
  | Some ch => p ch = false
  | None => True
  end.

(** The number of characters [c] a string starts with. *)
Fixpoint lead (c : char) (s : jsstring) : nat :=
  match s with
  | ch :: s' => if (ch =? c)%N then S (lead c s') else 0
  | [] => 0
  end.

(** [s] contains [n] characters [c] in a row. *)
Fixpoint has_run (c : char) (n : nat) (s : jsstring) : bool :=
  (n <=? lead c s) ||
  match s with
  | _ :: s' => has_run c n s'
  | [] => false
  end.

(** The characters on which a pattern of the converter depends, the
    space and the newline apart. *)
Definition markup (ch : char) : bool :=
  existsb (N.eqb ch)
    [chr "#"; chr "*"; chr "_"; chr "["; chr "`"; chr ">"; chr "|";
     chr "\"; chr "-"; chr "+"]
  || in_range 48%N 57%N ch.

(** The statements before the last one, which collapses newlines. *)
Definition before_newlines : list stmt := firstn 14 body.

(** A statement that changes nothing when [cleaned] is [s]. *)
Definition stmt_id_on (s : jsstring) (st : stmt) : Prop :=
  forall l, cleaned l = s -> st l = Some l.

(** [x] is a zero, or a finite or infinite Number of sign [s]; it is not
    NaN. *)
Definition has_sign (s : bool) (x : Number) : Prop :=
  match x with
  | S754_zero _ => True
  | S754_infinity s' | S754_finite s' _ _ => s' = s
  | S754_nan => False
  end.

(** The caller's test [stats.reductionPercent > 0], under which the
    reduction badge is rendered. *)
Definition show_badge (stats : ConversionStats) : bool :=
  gt (reductionPercent stats) Zero.

(** The statistics the caller derives once the conversion effect has
    run: [getStats(inputMarkdown, markdownToHuman(inputMarkdown))]. *)
Definition converted_stats (inputMarkdown : jsstring)
  : option ConversionStats :=
  option_map (getStats inputMarkdown) (markdownToHuman inputMarkdown).

(** No character on which [q] holds from index [e] on. *)
Definition absent_from (input : jsstring) (q : char -> bool) (e : nat)
  : Prop :=
  forall j ch, e <= j -> nth_error input j = Some ch -> q ch = false.

(** The number of characters of the class [p] a string starts with. *)
Fixpoint lead_by (p : char -> bool) (s : jsstring) : nat :=
  match s with
  | ch :: s' => if p ch then S (lead_by p s') else 0
  | [] => 0
  end.

Definition HASH : char := chr "#".

(** A heading line: [k] hash signs, a space, the title. *)
Definition heading (k : nat) (title : jsstring) : jsstring :=
  repeat HASH k ++ SP :: title.

(** The statements up to the inline-code pass and after it. *)
Definition before_code : list stmt := firstn 5 body.
Definition after_code : list stmt := skipn 6 body.

(** A replacer that writes no more backticks than the text it replaces
    holds, at the matches of [r] in [input]. *)
Definition no_more_backticks (r : regex) (rep : replacer) (input : jsstring)
  : Prop :=
  forall i st o,
    match_at input r i = Matched st -> rep input i st = Some o ->
    backticks o <= backticks (substring input i (endIndex st)).

Definition at_most_one (s : jsstring) : Prop := backticks s <= 1.

(** ** Emphasis and links *)

Definition STAR : char := chr "*".
Definition UNDERSCORE : char := chr "_".
Definition RBRACK : char := chr "]".

(** A character of running text inside a line: neither a markup
    character nor a line terminator. *)
Definition inline (ch : char) : bool :=
  negb (markup ch) && negb (LineTerminator ch).

(** The characters the heading pass and the two emphasis passes need. *)
Definition emphatic (ch : char) : bool :=
  existsb (N.eqb ch) [HASH; STAR; UNDERSCORE].

(** [w] between two markers made of [k] characters [mk]. *)
Definition emphasis (mk : char) (k : nat) (w : jsstring) : jsstring :=
  repeat mk k ++ w ++ repeat mk k.

(** A link, label in brackets and address in parentheses, and what the
    replacement string of the link pass makes of it. *)
Definition link (label url : jsstring) : jsstring :=
  LBRACK :: label ++ RBRACK :: LPAREN :: url ++ [RPAREN].
Definition link_text (label url : jsstring) : jsstring :=
  label ++ SP :: LPAREN :: url ++ [RPAREN].

(** The range [from .. from + len) of [input] reads the same as the
    range that starts at [e]. *)
Definition same_text (input : jsstring) (from e len : nat) : Prop :=
  forall k, k < len ->
    exists ch, nth_error input (from + k) = Some ch /\
               nth_error input (e + k) = Some ch.

(** ** Constructs at the start of a line *)

Definition GT : char := chr ">".
Definition DASH : char := chr "-".
Definition PLUS : char := chr "+".
Definition DOT : char := chr ".".

(** The markup characters outside the class [x]. *)
Definition except (x : char -> bool) (ch : char) : bool :=
  markup ch && negb (x ch).

(** A text no pattern of the converter depends on: no markup
    character, no two spaces in a row, no three newlines in a row. *)
Definition plain (s : jsstring) : Prop :=
  Forall (fun ch => markup ch = false) s /\
  has_run SP 2 s = false /\ has_run LF 3 s = false.

Definition digit (ch : char) : bool := in_range 48%N 57%N ch.

(** A quoted line, a numbered item, a bulleted item, a horizontal rule
    of dashes and a code span. *)
Definition blockquote (t : jsstring) : jsstring := GT :: t.
(** What [[\s?]] leaves of the text after the marker of a quote. *)
Definition quoted (t : jsstring) : jsstring :=
  match t with
  | a :: t' => if is_space a then t' else t
  | [] => t
  end.
Definition ordered_item (number item : jsstring) : jsstring :=
  number ++ DOT :: SP :: item.
Definition unordered_item (mk : char) (item : jsstring) : jsstring :=
  mk :: SP :: item.
Definition rule (k : nat) : jsstring := repeat DASH k.
Definition code_span (w : jsstring) : jsstring := BT :: w ++ [BT].

(** ** Lengths *)

(** A replacer that writes no more characters than the text it
    replaces holds, at the matches of [r] in [input]. *)
Definition no_longer (r : regex) (rep : replacer) (input : jsstring)
  : Prop :=
  forall i st o,
    match_at input r i = Matched st -> rep input i st = Some o ->
    List.length o <= List.length (substring input i (endIndex st)).

Definition at_most (n : nat) (s : jsstring) : Prop := List.length s <= n.

(** The captures of [y] are those of [x], or ranges between the two
    states. *)
Definition captures_between (x y : MatchState) : Prop :=
  forall n from to,
    capture n (captures y) = Some (from, to) ->
    capture n (captures x) = Some (from, to) \/
    (endIndex x <= from /\ from <= to /\ to <= endIndex y).

(** A matcher that moves forward and captures what it went over. *)
Definition bounded (m : Matcher) : Prop :=
  forall x c z, m x c = Matched z ->
    exists y, c y = Matched z /\ endIndex x <= endIndex y /\
              captures_between x y.

(** ** The toasts of the caller *)

Module App.

Inductive ToastType := success | error | info.

Record ToastMessage := mkToast {
  id : jsstring;
  text : jsstring;
  type : ToastType
}.

(** [t.id !== id] *)
Definition other_id (i : jsstring) (t : ToastMessage) : bool :=
  if list_eq_dec N.eq_dec (id t) i then false else true.

(** The two state updates of [addToast]: the one made at once,
    [prev => [...prev, { id, text, type }]], and the one made by the
    timer, [prev => prev.filter(t => t.id !== id)]. *)
Definition show (i tx : jsstring) (ty : ToastType) (prev : list ToastMessage)
  : list ToastMessage :=
  prev ++ [mkToast i tx ty].

Definition expire (i : jsstring) (prev : list ToastMessage)
  : list ToastMessage :=
  filter (other_id i) prev.

(** The view modes, and [viewMode === other]. *)
Inductive ViewMode := Split | Edit | PreviewText | PreviewHtml.

Definition same_mode (a b : ViewMode) : bool :=
  match a, b with
  | Split, Split | Edit, Edit | PreviewText, PreviewText
  | PreviewHtml, PreviewHtml => true
  | _, _ => false
  end.

(** [handleResize]: the view mode after the handler has run, from the
    width of the window and the view mode before. *)
Definition handleResize (innerWidth : Z) (viewMode : ViewMode) : ViewMode :=
  if (innerWidth <? 1024)%Z then
    if same_mode viewMode Split then Edit else viewMode
  else Split.

(** The tests that select the class [flex] over [hidden] for the three
    boxes: the input, the text output and the preview. *)
Definition input_flex (viewMode : ViewMode) : bool :=
  same_mode viewMode Edit || same_mode viewMode Split.
Definition output_flex (viewMode : ViewMode) : bool :=
  same_mode viewMode PreviewText || same_mode viewMode Split.
Definition preview_flex (viewMode : ViewMode) : bool :=
  same_mode viewMode PreviewHtml || same_mode viewMode Split.

Definition boxes_flex (viewMode : ViewMode) : nat :=
  List.length (filter (fun b : bool => b)
                 [input_flex viewMode; output_flex viewMode;
                  preview_flex viewMode]).

End App.

(** * Proofs *)

Unset Implicit Arguments.

(** ** The search never runs out of fuel *)

Module Fuel.

Section Input.

Variable input : jsstring.

Local Abbreviation safe_from := (safe_from input).
Local Abbreviation safe_matcher := (safe_matcher input).

Lemma safe_from_later (x y : MatchState) (c : Continuation) :
  endIndex x <= endIndex y -> safe_from x c -> safe_from y c.
Proof. intros L H z Hz. apply H. lia. Qed.

Lemma orElse_safe (a : MatchResult) (b : unit -> MatchResult) :
  a <> OutOfFuel -> b tt <> OutOfFuel -> orElse a b <> OutOfFuel.
Proof. destruct a; simpl; auto. Qed.

Lemma RepeatMatcher_fuel (m : Matcher) (inner : list nat) :
  safe_matcher m ->
  forall fuel min max greedy x c,
    S (min + (List.length input - endIndex x)) <= fuel ->
    endIndex x <= List.length input ->
    safe_from x c ->
    RepeatMatcher m inner fuel min max greedy x c <> OutOfFuel.
Proof.
  intros Hm. induction fuel as [|fuel IH]; intros min max greedy x c Hf Hx Hc.
  - lia.
  - cbn [RepeatMatcher].
    assert (Hcx : c x <> OutOfFuel) by (apply Hc; lia).
    set (d := fun y : MatchState => _).
    assert (Hd : safe_from (mkState (endIndex x)
                              (clear_captures inner (captures x))) d).
    { intros y Hy. cbn [endIndex] in Hy. unfold d.
      destruct (min =? 0) eqn:Emin; cbn [andb].
      - destruct (endIndex y =? endIndex x) eqn:Ey; [discriminate|].
        apply Nat.eqb_eq in Emin. apply Nat.eqb_neq in Ey.
        apply IH; [subst min; cbn [pred]; lia | lia |].
        apply safe_from_later with x; [lia | exact Hc].
      - apply Nat.eqb_neq in Emin.
        apply IH; [lia | lia |].
        apply safe_from_later with x; [lia | exact Hc]. }
    assert (Hmd : m (mkState (endIndex x)
                       (clear_captures inner (captures x))) d <> OutOfFuel)
      by (apply Hm; [exact Hx | exact Hd]).
    destruct max as [[|max]|]; [exact Hcx| |];
      (destruct (min =? 0); cbn [negb];
       [destruct greedy; apply orElse_safe; assumption | exact Hmd]).
Qed.

Lemma nth_error_lt (i : nat) (ch : char) :
  nth_error input i = Some ch -> i < List.length input.
Proof. intros H. apply nth_error_Some. congruence. Qed.

Lemma compile_fuel (r : regex) : safe_matcher (compile input r).
Proof.
  induction r as [ |ch|p| | |r1 IH1 r2 IH2|r1 IH1 r2 IH2|n r IH|n
                  |greedy min max r IH];
    intros x c Hx Hc; cbn [compile].
  - apply Hc. lia.
  - destruct (nth_error input (endIndex x)) as [ch'|] eqn:E; [|discriminate].
    apply nth_error_lt in E.
    destruct (ch' =? ch)%N; [|discriminate]. apply Hc. cbn. lia.
  - destruct (nth_error input (endIndex x)) as [ch'|] eqn:E; [|discriminate].
    apply nth_error_lt in E.
    destruct (p ch'); [|discriminate]. apply Hc. cbn. lia.
  - assert (c x <> OutOfFuel) by (apply Hc; lia).
    destruct (endIndex x); [assumption|].
    destruct (nth_error input n) as [ch'|]; [|discriminate].
    destruct (LineTerminator ch'); [assumption | discriminate].
  - assert (c x <> OutOfFuel) by (apply Hc; lia).
    destruct (nth_error input (endIndex x)) as [ch'|]; [|assumption].
    destruct (LineTerminator ch'); [assumption | discriminate].
  - apply IH1; [exact Hx|]. intros y Hy.
    apply IH2; [lia|]. apply safe_from_later with x; [lia | exact Hc].
  - apply orElse_safe; [apply IH1 | apply IH2]; assumption.
  - apply IH; [exact Hx|]. intros y Hy. apply Hc. cbn. lia.
  - assert (c x <> OutOfFuel) by (apply Hc; lia).
    destruct (capture n (captures x)) as [[from to]|]; [|assumption].
    destruct (endIndex x + (to - from) <=? List.length input) eqn:L;
      cbn [andb]; [|discriminate].
    destruct (same_range input from (endIndex x) (to - from)); [|discriminate].
    apply Nat.leb_le in L. apply Hc. cbn. lia.
  - apply RepeatMatcher_fuel; [exact IH | unfold repeat_fuel; lia | exact Hx
                              | exact Hc].
Qed.

Lemma match_at_fuel (r : regex) (i : nat) :
  i <= List.length input -> match_at input r i <> OutOfFuel.
Proof.
  intros Hi. unfold match_at. apply compile_fuel; [exact Hi|].
  intros y _. discriminate.
Qed.

End Input.

End Fuel.

(** ** Replacement always produces a string *)

Module Total.

Lemma by_template_total (t : template) : total_replacer (by_template t).
Proof. intros input i st. eexists. reflexivity. Qed.

Section Replace.

Variable r : regex.
Variable rep : replacer.
Hypothesis rep_total : total_replacer rep.
Variable input : jsstring.

Lemma replace_from_total (rest : jsstring) :
  forall i lastIndex,
    i + List.length rest = List.length input ->
    exists out, replace_from r rep input i rest lastIndex = Some out.
Proof.
  induction rest as [|ch rest IH]; intros i lastIndex Hi; cbn [replace_from].
  - destruct (lastIndex <=? i); [|eauto].
    pose proof (Fuel.match_at_fuel input r i ltac:(lia)) as F.
    destruct (match_at input r i) as [st| |]; [apply rep_total | eauto | congruence].
  - cbn [List.length] in Hi.
    destruct (i <? lastIndex); [apply IH; lia|].
    pose proof (Fuel.match_at_fuel input r i ltac:(lia)) as F.
    destruct (match_at input r i) as [st| |]; [| |congruence].
    + destruct (rep_total input i st) as [out ->]. cbn [bind].
      destruct (endIndex st =? i).
      * destruct (IH (S i) (S i) ltac:(lia)) as [tl ->]. cbn. eauto.
      * destruct (IH (S i) (endIndex st) ltac:(lia)) as [tl ->]. cbn. eauto.
    + destruct (IH (S i) lastIndex ltac:(lia)) as [tl ->]. cbn. eauto.
Qed.

Lemma replace_first_from_total (rest : jsstring) :
  forall i,
    i + List.length rest = List.length input ->
    exists out, replace_first_from r rep input i rest = Some out.
Proof.
  induction rest as [|ch rest IH]; intros i Hi; cbn [replace_first_from];
    pose proof (Fuel.match_at_fuel input r i ltac:(lia)) as F;
    (destruct (match_at input r i) as [st| |]; [| |congruence]).
  - destruct (rep_total input i st) as [out ->]. cbn. eauto.
  - eauto.
  - destruct (rep_total input i st) as [out ->]. cbn. eauto.
  - cbn [List.length] in Hi.
    destruct (IH (S i) ltac:(lia)) as [tl ->]. cbn. eauto.
Qed.

End Replace.

Lemma replaceAll_total (r : regex) (rep : replacer) (s : jsstring) :
  total_replacer rep -> exists out, replaceAll r rep s = Some out.
Proof. intros H. apply replace_from_total; [exact H | reflexivity]. Qed.

Lemma replaceFirst_total (r : regex) (rep : replacer) (s : jsstring) :
  total_replacer rep -> exists out, replaceFirst r rep s = Some out.
Proof. intros H. apply replace_first_from_total; [exact H | reflexivity]. Qed.

Lemma strip_fence_total (matched : jsstring) :
  exists out, strip_fence matched = Some out.
Proof.
  unfold strip_fence.
  destruct (replaceFirst_total re_fence_open (by_template t_empty) matched
              (by_template_total _)) as [s1 ->].
  cbn [bind]. apply replaceFirst_total, by_template_total.
Qed.

Lemma by_function_total (f : jsstring -> option jsstring) :
  (forall s, exists out, f s = Some out) -> total_replacer (by_function f).
Proof. intros H input i st. apply H. Qed.

Lemma assign_cleaned_total (f : jsstring -> option jsstring) :
  (forall s, exists out, f s = Some out) -> total_stmt (assign_cleaned f).
Proof.
  intros H l. unfold assign_cleaned.
  destruct (H (cleaned l)) as [out ->]. cbn. eauto.
Qed.

Lemma pass_total (r : regex) (t : template) : total_stmt (pass r t).
Proof.
  apply assign_cleaned_total. intros s.
  apply replaceAll_total, by_template_total.
Qed.

Lemma run_total (ss : list stmt) :
  Forall total_stmt ss -> total_stmt (run ss).
Proof.
  induction 1 as [|s ss Hs _ IH]; intros l; cbn [run].
  - eauto.
  - destruct (Hs l) as (l1 & -> & T1). cbn [bind].
    destruct (IH l1) as (l2 & -> & T2). exists l2. split; congruence.
Qed.

Lemma body_total : total_stmt (run body).
Proof.
  apply run_total. unfold body, pass_link, pass_image, pass_code, pass_fence.
  repeat (apply Forall_cons; [first [apply pass_total | idtac]|]);
    [|apply Forall_nil].
  apply assign_cleaned_total. intros s.
  apply replaceAll_total, by_function_total, strip_fence_total.
Qed.

End Total.

(** ** Patterns that cannot match *)

Module NoMatch.

Lemma orElse_unmatched (a : MatchResult) (b : unit -> MatchResult) :
  unmatched a -> unmatched (b tt) -> unmatched (orElse a b).
Proof. intros Ha Hb. destruct a; simpl; auto. Qed.

Lemma unmatched_Failure : unmatched Failure.
Proof. intros y. discriminate. Qed.

Lemma unmatched_OutOfFuel : unmatched OutOfFuel.
Proof. intros y. discriminate. Qed.

#[local] Hint Resolve unmatched_Failure unmatched_OutOfFuel : core.

Section Input.

Variable input : jsstring.

Lemma RepeatMatcher_through (m : Matcher) (inner : list nat) :
  through m ->
  forall fuel min max greedy x c,
    (forall y, unmatched (c y)) ->
    unmatched (RepeatMatcher m inner fuel min max greedy x c).
Proof.
  intros Hm. induction fuel as [|fuel IH]; intros min max greedy x c Hc;
    cbn [RepeatMatcher]; [auto|].
  set (d := fun y : MatchState => _).
  assert (Hd : forall y, unmatched (d y)).
  { intros y. unfold d.
    destruct ((min =? 0) && (endIndex y =? endIndex x)); auto. }
  pose proof (Hm (mkState (endIndex x) (clear_captures inner (captures x)))
                d Hd) as Hmd.
  destruct max as [[|max]|]; [apply Hc| |];
    (destruct (min =? 0); cbn [negb];
     [destruct greedy; apply orElse_unmatched; auto | exact Hmd]).
Qed.

Lemma compile_through (r : regex) : through (compile input r).
Proof.
  induction r as [ |ch|p| | |r1 IH1 r2 IH2|r1 IH1 r2 IH2|n r IH|n
                  |greedy min max r IH];
    intros x c Hc; cbn [compile].
  - apply Hc.
  - destruct (nth_error input (endIndex x)) as [ch'|]; [|auto].
    destruct (ch' =? ch)%N; [apply Hc | auto].
  - destruct (nth_error input (endIndex x)) as [ch'|]; [|auto].
    destruct (p ch'); [apply Hc | auto].
  - destruct (endIndex x); [apply Hc|].
    destruct (nth_error input n) as [ch'|]; [|auto].
    destruct (LineTerminator ch'); [apply Hc | auto].
  - destruct (nth_error input (endIndex x)) as [ch'|]; [|apply Hc].
    destruct (LineTerminator ch'); [apply Hc | auto].
  - apply IH1. intros y. apply IH2, Hc.
  - apply orElse_unmatched; [apply IH1 | apply IH2]; exact Hc.
  - apply IH. intros y. apply Hc.
  - destruct (capture n (captures x)) as [[from to]|]; [|apply Hc].
    destruct (_ && _); [apply Hc | auto].
  - apply RepeatMatcher_through; [exact IH | exact Hc].
Qed.

Variable q : char -> bool.
Hypothesis absent : forall ch, In ch input -> q ch = false.

Lemma absent_at (i : nat) (ch : char) :
  nth_error input i = Some ch -> q ch = false.
Proof. intros H. apply absent. eapply nth_error_In, H. Qed.

Lemma requires_unmatched (r : regex) :
  requires q r -> forall x c, unmatched (compile input r x c).
Proof.
  induction r as [ |ch|p| | |r1 IH1 r2 IH2|r1 IH1 r2 IH2|n r IH|n
                  |greedy min max r IH];
    cbn [requires]; intros Hq x c; cbn [compile]; try contradiction.
  - destruct (nth_error input (endIndex x)) as [ch'|] eqn:E; [|auto].
    destruct (ch' =? ch)%N eqn:Ec; [|auto].
    apply N.eqb_eq in Ec. subst ch'. apply absent_at in E. congruence.
  - destruct (nth_error input (endIndex x)) as [ch'|] eqn:E; [|auto].
    destruct (p ch') eqn:Ep; [|auto].
    apply Hq in Ep. apply absent_at in E. congruence.
  - destruct Hq as [H1|H2]; [apply IH1, H1|].
    apply compile_through. intros y. apply IH2, H2.
  - destruct Hq as [H1 H2].
    apply orElse_unmatched; [apply IH1, H1 | apply IH2, H2].
  - apply IH, Hq.
  - destruct Hq as (Hmin & Hmax & Hr).
    unfold repeat_fuel. cbn [RepeatMatcher].
    destruct max as [[|max]|]; [congruence| |];
      (destruct min as [|min]; [lia|]; cbn [Nat.eqb negb]; apply IH, Hr).
Qed.

Lemma requires_Failure (r : regex) (i : nat) :
  requires q r -> i <= List.length input -> match_at input r i = Failure.
Proof.
  intros Hq Hi.
  pose proof (requires_unmatched r Hq (mkState i []) (fun y => Matched y)) as U.
  pose proof (Fuel.match_at_fuel input r i Hi) as F.
  unfold match_at in *.
  destruct (compile input r _ _) as [y| |]; [destruct (U y); reflexivity
                                            | reflexivity | congruence].
Qed.

End Input.

(** Without a match, a replacement leaves the string as it is. *)
Section Replace.

Variable r : regex.
Variable rep : replacer.
Variable input : jsstring.
Hypothesis no_match :
  forall i, i <= List.length input -> match_at input r i = Failure.

Lemma replace_from_no_match (rest : jsstring) :
  forall i lastIndex,
    i + List.length rest = List.length input -> lastIndex <= i ->
    replace_from r rep input i rest lastIndex = Some rest.
Proof.
  induction rest as [|ch rest IH]; intros i lastIndex Hi Hl;
    cbn [replace_from].
  - rewrite no_match by lia. destruct (lastIndex <=? i); reflexivity.
  - cbn [List.length] in Hi.
    destruct (i <? lastIndex) eqn:E; [apply Nat.ltb_lt in E; lia|].
    rewrite no_match by lia. rewrite IH by lia. reflexivity.
Qed.

Lemma replace_first_from_no_match (rest : jsstring) :
  forall i,
    i + List.length rest = List.length input ->
    replace_first_from r rep input i rest = Some rest.
Proof.
  induction rest as [|ch rest IH]; intros i Hi; cbn [replace_first_from];
    rewrite no_match by lia; [reflexivity|].
  cbn [List.length] in Hi. rewrite IH by lia. reflexivity.
Qed.

End Replace.

Lemma replaceAll_requires (q : char -> bool) (r : regex) (rep : replacer)
  (s : jsstring) :
  requires q r -> (forall ch, In ch s -> q ch = false) ->
  replaceAll r rep s = Some s.
Proof.
  intros Hq Hs. unfold replaceAll. apply replace_from_no_match; [|lia|lia].
  intros i Hi. apply requires_Failure with q; assumption.
Qed.

End NoMatch.

(** ** The characters of a replacement *)

Module Chars.

(** The head of a suffix is the character at its index. *)
Lemma skipn_step (input : jsstring) (i : nat) (ch : char) (rest : jsstring) :
  skipn i input = ch :: rest ->
  nth_error input i = Some ch /\ skipn (S i) input = rest.
Proof.
  intros H. split.
  - rewrite <- hd_error_skipn, H. reflexivity.
  - change (S i) with (1 + i). rewrite <- skipn_skipn, H. reflexivity.
Qed.

Section Forall.

Variable P : char -> Prop.

Lemma Forall_substring (s : jsstring) (from to : nat) :
  Forall P s -> Forall P (substring s from to).
Proof.
  intros H. unfold substring.
  rewrite <- (firstn_skipn from s) in H. apply Forall_app in H as [_ H].
  rewrite <- (firstn_skipn (to - from) (skipn from s)) in H.
  apply Forall_app in H as [H _]. exact H.
Qed.

Lemma Forall_skipn (s : jsstring) (n : nat) :
  Forall P s -> Forall P (skipn n s).
Proof.
  intros H. rewrite <- (firstn_skipn n s) in H.
  apply Forall_app in H as [_ H]. exact H.
Qed.

Local Abbreviation keeps := (keeps P).

Lemma by_template_keeps (t : template) :
  Forall P (template_chars t) -> keeps (by_template t).
Proof.
  intros Ht input i st out Hin E. unfold by_template in E.
  injection E as <-. clear i.
  induction t as [|[ch|n] t IH]; cbn [flat_map expand_item template_chars] in *.
  - constructor.
  - inversion Ht; subst. constructor; [assumption | apply IH; assumption].
  - apply Forall_app. split; [|apply IH, Ht].
    unfold captured. destruct (capture n (captures st)) as [[from to]|];
      [apply Forall_substring, Hin | constructor].
Qed.

Section Replace.

Variable r : regex.
Variable rep : replacer.
Hypothesis rep_keeps : keeps rep.
Variable input : jsstring.
Hypothesis input_ok : Forall P input.

Lemma replace_from_Forall (rest : jsstring) :
  forall i lastIndex out,
    Forall P rest ->
    replace_from r rep input i rest lastIndex = Some out -> Forall P out.
Proof.
  induction rest as [|ch rest IH]; intros i lastIndex out Hr;
    cbn [replace_from].
  - destruct (lastIndex <=? i).
    + destruct (match_at input r i) as [st| |]; intros E.
      * exact (rep_keeps input i st out input_ok E).
      * injection E as <-. constructor.
      * discriminate.
    + intros E. injection E as <-. constructor.
  - inversion Hr as [|? ? Hch Hrest]; subst.
    destruct (i <? lastIndex); [apply IH, Hrest|].
    destruct (match_at input r i) as [st| |]; [| |discriminate].
    + destruct (rep input i st) as [o|] eqn:Eo; cbn [bind]; [|discriminate].
      pose proof (rep_keeps input i st o input_ok Eo) as Ho.
      destruct (endIndex st =? i).
      * destruct (replace_from r rep input (S i) rest (S i)) as [tl|] eqn:Et;
          cbn [option_map bind]; [|discriminate].
        intros E. injection E as <-. apply Forall_app. split; [exact Ho|].
        constructor; [exact Hch | eapply IH; eassumption].
      * destruct (replace_from r rep input (S i) rest (endIndex st))
          as [tl|] eqn:Et; cbn [bind]; [|discriminate].
        intros E. injection E as <-. apply Forall_app. split; [exact Ho|].
        eapply IH; eassumption.
    + destruct (replace_from r rep input (S i) rest lastIndex) as [tl|] eqn:Et;
        cbn [option_map]; [|discriminate].
      intros E. injection E as <-.
      constructor; [exact Hch | eapply IH; eassumption].
Qed.

End Replace.

Lemma replaceAll_Forall (r : regex) (rep : replacer) (s out : jsstring) :
  keeps rep -> Forall P s -> replaceAll r rep s = Some out -> Forall P out.
Proof.
  intros Hk Hs E. unfold replaceAll in E.
  eapply replace_from_Forall; eassumption.
Qed.

End Forall.

End Chars.

(** ** Inputs made of white space *)

Module Blank.

Lemma spaces_absent (s : jsstring) :
  spaces s -> forall ch, In ch s -> not_space ch = false.
Proof.
  intros H ch Hin. unfold spaces in H. rewrite Forall_forall in H.
  unfold not_space. rewrite (H ch Hin). reflexivity.
Qed.

Lemma trimStart_spaces (s : jsstring) : spaces s -> trimStart s = [].
Proof.
  induction 1 as [|ch s Hch _ IH]; [reflexivity|].
  cbn [trimStart]. rewrite Hch. exact IH.
Qed.

Lemma trim_spaces (s : jsstring) : spaces s -> trim s = [].
Proof.
  intros H. unfold trim. rewrite trimStart_spaces by exact H. reflexivity.
Qed.

Lemma pass_requires (r : regex) (rep : replacer) :
  requires not_space r -> keeps_spaces (assign_cleaned (replaceAll r rep)).
Proof.
  intros Hr l Hl. unfold assign_cleaned.
  rewrite (NoMatch.replaceAll_requires not_space r rep (cleaned l) Hr
             (spaces_absent _ Hl)).
  cbn. eauto.
Qed.

Lemma pass_template (r : regex) (t : template) :
  spaces (template_chars t) -> keeps_spaces (pass r t).
Proof.
  intros Ht l Hl. unfold pass, assign_cleaned.
  destruct (Total.replaceAll_total r (by_template t) (cleaned l)
              (Total.by_template_total t)) as [out E].
  rewrite E. cbn. eexists. split; [reflexivity|]. cbn.
  eapply Chars.replaceAll_Forall; [|exact Hl|exact E].
  apply Chars.by_template_keeps, Ht.
Qed.

Lemma run_keeps_spaces (ss : list stmt) :
  Forall keeps_spaces ss -> keeps_spaces (run ss).
Proof.
  induction 1 as [|s ss Hs _ IH]; intros l Hl; cbn [run].
  - eauto.
  - destruct (Hs l Hl) as (l1 & -> & H1). cbn [bind]. apply IH, H1.
Qed.

(** Finding the character a pattern cannot do without. *)
Ltac one_of H :=
  cbn in H;
  repeat (apply orb_true_iff in H; destruct H as [H|H]);
  try discriminate H; apply N.eqb_eq in H; subst; reflexivity.

Ltac needs :=
  lazymatch goal with
  | |- _ \/ _ => solve [left; needs | right; needs]
  | |- _ /\ _ => split; needs
  | |- 0 < _ => lia
  | |- _ <> _ => discriminate
  | |- _ = true => reflexivity
  | |- forall ch, _ -> _ => let H := fresh in intros ? H; one_of H
  | |- _ => fail
  end.

Ltac by_need :=
  apply pass_requires; cbn -[not_space Nat.ltb Nat.leb]; needs.

Lemma body_keeps_spaces : keeps_spaces (run body).
Proof.
  apply run_keeps_spaces. unfold body, pass_link, pass_image, pass_code, pass_fence, pass.
  repeat (apply Forall_cons;
          [first [ by_need
                 | apply pass_template; repeat constructor ]|]).
  apply Forall_nil.
Qed.

Lemma markdownToHuman_spaces (s : jsstring) :
  spaces s -> markdownToHuman s = Some [].
Proof.
  intros H. unfold markdownToHuman, markdownToHuman_locals.
  destruct s as [|ch s]; [reflexivity|].
  destruct (body_keeps_spaces (mkLocals (ch :: s) (ch :: s)) H)
    as (l & -> & Hl).
  cbn [bind]. rewrite trim_spaces by exact Hl. reflexivity.
Qed.

End Blank.

(** ** Links and images *)

Module Marker.

Lemma marker_cons (a b : char) (s : jsstring) :
  has_image_marker (a :: b :: s)
  = ((a =? BANG) && (b =? LBRACK))%N || has_image_marker (b :: s).
Proof. reflexivity. Qed.

Lemma marker_tail (a : char) (s : jsstring) :
  has_image_marker (a :: s) = false -> has_image_marker s = false.
Proof.
  destruct s as [|b s]; [reflexivity|].
  rewrite marker_cons. intros H. apply orb_false_iff in H. apply H.
Qed.

Lemma marker_push (a : char) (s : jsstring) :
  a <> BANG -> has_image_marker s = false ->
  has_image_marker (a :: s) = false.
Proof.
  intros Ha Hs. destruct s as [|b s]; [reflexivity|].
  rewrite marker_cons, Hs. apply N.eqb_neq in Ha. rewrite Ha. reflexivity.
Qed.

Lemma marker_app (a : jsstring) (b0 : char) (b : jsstring) :
  has_image_marker a = false -> has_image_marker (b0 :: b) = false ->
  b0 <> LBRACK -> has_image_marker (a ++ b0 :: b) = false.
Proof.
  intros Ha Hb Hb0. induction a as [|x a IH]; [exact Hb|].
  destruct a as [|y a].
  - cbn [app]. rewrite marker_cons, Hb.
    apply N.eqb_neq in Hb0. rewrite Hb0, andb_false_r. reflexivity.
  - cbn [app] in *. rewrite marker_cons in *.
    apply orb_false_iff in Ha as [Hxy Ha]. rewrite Hxy, (IH Ha). reflexivity.
Qed.

Lemma marker_firstn (n : nat) (s : jsstring) :
  has_image_marker s = false -> has_image_marker (firstn n s) = false.
Proof.
  revert s. induction n as [|n IH]; intros s H; [reflexivity|].
  destruct s as [|a s]; [reflexivity|]. cbn [firstn].
  pose proof (IH s (marker_tail a s H)) as IHs.
  destruct n as [|n]; [reflexivity|].
  destruct s as [|b s]; [reflexivity|].
  cbn [firstn] in *. rewrite marker_cons in *.
  apply orb_false_iff in H as [Hab _]. rewrite Hab, IHs. reflexivity.
Qed.

Lemma marker_skipn (n : nat) (s : jsstring) :
  has_image_marker s = false -> has_image_marker (skipn n s) = false.
Proof.
  revert s. induction n as [|n IH]; intros s H; [exact H|].
  destruct s as [|a s]; [reflexivity|]. cbn [skipn].
  apply IH. eapply marker_tail, H.
Qed.

Lemma marker_substring (s : jsstring) (from to : nat) :
  has_image_marker s = false ->
  has_image_marker (substring s from to) = false.
Proof. intros H. apply marker_firstn, marker_skipn, H. Qed.

Lemma marker_at (s : jsstring) :
  forall i,
    nth_error s i = Some BANG -> nth_error s (S i) = Some LBRACK ->
    has_image_marker s = true.
Proof.
  induction s as [|a s IH]; intros i H1 H2; [destruct i; discriminate|].
  destruct s as [|b s]; [destruct i; discriminate|].
  rewrite marker_cons. destruct i as [|i].
  - cbn in H1, H2. injection H1 as ->. injection H2 as ->. reflexivity.
  - rewrite (IH i H1 H2). apply orb_true_r.
Qed.

Section Input.

Variable input : jsstring.
Hypothesis marker_free : has_image_marker input = false.

(** The image pattern starts with the marker. *)
Lemma image_no_match (i : nat) : match_at input re_image i = Failure.
Proof.
  unfold match_at, re_image. cbn [cat compile endIndex c].
  destruct (nth_error input i) as [a|] eqn:E1; [|reflexivity].
  destruct (a =? chr "!")%N eqn:Ea; [|reflexivity].
  destruct (nth_error input (S i)) as [b|] eqn:E2; [|reflexivity].
  destruct (b =? chr "[")%N eqn:Eb; [|reflexivity].
  apply N.eqb_eq in Ea, Eb. subst a b.
  rewrite (marker_at input i E1 E2) in marker_free. discriminate.
Qed.

(** A link starts with a bracket. *)
Lemma link_starts (i : nat) (st : MatchState) :
  match_at input re_link i = Matched st -> nth_error input i = Some LBRACK.
Proof.
  unfold match_at, re_link. cbn [cat compile endIndex c].
  destruct (nth_error input i) as [a|]; [|discriminate].
  destruct (a =? chr "[")%N eqn:Ea; [|discriminate].
  apply N.eqb_eq in Ea. subst a. reflexivity.
Qed.

Lemma link_text (i : nat) (st : MatchState) (tail : jsstring) :
  has_image_marker (RPAREN :: tail) = false ->
  exists out,
    by_template t_link input i st = Some out /\
    has_image_marker (out ++ tail) = false.
Proof.
  intros Ht. eexists. split; [reflexivity|].
  cbn [flat_map expand_item t_link app].
  repeat (rewrite <- app_assoc; cbn [app]).
  assert (C : forall n, has_image_marker (captured input n st) = false).
  { intros n. unfold captured.
    destruct (capture n (captures st)) as [[from to]|]; [|reflexivity].
    apply marker_substring, marker_free. }
  apply marker_app; [apply C| |discriminate].
  apply marker_push; [discriminate|].
  apply marker_push; [discriminate|].
  apply marker_app; [apply C|exact Ht|discriminate].
Qed.

Local Abbreviation after := (after input).

Lemma not_after_link (prev : char) (i lastIndex : nat) (st : MatchState) :
  after prev i lastIndex ->
  match_at input re_link i = Matched st -> prev <> BANG.
Proof.
  intros Ha Hm Hp. destruct (Ha Hp) as (_ & j & -> & Hj).
  apply link_starts in Hm.
  rewrite (marker_at input j Hj Hm) in marker_free. discriminate.
Qed.

Lemma links_from_marker_free (rest : jsstring) :
  forall i lastIndex out prev,
    skipn i input = rest ->
    after prev i lastIndex ->
    replace_from re_link (by_template t_link) input i rest lastIndex
      = Some out ->
    has_image_marker (prev :: out) = false.
Proof.
  induction rest as [|ch rest IH]; intros i lastIndex out prev Hs Ha;
    cbn [replace_from].
  - destruct (lastIndex <=? i); [|intros E; injection E as <-; reflexivity].
    destruct (match_at input re_link i) as [st| |] eqn:Em;
      [|intros E; injection E as <-; reflexivity|discriminate].
    intros E. destruct (link_text i st [] eq_refl) as (o & Eo & Ho).
    rewrite Eo in E. injection E as <-. rewrite app_nil_r in Ho.
    apply marker_push; [eapply not_after_link; eassumption | exact Ho].
  - destruct (Chars.skipn_step input i ch rest Hs) as [Hch Hs'].
    destruct (i <? lastIndex) eqn:El.
    + apply IH; [exact Hs'|]. intros Hp.
      apply Nat.ltb_lt in El. destruct (Ha Hp) as [L _]. lia.
    + apply Nat.ltb_ge in El.
      destruct (match_at input re_link i) as [st| |] eqn:Em; [| |discriminate].
      * assert (Hprev : prev <> BANG) by (eapply not_after_link; eassumption).
        assert (Hr : RPAREN <> BANG) by discriminate.
        destruct (endIndex st =? i).
        -- destruct (replace_from _ _ _ (S i) rest (S i)) as [tl|] eqn:Et.
           2:{ cbn. discriminate. }
           assert (Htl : has_image_marker (RPAREN :: ch :: tl) = false).
           { apply marker_push; [exact Hr|].
             apply (IH (S i) (S i) tl ch Hs'); [|exact Et].
             intros Hp. split; [lia|]. exists i. split; congruence. }
           destruct (link_text i st (ch :: tl) Htl) as (o & Eo & Ho).
           rewrite Eo. cbn [bind option_map]. intros E. injection E as <-.
           apply marker_push; assumption.
        -- destruct (replace_from _ _ _ (S i) rest (endIndex st))
             as [tl|] eqn:Et.
           2:{ cbn. discriminate. }
           assert (Htl : has_image_marker (RPAREN :: tl) = false).
           { apply (IH (S i) (endIndex st) tl RPAREN Hs'); [|exact Et].
             intros Hp. congruence. }
           destruct (link_text i st tl Htl) as (o & Eo & Ho).
           rewrite Eo. cbn [bind option_map]. intros E. injection E as <-.
           apply marker_push; assumption.
      * destruct (replace_from _ _ _ (S i) rest lastIndex) as [tl|] eqn:Et;
          [|discriminate].
        cbn [option_map]. intros E. injection E as <-.
        assert (Htl : has_image_marker (ch :: tl) = false).
        { apply (IH (S i) lastIndex tl ch Hs'); [|exact Et].
          intros Hp. split; [lia|]. exists i. split; congruence. }
        destruct (N.eq_dec prev BANG) as [Hp|Hp]; [|apply marker_push; assumption].
        destruct (Ha Hp) as (_ & j & -> & Hj). subst prev.
        rewrite marker_cons, Htl, orb_false_r.
        destruct (ch =? LBRACK)%N eqn:Ec; [|apply andb_false_r].
        apply N.eqb_eq in Ec. subst ch.
        rewrite (marker_at input j Hj Hch) in marker_free. discriminate.
Qed.

Lemma rewrite_images_id : rewrite_images input = Some input.
Proof.
  unfold rewrite_images, replaceAll.
  apply NoMatch.replace_from_no_match; [|lia|lia].
  intros i _. apply image_no_match.
Qed.

Lemma rewrite_links_marker_free (out : jsstring) :
  rewrite_links input = Some out -> has_image_marker out = false.
Proof.
  intros E. apply marker_tail with SP.
  apply (links_from_marker_free input 0 0 out SP); [reflexivity| |exact E].
  intros Hp. discriminate Hp.
Qed.

End Input.

End Marker.

(** ** Inline code against fenced code *)

Module Fence.

Lemma not_backtick_spec (ch : char) :
  not_backtick ch = true <-> ch <> BT.
Proof.
  unfold not_backtick. cbn [existsb]. rewrite orb_false_r, negb_true_iff.
  apply N.eqb_neq.
Qed.

Lemma backticks_cons (ch : char) (s : jsstring) :
  backticks (ch :: s) = (if N.eq_dec ch BT then 1 else 0) + backticks s.
Proof.
  unfold backticks. cbn [count_occ].
  destruct (N.eq_dec ch BT); reflexivity.
Qed.

Lemma backticks_app (s t : jsstring) :
  backticks (s ++ t) = backticks s + backticks t.
Proof. apply count_occ_app. Qed.

Lemma backticks_none (s : jsstring) :
  backticks s = 0 <-> Forall (fun ch => ch <> BT) s.
Proof.
  induction s as [|ch s IH]; [split; [constructor | reflexivity]|].
  rewrite backticks_cons. split.
  - intros H. destruct (N.eq_dec ch BT); [discriminate|].
    constructor; [assumption | apply IH; exact H].
  - intros H. inversion H; subst.
    destruct (N.eq_dec ch BT); [contradiction | apply IH; assumption].
Qed.

(** The first backtick of a string that has one. *)
Lemma first_backtick (s : jsstring) :
  backticks s <> 0 ->
  exists pre post,
    s = pre ++ BT :: post /\ Forall (fun ch => ch <> BT) pre.
Proof.
  induction s as [|ch s IH]; [intros H; contradiction H; reflexivity|].
  rewrite backticks_cons. intros H.
  destruct (N.eq_dec ch BT) as [->|Hn].
  - exists [], s. split; [reflexivity | constructor].
  - destruct (IH H) as (pre & post & -> & Hpre).
    exists (ch :: pre), post. split; [reflexivity | constructor; assumption].
Qed.

Lemma two_backticks (s : jsstring) :
  forall i,
    nth_error s i = Some BT -> nth_error s (S i) = Some BT ->
    2 <= backticks s.
Proof.
  induction s as [|a s IH]; intros i H1 H2; [destruct i; discriminate|].
  rewrite backticks_cons. destruct i as [|i].
  - cbn [nth_error] in H1. injection H1 as ->.
    destruct s as [|b s]; [discriminate|].
    cbn [nth_error] in H2. injection H2 as ->.
    rewrite backticks_cons.
    destruct (N.eq_dec BT BT); [lia | congruence].
  - pose proof (IH i H1 H2). lia.
Qed.

Section Input.

Variable input : jsstring.

(** *** A greedy star over a class *)

Section Star.

Variable p : char -> bool.

Local Abbreviation run_of := (run_of input p).

Lemma run_of_step (e n : nat) (ch : char) :
  nth_error input e = Some ch -> p ch = true ->
  run_of (S e) n -> run_of e (S n).
Proof.
  intros He Hp H k Hk. destruct k as [|k].
  - rewrite Nat.add_0_r. eauto.
  - replace (e + S k) with (S e + k) by lia. apply H. lia.
Qed.

Lemma run_of_tail (e n : nat) : run_of e (S n) -> run_of (S e) n.
Proof.
  intros H k Hk. replace (S e + k) with (e + S k) by lia. apply H. lia.
Qed.

Lemma RepeatMatcher_star (m : Matcher) (fuel : nat) (x : MatchState)
  (c : Continuation) :
  RepeatMatcher m [] (S fuel) 0 None true x c
  = orElse
      (m (mkState (endIndex x) (captures x))
         (fun y => if endIndex y =? endIndex x then Failure
                   else RepeatMatcher m [] fuel 0 None true y c))
      (fun _ => c x).
Proof. reflexivity. Qed.

Lemma compile_CharSet (x : MatchState) (c : Continuation) :
  compile input (CharSet p) x c
  = match nth_error input (endIndex x) with
    | Some ch =>
      if p ch then c (mkState (S (endIndex x)) (captures x)) else Failure
    | None => Failure
    end.
Proof. reflexivity. Qed.

Ltac star_step :=
  rewrite RepeatMatcher_star, compile_CharSet; cbn [endIndex captures].

(** A match through the star went through the continuation, after a
    run of characters of the class. *)
Lemma star_trace (fuel : nat) :
  forall e caps (c : Continuation) z,
    RepeatMatcher (compile input (CharSet p)) [] fuel 0 None true
                  (mkState e caps) c = Matched z ->
    exists n, c (mkState (e + n) caps) = Matched z /\ run_of e n.
Proof.
  assert (stop : forall e caps (c : Continuation) z,
             c (mkState e caps) = Matched z ->
             exists n, c (mkState (e + n) caps) = Matched z /\ run_of e n).
  { intros e caps c z H. exists 0. rewrite Nat.add_0_r.
    split; [exact H | intros k Hk; lia]. }
  induction fuel as [|fuel IH]; intros e caps c z; [discriminate|].
  star_step.
  destruct (nth_error input e) as [ch|] eqn:E; [|apply stop].
  destruct (p ch) eqn:Ep; [|apply stop].
  rewrite (proj2 (Nat.eqb_neq (S e) e)) by lia.
  destruct (RepeatMatcher _ _ fuel 0 _ true (mkState (S e) caps) c)
    as [y| |] eqn:R; cbn [orElse]; [| apply stop | discriminate].
  intros H. injection H as ->.
  destruct (IH (S e) caps c z R) as (n & Hc & Hn).
  exists (S n). replace (e + S n) with (S e + n) by lia.
  split; [exact Hc | eapply run_of_step; eassumption].
Qed.

(** The star finds a match when, after a run of the class that a
    character outside the class ends, the continuation succeeds. *)
Lemma star_finds (n : nat) :
  forall fuel e caps (c : Continuation) ch,
    n < fuel -> run_of e n ->
    nth_error input (e + n) = Some ch -> p ch = false ->
    (exists z, c (mkState (e + n) caps) = Matched z) ->
    exists z,
      RepeatMatcher (compile input (CharSet p)) [] fuel 0 None true
                    (mkState e caps) c = Matched z.
Proof.
  induction n as [|n IH]; intros fuel e caps c ch Hf Hrun Hch Hp Hc;
    (destruct fuel as [|fuel]; [lia|]); star_step.
  - rewrite Nat.add_0_r in *. rewrite Hch, Hp. cbn [orElse]. exact Hc.
  - destruct (Hrun 0 ltac:(lia)) as (a & Ha & Hpa).
    rewrite Nat.add_0_r in Ha. rewrite Ha, Hpa.
    rewrite (proj2 (Nat.eqb_neq (S e) e)) by lia.
    replace (e + S n) with (S e + n) in * by lia.
    destruct (IH fuel (S e) caps c ch ltac:(lia) (run_of_tail e n Hrun)
                 Hch Hp Hc) as [z ->].
    cbn [orElse]. eauto.
Qed.

End Star.

(** *** The inline-code pattern *)

Lemma code_starts (i : nat) (st : MatchState) :
  match_at input re_code i = Matched st -> nth_error input i = Some BT.
Proof.
  unfold match_at, re_code. cbn [cat compile endIndex c backtick].
  destruct (nth_error input i) as [a|]; [|discriminate].
  destruct (a =? chr "`")%N eqn:Ea; [|discriminate].
  apply N.eqb_eq in Ea. subst a. reflexivity.
Qed.

Lemma run_no_backticks (e n : nat) :
  run_of input not_backtick e n ->
  backticks (substring input e (e + n)) = 0.
Proof.
  intros H. apply backticks_none. unfold substring.
  replace (e + n - e) with n by lia.
  apply Forall_forall. intros ch Hin.
  apply In_nth_error in Hin as [k Hk].
  rewrite nth_error_firstn in Hk.
  destruct (k <? n) eqn:Ek; [|discriminate].
  apply Nat.ltb_lt in Ek. rewrite nth_error_skipn in Hk.
  destruct (H k Ek) as (a & Ha & Hp).
  rewrite Ha in Hk. injection Hk as <-.
  apply not_backtick_spec, Hp.
Qed.

(** A match of the pattern is not empty and captures no backtick. *)
Lemma code_match (i : nat) (st : MatchState) :
  match_at input re_code i = Matched st ->
  i < endIndex st /\ backticks (captured input 1 st) = 0.
Proof.
  unfold match_at, re_code. cbn [cat compile endIndex captures c backtick].
  destruct (nth_error input i) as [a|]; [|discriminate].
  destruct (a =? chr "`")%N; [|discriminate].
  unfold Star, NoneOf. cbn [compile groups].
  intros H. apply star_trace in H as (n & H & Hrun).
  cbn [endIndex captures] in H.
  destruct (nth_error input (S i + n)) as [b|]; [|discriminate].
  destruct (b =? chr "`")%N; [|discriminate].
  injection H as <-. cbn [endIndex]. split; [lia|].
  unfold captured. cbn [captures capture set_capture Nat.eqb].
  apply (run_no_backticks (S i) n Hrun).
Qed.

(** At a backtick that a later backtick follows, the pattern matches. *)
Lemma code_finds (i : nat) :
  nth_error input i = Some BT ->
  backticks (skipn (S i) input) <> 0 ->
  exists st, match_at input re_code i = Matched st.
Proof.
  intros Hi Hb.
  destruct (first_backtick _ Hb) as (pre & post & E & Hpre).
  assert (Hnth : forall k,
             nth_error input (S i + k) = nth_error (pre ++ BT :: post) k)
    by (intros k; rewrite <- E; symmetry; apply nth_error_skipn).
  unfold match_at, re_code. cbn [cat compile endIndex captures c backtick].
  rewrite Hi. change (BT =? chr "`")%N with true. cbv iota.
  unfold Star, NoneOf. cbn [compile groups].
  apply star_finds with (n := List.length pre) (ch := BT).
  - unfold repeat_fuel. cbn [endIndex].
    assert (L : List.length (skipn (S i) input)
                = List.length pre + S (List.length post))
      by (rewrite E, length_app; reflexivity).
    rewrite length_skipn in L. lia.
  - intros k Hk. rewrite Hnth, nth_error_app1 by exact Hk.
    destruct (nth_error pre k) as [ch|] eqn:Ek.
    2:{ apply nth_error_None in Ek. lia. }
    exists ch. split; [reflexivity|].
    apply (proj2 (not_backtick_spec ch)).
    rewrite Forall_forall in Hpre. apply Hpre.
    eapply nth_error_In, Ek.
  - rewrite Hnth, nth_error_app2, Nat.sub_diag by lia. reflexivity.
  - reflexivity.
  - cbn [endIndex captures compile].
    rewrite Hnth, nth_error_app2, Nat.sub_diag by lia. cbn [nth_error].
    change (BT =? chr "`")%N with true. cbv iota. eauto.
Qed.

(** Past the last backtick the pass copies the text. *)
Lemma code_from_plain (rest : jsstring) :
  forall i lastIndex out,
    skipn i input = rest -> backticks rest = 0 -> lastIndex <= i ->
    replace_from re_code (by_template t_1) input i rest lastIndex = Some out ->
    out = rest.
Proof.
  induction rest as [|ch rest IH]; intros i lastIndex out Hs Hb Hl;
    cbn [replace_from].
  - destruct (lastIndex <=? i); [|congruence].
    destruct (match_at input re_code i) as [st| |] eqn:Em;
      [|congruence|discriminate].
    apply code_starts in Em.
    rewrite <- hd_error_skipn, Hs in Em. discriminate.
  - destruct (Chars.skipn_step input i ch rest Hs) as [Hch Hs'].
    rewrite backticks_cons in Hb.
    destruct (N.eq_dec ch BT) as [->|Hn]; [discriminate|].
    destruct (i <? lastIndex) eqn:El; [apply Nat.ltb_lt in El; lia|].
    destruct (match_at input re_code i) as [st| |] eqn:Em; [| |discriminate].
    + apply code_starts in Em. congruence.
    + destruct (replace_from _ _ _ (S i) rest lastIndex) as [tl|] eqn:Et;
        [|discriminate].
      cbn [option_map]. intros E. injection E as <-.
      f_equal. apply (IH (S i) lastIndex tl Hs' Hb ltac:(lia) Et).
Qed.

(** The pass leaves one backtick at most. *)
Lemma code_from_backticks (rest : jsstring) :
  forall i lastIndex out,
    skipn i input = rest ->
    replace_from re_code (by_template t_1) input i rest lastIndex = Some out ->
    backticks out <= 1.
Proof.
  induction rest as [|ch rest IH]; intros i lastIndex out Hs;
    cbn [replace_from].
  - destruct (lastIndex <=? i); [|intros E; injection E as <-; cbn; lia].
    destruct (match_at input re_code i) as [st| |] eqn:Em;
      [|intros E; injection E as <-; cbn; lia|discriminate].
    apply code_starts in Em.
    rewrite <- hd_error_skipn, Hs in Em. discriminate.
  - destruct (Chars.skipn_step input i ch rest Hs) as [Hch Hs'].
    destruct (i <? lastIndex) eqn:El; [apply IH, Hs'|].
    apply Nat.ltb_ge in El.
    destruct (match_at input re_code i) as [st| |] eqn:Em; [| |discriminate].
    + destruct (code_match i st Em) as [Hlt Hcap].
      rewrite (proj2 (Nat.eqb_neq (endIndex st) i)) by lia.
      unfold by_template. cbn [bind flat_map expand_item t_1].
      destruct (replace_from _ _ _ (S i) rest (endIndex st)) as [tl|] eqn:Et;
        [|discriminate].
      cbn [bind]. intros E. injection E as <-.
      rewrite !backticks_app, Hcap. cbn [backticks count_occ].
      pose proof (IH (S i) (endIndex st) tl Hs' Et). lia.
    + destruct (replace_from _ _ _ (S i) rest lastIndex) as [tl|] eqn:Et;
        [|discriminate].
      cbn [option_map]. intros E. injection E as <-.
      rewrite backticks_cons.
      destruct (N.eq_dec ch BT) as [->|Hn];
        [|apply (IH (S i) lastIndex tl Hs' Et)].
      assert (Hb : backticks rest = 0).
      { destruct (Nat.eq_dec (backticks rest) 0) as [Hz|Hz]; [exact Hz|].
        rewrite <- Hs' in Hz.
        destruct (code_finds i Hch Hz) as [st Est]. congruence. }
      rewrite (code_from_plain rest (S i) lastIndex tl Hs' Hb ltac:(lia) Et).
      lia.
Qed.

(** *** The fenced-code pattern *)

Lemma fence_starts (i : nat) (st : MatchState) :
  match_at input re_fence i = Matched st ->
  nth_error input i = Some BT /\ nth_error input (S i) = Some BT.
Proof.
  unfold match_at, re_fence. cbn [cat compile endIndex c backtick].
  destruct (nth_error input i) as [a|]; [|discriminate].
  destruct (a =? chr "`")%N eqn:Ea; [|discriminate].
  destruct (nth_error input (S i)) as [b|]; [|discriminate].
  destruct (b =? chr "`")%N eqn:Eb; [|discriminate].
  apply N.eqb_eq in Ea, Eb. subst a b. intros _. split; reflexivity.
Qed.

Lemma fence_no_match (i : nat) :
  backticks input <= 1 -> i <= List.length input ->
  match_at input re_fence i = Failure.
Proof.
  intros Hb Hi.
  pose proof (Fuel.match_at_fuel input re_fence i Hi) as F.
  destruct (match_at input re_fence i) as [st| |] eqn:Em;
    [|reflexivity|congruence].
  destruct (fence_starts i st Em) as [H1 H2].
  pose proof (two_backticks input i H1 H2). lia.
Qed.

End Input.

Lemma rewrite_code_backticks (s out : jsstring) :
  rewrite_code s = Some out -> backticks out <= 1.
Proof.
  intros E. apply (code_from_backticks s s 0 0 out); [reflexivity | exact E].
Qed.

Lemma rewrite_fences_id (s : jsstring) :
  backticks s <= 1 -> rewrite_fences s = Some s.
Proof.
  intros H. unfold rewrite_fences, replaceAll.
  apply NoMatch.replace_from_no_match; [|lia|lia].
  intros i Hi. apply fence_no_match; assumption.
Qed.

End Fence.

(** * Properties of the statistics *)

Module StatsFacts.

Lemma of_length_pos (n : nat) :
  n <> 0 -> exists m e, of_length n = S754_finite false m e.
Proof.
  intros Hn. unfold of_length.
  destruct (Z.of_nat n) as [|p|p] eqn:E; try lia.
  destruct (shl_align p 0 _) as [m e]. eauto.
Qed.

Lemma of_length_0 : of_length 0 = Zero.
Proof. reflexivity. Qed.

Lemma sub_diag_finite (s : bool) (m : positive) (e : Z) :
  sub (S754_finite s m e) (S754_finite s m e) = Zero.
Proof.
  unfold sub, SFsub. rewrite Z.sub_diag. reflexivity.
Qed.

Lemma reduction_same (x : Number) :
  (x = Zero \/ exists m e, x = S754_finite false m e) ->
  reduction x x = Zero.
Proof.
  intros [-> | (m & e & ->)]; [reflexivity|].
  unfold reduction. rewrite sub_diag_finite. reflexivity.
Qed.

Lemma of_length_shape (n : nat) :
  of_length n = Zero \/ exists m e, of_length n = S754_finite false m e.
Proof.
  destruct n as [|n]; [left; reflexivity|].
  right. apply of_length_pos. discriminate.
Qed.

End StatsFacts.

(** C7: for every string [c], [getStats('', c)] has a reduction of 0:
    the guard on the original length answers without dividing. *)
Theorem getStats_empty_original (c : jsstring) :
  reductionPercent (getStats [] c) = Zero.
Proof.
  unfold getStats; cbn [reductionPercent List.length].
  rewrite StatsFacts.of_length_0.
  unfold reduction. change (gt Zero Zero) with false. cbv iota.
  vm_compute. reflexivity.
Qed.

Module RoundingFacts.

Local Open Scope Z_scope.

Lemma pow_pos_Zpos (p : positive) : Z.pow_pos 2 p = Zpos (2 ^ p).
Proof. rewrite Z.pow_pos_fold, Pos2Z.inj_pow. reflexivity. Qed.

(** The floor of [x + 1/2] lies within a half of [x], the lower bound
    included. *)
Lemma floor_half_up (a d : Z) :
  0 < d ->
  let k := (2 * a + d) / (2 * d) in
  (2 * k - 1) * d <= 2 * a < (2 * k + 1) * d.
Proof.
  intros Hd k.
  pose proof (Z.div_mod (2 * a + d) (2 * d) ltac:(lia)) as E.
  pose proof (Z.mod_pos_bound (2 * a + d) (2 * d) ltac:(lia)) as B.
  fold k in E. nia.
Qed.

Lemma Math_round_half_up (x : Number) : rounds_half_up x (Math_round x).
Proof.
  destruct x as [s| s | |s m [|p|p]]; try reflexivity.
  cbn [rounds_half_up Math_round exact].
  set (a := cond_Zopp s (Zpos m)).
  exists ((2 * a + Z.pow_pos 2 p) / (2 * Z.pow_pos 2 p)).
  split; [reflexivity|].
  pose proof (@floor_half_up a (Z.pow_pos 2 p)) as H.
  rewrite pow_pos_Zpos in *.
  specialize (H ltac:(lia)). cbv zeta in H.
  set (k := (2 * a + Zpos (2 ^ p)) / (2 * Zpos (2 ^ p))) in *.
  unfold Qle, Qlt, Qminus, Qplus, Qopp, inject_Z; cbn [Qnum Qden].
  split; nia.
Qed.

End RoundingFacts.

(** The alignment of [of_length] is the conversion of the integer, for
    every length a string can have. *)
Module LengthFacts.

Local Open Scope Z_scope.

Lemma digits2_size (p : positive) : digits2_pos p = Pos.size p.
Proof. induction p; simpl; congruence. Qed.

Lemma digits2_iter_xO (k p : positive) :
  digits2_pos (Pos.iter xO p k) = (digits2_pos p + k)%positive.
Proof.
  induction k using Pos.peano_ind.
  - simpl. lia.
  - rewrite Pos.iter_succ. simpl. rewrite IHk. lia.
Qed.

Lemma digits2_bound (p : positive) :
  Zpos p < 2 ^ 53 -> Zpos (digits2_pos p) <= 53.
Proof.
  intros H. rewrite digits2_size.
  destruct (Z.le_gt_cases (Zpos (Pos.size p)) 53) as [L|L]; [exact L|].
  exfalso.
  pose proof (Pos.size_le p) as S.
  assert (2 ^ 54 <= 2 ^ Zpos (Pos.size p)) by (apply Z.pow_le_mono_r; lia).
  assert (Zpos (2 ^ Pos.size p) <= Zpos p~0) by (apply Pos2Z.pos_le_pos, S).
  rewrite Pos2Z.inj_pow in *. change (2 ^ 54) with (2 * 2 ^ 53) in *. lia.
Qed.

Lemma round_canonical (s : bool) (m : positive) (e : Z) :
  canonical_mantissa prec emax m e = true ->
  e <= emax - prec ->
  binary_round_aux prec emax s (Zpos m) e loc_Exact = S754_finite s m e.
Proof.
  unfold canonical_mantissa. intros C L. apply Z.eqb_eq in C.
  unfold binary_round_aux, shr_fexp. cbn [Zdigits2 shr_record_of_loc].
  rewrite C, Z.sub_diag. cbn [shr shr_m loc_of_shr_record round_nearest_even].
  cbn [Zdigits2 shr_record_of_loc].
  rewrite C, Z.sub_diag. cbn [shr shr_m].
  apply Z.leb_le in L. rewrite L. reflexivity.
Qed.

Lemma of_length_exact (n : nat) :
  Z.of_nat n < 2 ^ 53 -> of_length n = of_Z (Z.of_nat n).
Proof.
  intros H. unfold of_length, of_Z, binary_normalize.
  destruct (Z.of_nat n) as [|p|p] eqn:E; try reflexivity; try lia.
  unfold binary_round. rewrite Z.add_0_r.
  pose proof (digits2_bound p H) as D.
  assert (F : fexp prec emax (Zpos (digits2_pos p)) = Zpos (digits2_pos p) - 53)
    by (unfold fexp, SpecFloat.emin, prec, emax; lia).
  rewrite F. unfold shl_align.
  destruct (Zpos (digits2_pos p) - 53 - 0) as [|k|k] eqn:K; try lia.
  - rewrite round_canonical; [reflexivity| |unfold emax, prec; lia].
    unfold canonical_mantissa. apply Z.eqb_eq.
    rewrite Z.add_0_r. lia.
  - rewrite round_canonical; [reflexivity| |unfold emax, prec; lia].
    unfold canonical_mantissa. apply Z.eqb_eq.
    rewrite digits2_iter_xO.
    unfold fexp, SpecFloat.emin, prec, emax. lia.
Qed.

End LengthFacts.

(** C9, as stated, fails: with 16 original and 19 cleaned characters the
    percentage is -18.75, in the code's arithmetic as well as exactly;
    both modes of the specification give -18.8 and the code gives
    -18.7. *)
Lemma reductionPercent_negative_tie :
  blank 16 <> [] /\
  (exact (reduction (of_length 16) (of_length 19)) == - (75 # 4))%Q /\
  spec_round_half_away_from_zero (1000 * (16 - 19)) 16 = (-188)%Z /\
  spec_round_half_to_even (1000 * (16 - 19)) 16 = (-188)%Z /\
  reductionPercent (getStats (blank 16) (blank 19)) = tenths (-187) /\
  ~ agrees_with_a_spec_mode (blank 16) (blank 19).
Proof.
  split; [discriminate|].
  split; [vm_compute; reflexivity|].
  split; [reflexivity|]. split; [reflexivity|].
  split; [vm_compute; reflexivity|].
  unfold agrees_with_a_spec_mode. vm_compute. intros [H|H]; discriminate H.
Qed.

(** * The converter on the examples *)

(** The worked examples on which the code and the specification agree. *)
Module Samples.

Example heading :
  markdownToHuman (str "# Title" ++ [LF; LF] ++ str "Body")
  = Some (str "Title" ++ [LF; LF] ++ str "Body").
Proof. vm_compute. reflexivity. Qed.

Example emphasis :
  markdownToHuman (str "**bold** and *italic*") = Some (str "bold and italic").
Proof. vm_compute. reflexivity. Qed.

Example link :
  markdownToHuman link_example = Some (str "Docs (https://example.com)").
Proof. vm_compute. reflexivity. Qed.

Example unordered_list :
  markdownToHuman (str "- item one" ++ [LF] ++ str "- item two")
  = Some (str "item one" ++ [LF] ++ str "item two").
Proof. vm_compute. reflexivity. Qed.

Example ordered_list :
  markdownToHuman (str "1. first" ++ [LF] ++ str "2. second")
  = Some (str "first" ++ [LF] ++ str "second").
Proof. vm_compute. reflexivity. Qed.

Example horizontal_rule :
  markdownToHuman (str "above" ++ [LF] ++ str "---" ++ [LF] ++ str "below")
  = Some (str "above" ++ [LF; LF] ++ str "below").
Proof. vm_compute. reflexivity. Qed.

Example blank_lines :
  markdownToHuman (str "a" ++ [LF; LF; LF; LF] ++ str "b")
  = Some (str "a" ++ [LF; LF] ++ str "b").
Proof. vm_compute. reflexivity. Qed.

Example table : markdownToHuman (str "| A | B |") = Some (str "A B").
Proof. vm_compute. reflexivity. Qed.

(** One third of the text removed: 33.3 percent. *)
Example one_third :
  reductionPercent (getStats (blank 3) (blank 2)) = tenths 333.
Proof. vm_compute. reflexivity. Qed.

(** Two percentages on an exact half: 0.75 gives 0.8 and -0.25 gives
    -0.2. *)
Example positive_tie :
  reductionPercent (getStats (blank 400) (blank 397)) = tenths 8.
Proof. vm_compute. reflexivity. Qed.

Example negative_tie :
  reductionPercent (getStats (blank 400) (blank 401)) = tenths (-2).
Proof. vm_compute. reflexivity. Qed.

End Samples.

(** C1: on the fenced example the code does not return [npm start]: the
    inline-code pass, which runs first, takes the fence's backticks in
    pairs, so the line with the language tag stays.  The fence pass
    itself, given the example, strips both fence lines; but on every
    input the inline-code pass leaves one backtick at most, and the
    fence pass that follows it changes nothing. *)
Theorem fenced_example_keeps_tag :
  markdownToHuman fenced_example
    = Some (str "bash" ++ [LF] ++ str "npm start") /\
  markdownToHuman fenced_example <> Some (str "npm start") /\
  rewrite_fences fenced_example = Some (str "npm start" ++ [LF]) /\
  forall s : jsstring, bind (rewrite_code s) rewrite_fences = rewrite_code s.
Proof.
  split; [vm_compute; reflexivity|].
  split; [vm_compute; discriminate|].
  split; [vm_compute; reflexivity|].
  intros s. destruct (rewrite_code s) as [out|] eqn:E; [|reflexivity].
  cbn [bind]. apply Fence.rewrite_fences_id.
  apply (Fence.rewrite_code_backticks s out E).
Qed.

(** C2: on the image example the code does not return [alt]: the link
    pass, which runs first, rewrites the bracket part and leaves the
    marker.  The image pass itself, given the example, returns [alt]. *)
Theorem image_example_keeps_marker :
  markdownToHuman image_example = Some (str "!alt (img.png)") /\
  markdownToHuman image_example <> Some (str "alt") /\
  rewrite_images image_example = Some (str "alt").
Proof.
  split; [vm_compute; reflexivity|].
  split; [vm_compute; discriminate | vm_compute; reflexivity].
Qed.

(** C3: on the escape example the code does not return
    [*not italic*]: the weak-emphasis pass, which runs long before
    escape removal, takes the two stars for a pair of markers although
    each follows a backslash, and removes them; escape removal then
    finds one backslash with a character after it, drops it, and the
    last backslash stays.  The escape pass itself, given the example,
    returns [*not italic*]. *)
Theorem escape_example_loses_stars :
  markdownToHuman escape_example = Some (str "not italic\") /\
  markdownToHuman escape_example <> Some (str "*not italic*") /\
  replaceAll re_escape (by_template t_1) escape_example
    = Some (str "*not italic*") /\
  replaceAll re_weak (by_template t_2) escape_example
    = Some (str "\not italic\").
Proof.
  split; [vm_compute; reflexivity|].
  split; [vm_compute; discriminate|].
  split; vm_compute; reflexivity.
Qed.

(** * The converter on every input *)

(** C5: for every input string the converter returns a string; no
    search inside it fails to finish. *)
Theorem markdownToHuman_total (t : jsstring) :
  exists out : jsstring, markdownToHuman t = Some out.
Proof.
  unfold markdownToHuman, markdownToHuman_locals.
  destruct t as [|ch t]; [eauto|].
  destruct (Total.body_total (mkLocals (ch :: t) (ch :: t))) as (l & -> & _).
  cbn. eauto.
Qed.

(** C10: an input made of spaces, tabs and newlines only is converted to
    the empty string. *)
Theorem markdownToHuman_blank (s : jsstring) :
  Forall (fun ch => ch = SP \/ ch = TAB \/ ch = LF) s ->
  markdownToHuman s = Some [].
Proof.
  intros H. apply Blank.markdownToHuman_spaces.
  unfold spaces. eapply Forall_impl; [|exact H].
  intros ch [->|[->| ->]]; reflexivity.
Qed.

Lemma markdownToHuman_blank_witness :
  Forall (fun ch => ch = SP \/ ch = TAB \/ ch = LF) blank_example /\
  markdownToHuman blank_example = Some [].
Proof.
  assert (H : Forall (fun ch => ch = SP \/ ch = TAB \/ ch = LF) blank_example)
    by (repeat constructor; auto).
  split; [exact H | exact (markdownToHuman_blank blank_example H)].
Defined.

(** * Links and images *)

(** C4: the two passes of the code do not commute, by the defect of C2.
    On the image example the link pass followed by the image pass, the
    order of the code, leaves the marker and the address, and the image
    pass followed by the link pass gives [alt]: the link pattern of the
    code matches the bracket part of an image. *)
Theorem link_image_order_matters :
  bind (rewrite_links image_example) rewrite_images
    = Some (str "!alt (img.png)") /\
  bind (rewrite_images image_example) rewrite_links = Some (str "alt") /\
  bind (rewrite_links image_example) rewrite_images
    <> bind (rewrite_images image_example) rewrite_links.
Proof.
  split; [vm_compute; reflexivity|].
  split; [vm_compute; reflexivity|].
  vm_compute. discriminate.
Qed.

(** Where the two orders agree for lack of an image: on an input without
    a [!] immediately followed by a bracket the image pass changes
    nothing, before the link pass as well as after it. *)
Lemma link_image_without_marker (s : jsstring) :
  has_image_marker s = false ->
  bind (rewrite_links s) rewrite_images
    = bind (rewrite_images s) rewrite_links /\
  bind (rewrite_images s) rewrite_links = rewrite_links s.
Proof.
  intros H.
  rewrite (Marker.rewrite_images_id s H). cbn [bind].
  split; [|reflexivity].
  destruct (rewrite_links s) as [out|] eqn:E; [|reflexivity].
  cbn [bind]. apply Marker.rewrite_images_id.
  apply (Marker.rewrite_links_marker_free s H out E).
Qed.

(** * Further properties of the matcher *)

(** ** A match ends after it starts *)

Module Trace.

Section Input.

Variable input : jsstring.

Local Abbreviation forward := (forward input).

Lemma orElse_Matched (a : MatchResult) (b : unit -> MatchResult)
  (z : MatchState) :
  orElse a b = Matched z -> a = Matched z \/ (a = Failure /\ b tt = Matched z).
Proof. destruct a; cbn [orElse]; intros H; auto; discriminate. Qed.

Lemma RepeatMatcher_forward (m : Matcher) (inner : list nat) :
  (forall x c z, m x c = Matched z ->
                 exists y, c y = Matched z /\ endIndex x <= endIndex y) ->
  forall fuel min max greedy x c z,
    RepeatMatcher m inner fuel min max greedy x c = Matched z ->
    exists y, c y = Matched z /\ endIndex x <= endIndex y.
Proof.
  intros Hm. induction fuel as [|fuel IH]; intros min max greedy x c z;
    [discriminate|].
  cbn [RepeatMatcher].
  set (d := fun y : MatchState => _).
  assert (Hd : forall y, d y = Matched z ->
                         exists y', c y' = Matched z
                                    /\ endIndex y <= endIndex y').
  { intros y. unfold d.
    destruct ((min =? 0) && (endIndex y =? endIndex x)); [discriminate|].
    apply IH. }
  assert (Hmd : m (mkState (endIndex x) (clear_captures inner (captures x))) d
                = Matched z ->
                exists y, c y = Matched z /\ endIndex x <= endIndex y).
  { intros H. apply Hm in H as (y & Hy & L). cbn [endIndex] in L.
    apply Hd in Hy as (y' & Hy' & L'). exists y'. split; [exact Hy' | lia]. }
  assert (Hc : c x = Matched z ->
               exists y, c y = Matched z /\ endIndex x <= endIndex y)
    by (intros H; exists x; split; [exact H | lia]).
  destruct max as [[|max]|]; [exact Hc| |];
    (destruct (min =? 0); cbn [negb]; [|exact Hmd];
     destruct greedy; intros H; apply orElse_Matched in H as [H|[_ H]];
     auto).
Qed.

Lemma compile_forward (r : regex) : forward (compile input r).
Proof.
  induction r as [ |ch|p| | |r1 IH1 r2 IH2|r1 IH1 r2 IH2|n r IH|n
                  |greedy min max r IH];
    intros x c z; cbn [compile].
  - intros H. exists x. split; [exact H | lia].
  - destruct (nth_error input (endIndex x)) as [ch'|]; [|discriminate].
    destruct (ch' =? ch)%N; [|discriminate].
    intros H. eexists. split; [exact H | cbn; lia].
  - destruct (nth_error input (endIndex x)) as [ch'|]; [|discriminate].
    destruct (p ch'); [|discriminate].
    intros H. eexists. split; [exact H | cbn; lia].
  - destruct (endIndex x) as [|e] eqn:E.
    + intros H. exists x. split; [exact H | lia].
    + destruct (nth_error input e) as [ch'|]; [|discriminate].
      destruct (LineTerminator ch'); [|discriminate].
      intros H. exists x. split; [exact H | lia].
  - destruct (nth_error input (endIndex x)) as [ch'|].
    + destruct (LineTerminator ch'); [|discriminate].
      intros H. exists x. split; [exact H | lia].
    + intros H. exists x. split; [exact H | lia].
  - intros H. apply IH1 in H as (y & Hy & L).
    apply IH2 in Hy as (y' & Hy' & L'). exists y'. split; [exact Hy' | lia].
  - intros H. apply orElse_Matched in H as [H|[_ H]]; [apply IH1 | apply IH2];
      exact H.
  - intros H. apply IH in H as (y & Hy & L).
    eexists. split; [exact Hy | cbn; lia].
  - destruct (capture n (captures x)) as [[from to]|].
    + destruct (_ && _); [|discriminate].
      intros H. eexists. split; [exact H | cbn; lia].
    + intros H. exists x. split; [exact H | lia].
  - apply RepeatMatcher_forward. exact IH.
Qed.

Lemma match_at_forward (r : regex) (i : nat) (st : MatchState) :
  match_at input r i = Matched st -> i <= endIndex st.
Proof.
  unfold match_at. intros H.
  apply compile_forward in H as (y & Hy & L).
  injection Hy as <-. exact L.
Qed.

(** A pattern that starts with a character matches at that character
    only, and past it. *)
Lemma starts_with (ch : char) (r : regex) (i : nat) (st : MatchState) :
  match_at input (Seq (Char ch) r) i = Matched st ->
  nth_error input i = Some ch /\ i < endIndex st.
Proof.
  unfold match_at. cbn [compile endIndex captures].
  destruct (nth_error input i) as [ch'|]; [|discriminate].
  destruct (ch' =? ch)%N eqn:E; [|discriminate].
  apply N.eqb_eq in E. subst ch'. intros H.
  apply compile_forward in H as (y & Hy & L).
  injection Hy as <-. cbn [endIndex] in L. split; [reflexivity | lia].
Qed.

End Input.

End Trace.

(** * Further properties of the converter *)

(** ** What the output is made of *)

Module Pipeline.

Lemma run_app (a b : list stmt) (l : locals) :
  run (a ++ b) l = bind (run a l) (run b).
Proof.
  revert l. induction a as [|s a IH]; intros l; cbn [app run]; [reflexivity|].
  destruct (s l) as [l1|]; cbn [bind]; [apply IH | reflexivity].
Qed.

Lemma run_keeps (I : jsstring -> Prop) (ss : list stmt) :
  Forall (stmt_keeps I) ss -> stmt_keeps I (run ss).
Proof.
  induction 1 as [|s ss Hs _ IH]; intros l l' Hl; cbn [run].
  - intros E. injection E as <-. exact Hl.
  - destruct (s l) as [l1|] eqn:E1; cbn [bind]; [|discriminate].
    apply IH. exact (Hs l l1 Hl E1).
Qed.

Lemma assign_cleaned_keeps (I : jsstring -> Prop)
  (f : jsstring -> option jsstring) :
  (forall s out, I s -> f s = Some out -> I out) ->
  stmt_keeps I (assign_cleaned f).
Proof.
  intros H l l' Hl. unfold assign_cleaned.
  destruct (f (cleaned l)) as [out|] eqn:E; cbn [bind]; [|discriminate].
  intros E'. injection E' as <-. cbn [cleaned]. exact (H _ _ Hl E).
Qed.

(** The result of the converter, from the locals at the [return]. *)
Lemma markdownToHuman_inv (t out : jsstring) :
  markdownToHuman t = Some out ->
  (t = [] /\ out = []) \/
  exists l, run body (mkLocals t t) = Some l /\ out = trim (cleaned l).
Proof.
  unfold markdownToHuman, markdownToHuman_locals.
  destruct t as [|ch t].
  - intros E. injection E as <-. left. split; reflexivity.
  - destruct (run body _) as [l|]; cbn [bind]; [|discriminate].
    intros E. injection E as <-. right. eauto.
Qed.

End Pipeline.

Module Trim.

(** What [trimStart] returns is the end of its argument. *)
Lemma trimStart_suffix (s : jsstring) :
  exists a, s = a ++ trimStart s /\ Forall (fun ch => is_space ch = true) a.
Proof.
  induction s as [|ch s (a & E & Ha)]; [exists []; split; [reflexivity|constructor]|].
  cbn [trimStart]. destruct (is_space ch) eqn:Hs.
  - exists (ch :: a). split; [cbn [app]; congruence | constructor; assumption].
  - exists []. split; [reflexivity | constructor].
Qed.

Lemma trimStart_head (s : jsstring) (ch : char) :
  hd_error (trimStart s) = Some ch -> is_space ch = false.
Proof.
  induction s as [|a s IH]; [discriminate|].
  cbn [trimStart]. destruct (is_space a) eqn:Ha; [exact IH|].
  cbn [hd_error]. intros E. injection E as <-. exact Ha.
Qed.

Lemma trimEnd_prefix (s : jsstring) :
  exists b, s = trimEnd s ++ b /\ Forall (fun ch => is_space ch = true) b.
Proof.
  unfold trimEnd. destruct (trimStart_suffix (rev s)) as (a & E & Ha).
  exists (rev a). split; [|apply Forall_rev, Ha].
  rewrite <- rev_app_distr, <- E, rev_involutive. reflexivity.
Qed.

(** [trim] cuts white space off both ends. *)
Lemma trim_middle (s : jsstring) :
  exists a b,
    s = a ++ trim s ++ b /\
    Forall (fun ch => is_space ch = true) a /\
    Forall (fun ch => is_space ch = true) b.
Proof.
  destruct (trimStart_suffix s) as (a & Ea & Ha).
  destruct (trimEnd_prefix (trimStart s)) as (b & Eb & Hb).
  exists a, b. unfold trim. split; [|split; assumption].
  rewrite <- Eb. exact Ea.
Qed.

Lemma trim_Forall (P : char -> Prop) (s : jsstring) :
  Forall P s -> Forall P (trim s).
Proof.
  intros H. destruct (trim_middle s) as (a & b & E & _).
  rewrite E in H. apply Forall_app in H as [_ H].
  apply Forall_app in H as [H _]. exact H.
Qed.

Lemma trim_ends (s : jsstring) (ch : char) :
  hd_error (trim s) = Some ch \/ hd_error (rev (trim s)) = Some ch ->
  is_space ch = false.
Proof.
  unfold trim. intros [H|H].
  - destruct (trimEnd_prefix (trimStart s)) as (b & E & _).
    apply trimStart_head with s. rewrite E.
    destruct (trimEnd (trimStart s)); [discriminate | exact H].
  - unfold trimEnd in H. rewrite rev_involutive in H.
    eapply trimStart_head, H.
Qed.

End Trim.

Module Written.

Section Keeps.

Variable P : char -> Prop.
Hypothesis P_written : forall ch, written ch -> P ch.

Lemma template_ok (t : template) :
  Forall written (template_chars t) -> keeps P (by_template t).
Proof.
  intros H. apply Chars.by_template_keeps.
  eapply Forall_impl; [exact P_written | exact H].
Qed.

Lemma replace_first_from_Forall (r : regex) (rep : replacer)
  (input : jsstring) :
  keeps P rep -> Forall P input ->
  forall rest i out,
    Forall P rest ->
    replace_first_from r rep input i rest = Some out -> Forall P out.
Proof.
  intros Hk Hin. induction rest as [|ch rest IH]; intros i out Hr;
    cbn [replace_first_from];
    (destruct (match_at input r i) as [st| |]; [| |discriminate]).
  - destruct (rep input i st) as [o|] eqn:Eo; cbn [bind]; [|discriminate].
    intros E. injection E as <-. apply Forall_app. split.
    + exact (Hk input i st o Hin Eo).
    + apply Chars.Forall_skipn, Hin.
  - intros E. injection E as <-. constructor.
  - destruct (rep input i st) as [o|] eqn:Eo; cbn [bind]; [|discriminate].
    intros E. injection E as <-. apply Forall_app. split.
    + exact (Hk input i st o Hin Eo).
    + apply Chars.Forall_skipn, Hin.
  - inversion Hr; subst.
    destruct (replace_first_from r rep input (S i) rest) as [tl|] eqn:Et;
      cbn [option_map]; [|discriminate].
    intros E. injection E as <-. constructor; [assumption|].
    eapply IH; eassumption.
Qed.

Lemma replaceFirst_Forall (r : regex) (t : template) (s out : jsstring) :
  Forall written (template_chars t) -> Forall P s ->
  replaceFirst r (by_template t) s = Some out -> Forall P out.
Proof.
  intros Ht Hs E. unfold replaceFirst in E.
  eapply replace_first_from_Forall; [apply template_ok, Ht| | |exact E];
    exact Hs.
Qed.

Lemma strip_fence_keeps : keeps P (by_function strip_fence).
Proof.
  intros input i st out Hin. unfold by_function, strip_fence.
  destruct (replaceFirst re_fence_open _ _) as [s1|] eqn:E1; cbn [bind];
    [|discriminate].
  intros E2.
  apply (replaceFirst_Forall re_fence_close t_empty s1 out);
    [constructor| |exact E2].
  apply (replaceFirst_Forall re_fence_open t_empty
           (substring input i (endIndex st)) s1);
    [constructor| |exact E1].
  apply Chars.Forall_substring, Hin.
Qed.

Lemma pass_keeps (r : regex) (rep : replacer) :
  keeps P rep -> stmt_keeps (Forall P) (assign_cleaned (replaceAll r rep)).
Proof.
  intros Hk. apply Pipeline.assign_cleaned_keeps. intros s out Hs E.
  exact (Chars.replaceAll_Forall P r rep s out Hk Hs E).
Qed.

Lemma body_stmts_keep : Forall (stmt_keeps (Forall P)) body.
Proof.
  unfold body, pass_link, pass_image, pass_code, pass_fence, pass.
  repeat (apply Forall_cons;
          [apply pass_keeps;
           first [ apply strip_fence_keeps
                 | apply template_ok;
                   repeat (apply Forall_cons;
                           [unfold written, LPAREN, RPAREN; auto|]);
                   apply Forall_nil ]|]).
  apply Forall_nil.
Qed.

Lemma body_keeps : stmt_keeps (Forall P) (run body).
Proof. apply Pipeline.run_keeps, body_stmts_keep. Qed.

(** The same for the statements from the [n]-th on. *)
Lemma body_tail_keeps (n : nat) : stmt_keeps (Forall P) (run (skipn n body)).
Proof.
  apply Pipeline.run_keeps.
  pose proof body_stmts_keep as H.
  rewrite <- (firstn_skipn n body) in H.
  apply Forall_app in H as [_ H]. exact H.
Qed.

Lemma markdownToHuman_Forall (t out : jsstring) :
  Forall P t -> markdownToHuman t = Some out -> Forall P out.
Proof.
  intros Ht E.
  destruct (Pipeline.markdownToHuman_inv t out E) as [[_ ->]|(l & El & ->)];
    [constructor|].
  apply Trim.trim_Forall. exact (body_keeps (mkLocals t t) l Ht El).
Qed.

End Keeps.

End Written.

(** X1: the output neither starts nor ends with a white-space
    character. *)
Theorem output_is_trimmed (t out : jsstring) (ch : char) :
  markdownToHuman t = Some out ->
  hd_error out = Some ch \/ hd_error (rev out) = Some ch ->
  is_space ch = false.
Proof.
  intros E H.
  destruct (Pipeline.markdownToHuman_inv t out E) as [[_ ->]|(l & _ & ->)].
  - destruct H as [H|H]; discriminate H.
  - eapply Trim.trim_ends, H.
Qed.

Lemma output_is_trimmed_witness :
  markdownToHuman (str "  # Title ") = Some (str "Title") /\
  (hd_error (str "Title") = Some (chr "T")
   \/ hd_error (rev (str "Title")) = Some (chr "T")) /\
  is_space (chr "T") = false.
Proof.
  assert (E : markdownToHuman (str "  # Title ") = Some (str "Title"))
    by (vm_compute; reflexivity).
  assert (H : hd_error (str "Title") = Some (chr "T")
              \/ hd_error (rev (str "Title")) = Some (chr "T"))
    by (left; reflexivity).
  split; [exact E|]. split; [exact H|].
  exact (output_is_trimmed _ _ _ E H).
Defined.

(** X2: the converter invents no text: every character of the output is
    a character of the input, a space, a parenthesis or a newline. *)
Theorem output_characters (t out : jsstring) (ch : char) :
  markdownToHuman t = Some out -> In ch out ->
  In ch t \/ written ch.
Proof.
  intros E Hin.
  assert (Ht : Forall (fun ch => In ch t \/ written ch) t)
    by (apply Forall_forall; intros x Hx; left; exact Hx).
  pose proof (Written.markdownToHuman_Forall
                (fun ch => In ch t \/ written ch)
                (fun ch H => or_intror H) t out Ht E) as H.
  rewrite Forall_forall in H. exact (H ch Hin).
Qed.

Lemma output_characters_witness :
  markdownToHuman link_example = Some (str "Docs (https://example.com)") /\
  In SP (str "Docs (https://example.com)") /\
  (In SP link_example \/ written SP).
Proof.
  assert (E : markdownToHuman link_example
              = Some (str "Docs (https://example.com)"))
    by (vm_compute; reflexivity).
  assert (H : In SP (str "Docs (https://example.com)"))
    by (vm_compute; auto 10).
  split; [exact E|]. split; [exact H|].
  exact (output_characters _ _ _ E H).
Defined.

(** ** Pipes *)

Module Pipe.

Lemma body_around_pipe :
  body = before_pipe ++ pass re_pipe t_space :: after_pipe.
Proof. reflexivity. Qed.

Lemma orElse_not_Failure (a : MatchResult) (y : MatchState) :
  orElse a (fun _ => Matched y) <> Failure.
Proof. destruct a; cbn [orElse]; discriminate. Qed.

Section Input.

Variable input : jsstring.

(** At a pipe the pattern matches: the white space after it is
    optional. *)
Lemma pipe_matches (i : nat) :
  nth_error input i = Some PIPE -> match_at input re_pipe i <> Failure.
Proof.
  intros Hi. unfold match_at, re_pipe. cbn [cat compile endIndex captures c].
  rewrite Hi. change (PIPE =? chr "|")%N with true. cbv iota.
  unfold Star, Space. cbn [compile groups]. unfold repeat_fuel.
  rewrite Fence.RepeatMatcher_star.
  apply orElse_not_Failure.
Qed.

Lemma pipe_consumed (i : nat) (st : MatchState) :
  match_at input re_pipe i = Matched st -> (endIndex st =? i) = false.
Proof.
  intros H. apply Trace.starts_with in H as [_ H].
  apply Nat.eqb_neq. lia.
Qed.

Lemma pipe_from (rest : jsstring) :
  forall i lastIndex out,
    skipn i input = rest ->
    replace_from re_pipe (by_template t_space) input i rest lastIndex
      = Some out ->
    Forall (fun ch => ch <> PIPE) out.
Proof.
  induction rest as [|ch rest IH]; intros i lastIndex out Hs;
    cbn [replace_from].
  - destruct (lastIndex <=? i); [|intros E; injection E as <-; constructor].
    destruct (match_at input re_pipe i) as [st| |]; [| |discriminate];
      intros E; injection E as <-; repeat constructor; discriminate.
  - destruct (Chars.skipn_step input i ch rest Hs) as [Hch Hs'].
    destruct (i <? lastIndex); [apply IH, Hs'|].
    destruct (match_at input re_pipe i) as [st| |] eqn:Em; [| |discriminate].
    + rewrite (pipe_consumed i st Em).
      unfold by_template. cbn [bind flat_map expand_item t_space app].
      destruct (replace_from _ _ _ (S i) rest (endIndex st)) as [tl|] eqn:Et;
        cbn [bind]; [|discriminate].
      intros E. injection E as <-.
      constructor; [discriminate | exact (IH _ _ _ Hs' Et)].
    + destruct (replace_from _ _ _ (S i) rest lastIndex) as [tl|] eqn:Et;
        cbn [option_map]; [|discriminate].
      intros E. injection E as <-.
      constructor; [|exact (IH _ _ _ Hs' Et)].
      intros ->. exact (pipe_matches i Hch Em).
Qed.

End Input.

Lemma pipe_pass (s out : jsstring) :
  replaceAll re_pipe (by_template t_space) s = Some out ->
  Forall (fun ch => ch <> PIPE) out.
Proof. intros E. exact (pipe_from s s 0 0 out eq_refl E). Qed.

Lemma not_pipe_written (ch : char) : written ch -> ch <> PIPE.
Proof. intros [->|[->|[->| ->]]]; discriminate. Qed.

End Pipe.

(** X3: the output contains no pipe character. *)
Theorem output_has_no_pipe (t out : jsstring) :
  markdownToHuman t = Some out -> ~ In PIPE out.
Proof.
  intros E Hin.
  assert (H : Forall (fun ch => ch <> PIPE) out).
  { destruct (Pipeline.markdownToHuman_inv t out E) as [[_ ->]|(l & El & ->)];
      [constructor|].
    apply Trim.trim_Forall.
    rewrite Pipe.body_around_pipe, Pipeline.run_app in El.
    destruct (run before_pipe _) as [l1|]; cbn [bind] in El; [|discriminate].
    cbn [run] in El. unfold pass at 1, assign_cleaned at 1 in El.
    destruct (replaceAll re_pipe _ (cleaned l1)) as [s2|] eqn:E2;
      cbn [bind] in El; [|discriminate].
    apply Pipe.pipe_pass in E2.
    exact (Written.body_tail_keeps _ Pipe.not_pipe_written 9
             (mkLocals (text l1) s2) l E2 El). }
  rewrite Forall_forall in H. exact (H PIPE Hin eq_refl).
Qed.

Lemma output_has_no_pipe_witness :
  markdownToHuman (str "| A | B |") = Some (str "A B") /\
  ~ In PIPE (str "A B").
Proof.
  assert (E : markdownToHuman (str "| A | B |") = Some (str "A B"))
    by (vm_compute; reflexivity).
  split; [exact E | exact (output_has_no_pipe _ _ E)].
Defined.

(** ** Repeats of one character *)

Module Runs.

Lemma lead_cons_eq (c : char) (s : jsstring) :
  lead c (c :: s) = S (lead c s).
Proof. cbn [lead]. rewrite N.eqb_refl. reflexivity. Qed.

Lemma lead_cons_ne (c ch : char) (s : jsstring) :
  ch <> c -> lead c (ch :: s) = 0.
Proof.
  intros H. cbn [lead]. apply N.eqb_neq in H. rewrite H. reflexivity.
Qed.

Lemma has_run_cons (c : char) (n : nat) (ch : char) (s : jsstring) :
  has_run c n (ch :: s) = (n <=? lead c (ch :: s)) || has_run c n s.
Proof. reflexivity. Qed.

(** A run somewhere in [s] is a run in any string around [s]. *)
Lemma has_run_spec (c : char) (n : nat) (s : jsstring) :
  has_run c n s = true <->
  exists pre post, s = pre ++ repeat c n ++ post.
Proof.
  assert (L : forall s, n <= lead c s -> exists post, s = repeat c n ++ post).
  { clear s. induction n as [|n IH]; intros s H; [exists s; reflexivity|].
    destruct s as [|ch s]; [cbn in H; lia|].
    cbn [lead] in H. destruct (ch =? c)%N eqn:E; [|lia].
    apply N.eqb_eq in E. subst ch.
    destruct (IH s ltac:(lia)) as [post ->]. exists post. reflexivity. }
  assert (R : forall post, n <= lead c (repeat c n ++ post)).
  { intros post. clear L. induction n as [|n IH]; [lia|].
    cbn [repeat app]. rewrite lead_cons_eq. lia. }
  split.
  - induction s as [|ch s IH].
    + cbn [has_run lead]. rewrite orb_false_r. intros H.
      apply Nat.leb_le in H. exists [], []. destruct n; [reflexivity|lia].
    + rewrite has_run_cons. intros H. apply orb_true_iff in H as [H|H].
      * apply Nat.leb_le, L in H as [post ->]. exists [], post. reflexivity.
      * destruct (IH H) as (pre & post & ->).
        exists (ch :: pre), post. reflexivity.
  - intros (pre & post & ->). induction pre as [|ch pre IH].
    + cbn [app]. pose proof (R post) as H. apply Nat.leb_le in H.
      destruct (repeat c n ++ post) as [|a l]; cbn [has_run];
        rewrite H; reflexivity.
    + cbn [app]. rewrite has_run_cons, IH. apply orb_true_r.
Qed.

Lemma has_run_middle (c : char) (n : nat) (a m b : jsstring) :
  has_run c n (a ++ m ++ b) = false -> has_run c n m = false.
Proof.
  intros H. destruct (has_run c n m) eqn:E; [|reflexivity].
  apply has_run_spec in E as (pre & post & ->).
  rewrite <- H. symmetry. apply has_run_spec.
  exists (a ++ pre), (post ++ b). rewrite <- !app_assoc. reflexivity.
Qed.

Section Input.

Variable input : jsstring.

(** The run of [c] read from index [i] on. *)
Lemma lead_run (c : char) (rest : jsstring) :
  forall i,
    skipn i input = rest ->
    run_of input (N.eqb c) i (lead c rest) /\
    stops input (N.eqb c) (i + lead c rest).
Proof.
  induction rest as [|ch rest IH]; intros i Hs.
  - cbn [lead]. rewrite Nat.add_0_r. split; [intros k Hk; lia|].
    unfold stops. rewrite <- hd_error_skipn, Hs. exact I.
  - destruct (Chars.skipn_step input i ch rest Hs) as [Hch Hs'].
    cbn [lead]. destruct (ch =? c)%N eqn:E.
    + apply N.eqb_eq in E. subst ch. destruct (IH (S i) Hs') as [Hr Hst].
      split.
      * intros k Hk. destruct k as [|k].
        -- rewrite Nat.add_0_r. exists c. split; [exact Hch | apply N.eqb_refl].
        -- replace (i + S k) with (S i + k) by lia. apply Hr. lia.
      * replace (i + S (lead c rest)) with (S i + lead c rest) by lia.
        exact Hst.
    + rewrite Nat.add_0_r. split; [intros k Hk; lia|].
      unfold stops. rewrite Hch. rewrite N.eqb_sym. exact E.
Qed.

Lemma run_in_input (p : char -> bool) (e n : nat) :
  run_of input p e n -> e + n <= List.length input \/ n = 0.
Proof.
  intros H. destruct n as [|n]; [right; reflexivity|left].
  destruct (H n ltac:(lia)) as (ch & Hch & _).
  assert (e + n < List.length input)
    by (apply nth_error_Some; congruence).
  lia.
Qed.

(** A run found through indices is a run of the string. *)
Lemma run_has_run (c : char) (e n : nat) :
  run_of input (N.eqb c) e n -> has_run c n input = true.
Proof.
  intros H.
  assert (G : forall s i, skipn i input = s -> forall e, i <= e ->
              run_of input (N.eqb c) e n -> e - i <= List.length s ->
              has_run c n s = true).
  { clear e H. induction s as [|ch s IH]; intros i Hs e Hi H Hlen.
    - cbn [List.length] in Hlen. assert (e = i) by lia. subst e.
      destruct n as [|n]; [reflexivity|].
      destruct (H 0 ltac:(lia)) as (a & Ha & _). rewrite Nat.add_0_r in Ha.
      rewrite <- hd_error_skipn, Hs in Ha. discriminate.
    - destruct (Chars.skipn_step input i ch s Hs) as [Hch Hs'].
      rewrite has_run_cons. apply orb_true_iff.
      destruct (Nat.eq_dec e i) as [->|Hne].
      + left. apply Nat.leb_le.
        destruct (lead_run c (ch :: s) i Hs) as [_ Hst].
        destruct (Nat.le_gt_cases n (lead c (ch :: s))) as [L|L]; [exact L|].
        exfalso. destruct (H (lead c (ch :: s)) L) as (a & Ha & Hp).
        unfold stops in Hst. rewrite Ha in Hst. congruence.
      + right. apply (IH (S i) Hs' e); [lia | exact H|].
        cbn [List.length] in Hlen. lia. }
  destruct (run_in_input _ e n H) as [L| ->].
  - apply (G input 0 eq_refl e); [lia | exact H | lia].
  - destruct input; reflexivity.
Qed.

Section Repeat.

Variable p : char -> bool.
Variable m : Matcher.
Hypothesis m_single : single input p m.

Lemma single_step (e : nat) (caps : list (nat * option CaptureRange))
  (c : Continuation) (ch : char) :
  nth_error input e = Some ch -> p ch = true ->
  m (mkState e caps) c = c (mkState (S e) caps).
Proof. intros H Hp. rewrite m_single. cbn [endIndex captures]. rewrite H, Hp. reflexivity. Qed.

Lemma single_stop (e : nat) (caps : list (nat * option CaptureRange))
  (c : Continuation) :
  stops input p e -> m (mkState e caps) c = Failure.
Proof.
  unfold stops. intros H. rewrite m_single. cbn [endIndex captures].
  destruct (nth_error input e) as [ch|]; [rewrite H|]; reflexivity.
Qed.

Lemma RepeatMatcher_min (fuel min : nat) (greedy : bool) (x : MatchState)
  (c : Continuation) :
  RepeatMatcher m [] (S fuel) (S min) None greedy x c
  = m (mkState (endIndex x) (captures x))
      (fun y => RepeatMatcher m [] fuel min None greedy y c).
Proof. reflexivity. Qed.

(** A match of a repeat started with [min] characters of the class. *)
Lemma repeat_needs (min : nat) :
  forall fuel greedy e caps c z,
    RepeatMatcher m [] fuel min None greedy (mkState e caps) c = Matched z ->
    run_of input p e min.
Proof.
  induction min as [|min IH]; intros fuel greedy e caps c z H;
    [intros k Hk; lia|].
  destruct fuel as [|fuel]; [discriminate|].
  rewrite RepeatMatcher_min, m_single in H. cbn [endIndex captures] in H.
  destruct (nth_error input e) as [ch|] eqn:E; [|discriminate].
  destruct (p ch) eqn:Hp; [|discriminate].
  apply IH in H. intros k Hk. destruct k as [|k].
  - rewrite Nat.add_0_r. eauto.
  - replace (e + S k) with (S e + k) by lia. apply H. lia.
Qed.

(** A greedy repeat takes the whole run when the continuation accepts
    it. *)
Lemma repeat_longest (n : nat) :
  forall min fuel e caps c z,
    min <= n -> n < fuel ->
    run_of input p e n -> stops input p (e + n) ->
    c (mkState (e + n) caps) = Matched z ->
    RepeatMatcher m [] fuel min None true (mkState e caps) c = Matched z.
Proof.
  induction n as [|n IH]; intros min fuel e caps c z Hmin Hf Hrun Hst Hc;
    (destruct fuel as [|fuel]; [lia|]).
  - assert (min = 0) by lia. subst min. rewrite Nat.add_0_r in *.
    rewrite Fence.RepeatMatcher_star. cbn [endIndex captures].
    rewrite (single_stop e caps _ Hst). exact Hc.
  - destruct (Hrun 0 ltac:(lia)) as (ch & Hch & Hp).
    rewrite Nat.add_0_r in Hch.
    replace (e + S n) with (S e + n) in * by lia.
    assert (Hrun' : run_of input p (S e) n).
    { intros k Hk. replace (S e + k) with (e + S k) by lia. apply Hrun. lia. }
    destruct min as [|min].
    + rewrite Fence.RepeatMatcher_star. cbn [endIndex captures].
      rewrite (single_step e caps _ ch Hch Hp). cbn [endIndex].
      rewrite (proj2 (Nat.eqb_neq (S e) e)) by lia.
      rewrite (IH 0 fuel (S e) caps c z) by (lia || assumption).
      reflexivity.
    + rewrite RepeatMatcher_min. cbn [endIndex captures].
      rewrite (single_step e caps _ ch Hch Hp).
      apply IH; (lia || assumption).
Qed.

End Repeat.

Lemma single_Char (ch : char) :
  single input (N.eqb ch) (compile input (Char ch)).
Proof.
  intros x c. cbn [compile].
  destruct (nth_error input (endIndex x)) as [ch'|]; [|reflexivity].
  rewrite (N.eqb_sym ch ch'). reflexivity.
Qed.

(** [c{n,}] matches at [i] exactly when [n] characters [c] start there,
    and then it takes the whole run. *)
Lemma at_least_match (ch : char) (n i : nat) (rest : jsstring) :
  skipn i input = rest -> n <= lead ch rest ->
  match_at input (AtLeast n (Char ch)) i
  = Matched (mkState (i + lead ch rest) []).
Proof.
  intros Hs Hn. destruct (lead_run ch rest i Hs) as [Hrun Hst].
  unfold match_at, AtLeast. cbn [compile groups].
  apply (repeat_longest (N.eqb ch) _ (single_Char ch) (lead ch rest));
    [exact Hn| |exact Hrun|exact Hst|reflexivity].
  unfold repeat_fuel. cbn [endIndex].
  destruct (run_in_input _ _ _ Hrun) as [L|E]; lia.
Qed.

Lemma at_least_no_match (ch : char) (n i : nat) (rest : jsstring) :
  skipn i input = rest -> lead ch rest < n -> i <= List.length input ->
  match_at input (AtLeast n (Char ch)) i = Failure.
Proof.
  intros Hs Hn Hi. destruct (lead_run ch rest i Hs) as [_ Hst].
  pose proof (Fuel.match_at_fuel input (AtLeast n (Char ch)) i Hi) as F.
  destruct (match_at input _ i) as [st| |] eqn:Em; [|reflexivity|congruence].
  exfalso. unfold match_at, AtLeast in Em. cbn [compile groups] in Em.
  apply (repeat_needs (N.eqb ch) _ (single_Char ch)) in Em.
  destruct (Em (lead ch rest) Hn) as (a & Ha & Hp).
  unfold stops in Hst. rewrite Ha in Hst. congruence.
Qed.

(** Without [n] characters [c] in a row, replacing [c{n,}] changes
    nothing. *)
Lemma at_least_absent (ch : char) (n : nat) (rep : replacer) :
  has_run ch n input = false ->
  replaceAll (AtLeast n (Char ch)) rep input = Some input.
Proof.
  intros H. unfold replaceAll.
  apply NoMatch.replace_from_no_match; [|lia|lia].
  intros i Hi.
  pose proof (Fuel.match_at_fuel input (AtLeast n (Char ch)) i Hi) as F.
  destruct (match_at input _ i) as [st| |] eqn:Em; [|reflexivity|congruence].
  exfalso. unfold match_at, AtLeast in Em. cbn [compile groups] in Em.
  apply (repeat_needs (N.eqb ch) _ (single_Char ch)) in Em.
  apply run_has_run in Em. congruence.
Qed.

End Input.

End Runs.

(** ** Blank lines *)

Module Newlines.

Lemma body_before_newlines :
  body = before_newlines ++ [pass re_newlines t_paragraph].
Proof. reflexivity. Qed.

Lemma no_run_LF (tl : jsstring) :
  has_run LF 3 tl = false -> lead LF tl <= 1 ->
  has_run LF 3 (LF :: tl) = false.
Proof.
  intros H L. rewrite Runs.has_run_cons, Runs.lead_cons_eq, H, orb_false_r.
  apply Nat.leb_gt. lia.
Qed.

Lemma no_run_other (ch : char) (tl : jsstring) :
  has_run LF 3 tl = false -> ch <> LF ->
  has_run LF 3 (ch :: tl) = false.
Proof.
  intros H L. rewrite Runs.has_run_cons, Runs.lead_cons_ne, H by exact L.
  reflexivity.
Qed.

Section Input.

Variable input : jsstring.

Lemma stops_lead (e : nat) :
  stops input (N.eqb LF) e -> lead LF (skipn e input) = 0.
Proof.
  unfold stops. rewrite <- hd_error_skipn.
  destruct (skipn e input) as [|a l]; [reflexivity|].
  cbn [hd_error lead]. rewrite N.eqb_sym. intros ->. reflexivity.
Qed.

Lemma newlines_from (rest : jsstring) :
  forall i lastIndex out,
    skipn i input = rest -> i <= List.length input ->
    (i < lastIndex -> lead LF (skipn lastIndex input) = 0) ->
    replace_from re_newlines (by_template t_paragraph) input i rest lastIndex
      = Some out ->
    has_run LF 3 out = false /\
    (lastIndex <= i -> lead LF out <= lead LF rest /\ lead LF out <= 2) /\
    (i < lastIndex -> lead LF out = 0).
Proof.
  unfold re_newlines.
  induction rest as [|ch rest IH]; intros i lastIndex out Hs Hi Hskip;
    cbn [replace_from].
  - rewrite (Runs.at_least_no_match input LF 3 i [] Hs) by (cbn; lia).
    destruct (lastIndex <=? i); intros E; injection E as <-;
      (split; [reflexivity | split; [intros _; cbn; lia | reflexivity]]).
  - destruct (Chars.skipn_step input i ch rest Hs) as [Hch Hs'].
    assert (Hlt : i < List.length input)
      by (apply nth_error_Some; congruence).
    destruct (i <? lastIndex) eqn:El.
    + apply Nat.ltb_lt in El. intros E.
      destruct (IH (S i) lastIndex out Hs' ltac:(lia)
                   ltac:(intros _; apply Hskip, El) E) as (H1 & H2 & H3).
      split; [exact H1|]. split; [lia|]. intros _.
      destruct (Nat.eq_dec (S i) lastIndex) as [Eq|Ne]; [|apply H3; lia].
      destruct (H2 ltac:(lia)) as [L _].
      rewrite <- Hs', Eq, (Hskip El) in L. lia.
    + apply Nat.ltb_ge in El.
      destruct (Nat.le_gt_cases 3 (lead LF (ch :: rest))) as [L|L].
      * rewrite (Runs.at_least_match input LF 3 i (ch :: rest) Hs L).
        cbn [endIndex].
        rewrite (proj2 (Nat.eqb_neq (i + lead LF (ch :: rest)) i)) by lia.
        unfold by_template. cbn [bind flat_map expand_item t_paragraph app].
        destruct (replace_from _ _ _ (S i) rest _) as [tl|] eqn:Et;
          cbn [bind]; [|discriminate].
        intros E. injection E as <-.
        destruct (Runs.lead_run input LF (ch :: rest) i Hs) as [_ Hst].
        destruct (IH (S i) _ tl Hs' ltac:(lia)
                     ltac:(intros _; apply stops_lead, Hst) Et)
          as (H1 & _ & H3).
        specialize (H3 ltac:(lia)).
        split; [|split; [intros _|intros; lia]].
        -- apply no_run_LF; [apply no_run_LF; [exact H1|lia]|].
           rewrite Runs.lead_cons_eq. lia.
        -- rewrite !Runs.lead_cons_eq, H3. lia.
      * rewrite (Runs.at_least_no_match input LF 3 i (ch :: rest) Hs L)
          by lia.
        destruct (replace_from _ _ _ (S i) rest lastIndex) as [tl|] eqn:Et;
          cbn [option_map]; [|discriminate].
        intros E. injection E as <-.
        destruct (IH (S i) lastIndex tl Hs' ltac:(lia) ltac:(intros; lia) Et)
          as (H1 & H2 & _).
        destruct (H2 ltac:(lia)) as [L1 L2].
        destruct (N.eq_dec ch LF) as [->|Hn].
        -- rewrite Runs.lead_cons_eq in L.
           split; [apply no_run_LF; [exact H1|lia]|].
           split; [intros _; rewrite !Runs.lead_cons_eq; lia | intros; lia].
        -- split; [apply no_run_other; assumption|].
           split; [intros _; rewrite !Runs.lead_cons_ne by exact Hn; lia
                  | intros; lia].
Qed.

End Input.

Lemma newlines_pass (s out : jsstring) :
  replaceAll re_newlines (by_template t_paragraph) s = Some out ->
  has_run LF 3 out = false.
Proof.
  intros E.
  apply (newlines_from s s 0 0 out eq_refl ltac:(lia) ltac:(intros; lia) E).
Qed.

End Newlines.

(** X4: the output never has three newlines in a row. *)
Theorem output_has_no_triple_newline (t out : jsstring) :
  markdownToHuman t = Some out -> has_run LF 3 out = false.
Proof.
  intros E.
  destruct (Pipeline.markdownToHuman_inv t out E) as [[_ ->]|(l & El & ->)];
    [reflexivity|].
  rewrite Newlines.body_before_newlines, Pipeline.run_app in El.
  destruct (run before_newlines _) as [l1|]; cbn [bind] in El; [|discriminate].
  cbn [run] in El. unfold pass, assign_cleaned in El.
  destruct (replaceAll re_newlines _ (cleaned l1)) as [s2|] eqn:E2;
    cbn [bind] in El; [|discriminate].
  injection El as <-. cbn [cleaned].
  apply Newlines.newlines_pass in E2.
  destruct (Trim.trim_middle s2) as (a & b & Es & _).
  rewrite Es in E2. exact (Runs.has_run_middle LF 3 a (trim s2) b E2).
Qed.

Lemma output_has_no_triple_newline_witness :
  markdownToHuman (str "a" ++ [LF; LF; LF; LF] ++ str "b")
    = Some (str "a" ++ [LF; LF] ++ str "b") /\
  has_run LF 3 (str "a" ++ [LF; LF] ++ str "b") = false.
Proof.
  assert (E : markdownToHuman (str "a" ++ [LF; LF; LF; LF] ++ str "b")
              = Some (str "a" ++ [LF; LF] ++ str "b"))
    by (vm_compute; reflexivity).
  split; [exact E | exact (output_has_no_triple_newline _ _ E)].
Defined.

(** ** Text without markup *)

Module Plain.

Lemma assign_cleaned_id (s : jsstring) (f : jsstring -> option jsstring) :
  f s = Some s -> stmt_id_on s (assign_cleaned f).
Proof.
  intros H [t c] E. cbn [cleaned] in E. subst c.
  unfold assign_cleaned. cbn [cleaned text]. rewrite H. reflexivity.
Qed.

Lemma run_id (s : jsstring) (ss : list stmt) :
  Forall (stmt_id_on s) ss -> stmt_id_on s (run ss).
Proof.
  induction 1 as [|st ss Hst _ IH]; intros l E; cbn [run]; [reflexivity|].
  rewrite (Hst l E). cbn [bind]. exact (IH l E).
Qed.

Ltac digit H := unfold markup; rewrite H; apply orb_true_r.

Ltac needs :=
  lazymatch goal with
  | |- _ \/ _ => solve [left; needs | right; needs]
  | |- _ /\ _ => split; needs
  | |- 0 < _ => lia
  | |- _ <> _ => discriminate
  | |- _ = true => reflexivity
  | |- forall ch, _ -> _ =>
    let H := fresh in intros ? H; first [digit H | Blank.one_of H]
  | |- _ => fail
  end.

Section Text.

Variable s : jsstring.
Hypothesis no_markup : Forall (fun ch => markup ch = false) s.
Hypothesis no_spaces : has_run SP 2 s = false.
Hypothesis no_newlines : has_run LF 3 s = false.

Lemma markup_absent (ch : char) : In ch s -> markup ch = false.
Proof. rewrite Forall_forall in no_markup. apply no_markup. Qed.

Lemma pass_without_markup (r : regex) (rep : replacer) :
  requires markup r -> stmt_id_on s (assign_cleaned (replaceAll r rep)).
Proof.
  intros Hr. apply assign_cleaned_id.
  exact (NoMatch.replaceAll_requires markup r rep s Hr markup_absent).
Qed.

Lemma pass_spaces : stmt_id_on s (pass re_spaces t_space).
Proof.
  apply assign_cleaned_id.
  exact (Runs.at_least_absent s SP 2 (by_template t_space) no_spaces).
Qed.

Lemma pass_newlines : stmt_id_on s (pass re_newlines t_paragraph).
Proof.
  apply assign_cleaned_id.
  exact (Runs.at_least_absent s LF 3 (by_template t_paragraph) no_newlines).
Qed.

Lemma body_stmts_id : Forall (stmt_id_on s) body.
Proof.
  unfold body, pass_link, pass_image, pass_code, pass_fence.
  repeat (apply Forall_cons;
          [first [ apply pass_spaces
                 | apply pass_newlines
                 | apply pass_without_markup;
                   cbn -[markup in_range Nat.ltb Nat.leb]; needs ]|]).
  apply Forall_nil.
Qed.

Lemma body_id : stmt_id_on s (run body).
Proof. apply run_id, body_stmts_id. Qed.

(** The same for the statements from the [n]-th on. *)
Lemma body_tail_id (n : nat) : stmt_id_on s (run (skipn n body)).
Proof.
  apply run_id. pose proof body_stmts_id as H.
  rewrite <- (firstn_skipn n body) in H.
  apply Forall_app in H as [_ H]. exact H.
Qed.

End Text.

End Plain.

(** X5: a text without markup characters, without two spaces in a row
    and without three newlines in a row is returned as it is, trimmed. *)
Theorem plain_text_is_only_trimmed (s : jsstring) :
  Forall (fun ch => markup ch = false) s ->
  has_run SP 2 s = false ->
  has_run LF 3 s = false ->
  markdownToHuman s = Some (trim s).
Proof.
  intros H1 H2 H3. unfold markdownToHuman, markdownToHuman_locals.
  destruct s as [|ch s]; [reflexivity|].
  rewrite (Plain.body_id (ch :: s) H1 H2 H3 (mkLocals (ch :: s) (ch :: s))
             eq_refl).
  reflexivity.
Qed.

Lemma plain_text_is_only_trimmed_witness :
  Forall (fun ch => markup ch = false) (str " Hello, world! ") /\
  has_run SP 2 (str " Hello, world! ") = false /\
  has_run LF 3 (str " Hello, world! ") = false /\
  markdownToHuman (str " Hello, world! ") = Some (trim (str " Hello, world! ")).
Proof.
  assert (H1 : Forall (fun ch => markup ch = false) (str " Hello, world! "))
    by (repeat constructor).
  split; [exact H1|]. split; [reflexivity|]. split; [reflexivity|].
  exact (plain_text_is_only_trimmed _ H1 eq_refl eq_refl).
Defined.

(** * Further properties of the statistics *)

(** ** Signs *)

Module Sign.

Local Open Scope Z_scope.

Lemma iter_pos_inv {A : Type} (P : A -> Prop) (f : A -> A) :
  (forall x, P x -> P (f x)) ->
  forall n x, P x -> P (iter_pos f n x).
Proof.
  intros Hf. induction n as [n IH|n IH|]; intros x Hx; cbn [iter_pos]; auto.
Qed.

Lemma shr_1_nonneg (mrs : shr_record) :
  0 <= shr_m mrs -> 0 <= shr_m (shr_1 mrs).
Proof.
  destruct mrs as [m r s]. cbn [shr_m]. intros H.
  destruct m as [|[p|p|]|p]; cbn; lia.
Qed.

Lemma shr_nonneg (mrs : shr_record) (e n : Z) :
  0 <= shr_m mrs -> 0 <= shr_m (fst (shr mrs e n)).
Proof.
  intros H. destruct n as [|p|p]; cbn [shr fst]; try exact H.
  apply iter_pos_inv; [exact shr_1_nonneg | exact H].
Qed.

Lemma shr_fexp_nonneg (m e : Z) (l : location) :
  0 <= m -> 0 <= shr_m (fst (shr_fexp prec emax m e l)).
Proof.
  intros H. unfold shr_fexp. apply shr_nonneg.
  destruct l as [|[| |]]; exact H.
Qed.

Lemma round_nonneg (m : Z) (l : location) :
  0 <= m -> 0 <= round_nearest_even m l.
Proof.
  intros H. destruct l as [|[| |]]; cbn [round_nearest_even]; try lia.
  destruct (Z.even m); lia.
Qed.

(** Rounding keeps the sign and never gives NaN. *)
Lemma round_aux_sign (sx : bool) (mx ex : Z) (lx : location) :
  0 <= mx -> has_sign sx (binary_round_aux prec emax sx mx ex lx).
Proof.
  intros H. unfold binary_round_aux.
  pose proof (shr_fexp_nonneg mx ex lx H) as H1.
  destruct (shr_fexp prec emax mx ex lx) as [mrs' e']. cbn [fst] in H1.
  pose proof (shr_fexp_nonneg _ e' loc_Exact
                (round_nonneg _ (loc_of_shr_record mrs') H1)) as H2.
  destruct (shr_fexp prec emax _ e' loc_Exact) as [mrs'' e''].
  cbn [fst] in H2.
  destruct (shr_m mrs'') as [|p|p]; [exact I| |lia].
  destruct (e'' <=? emax - prec); reflexivity.
Qed.

Lemma round_sign (sx : bool) (m : positive) (e : Z) :
  has_sign sx (binary_round prec emax sx m e).
Proof.
  unfold binary_round. destruct (shl_align m e _) as [mz ez].
  apply round_aux_sign. lia.
Qed.

Lemma normalize_sign (z e : Z) :
  (0 <= z -> has_sign false (binary_normalize prec emax z e false)) /\
  (z <= 0 -> has_sign true (binary_normalize prec emax z e false)).
Proof.
  destruct z as [|p|p]; cbn [binary_normalize]; split; intros H;
    try exact I; try lia; apply round_sign.
Qed.

Lemma mul_sign (s : bool) (x : Number) (my : positive) (ey : Z) :
  has_sign s x -> has_sign s (mul x (S754_finite false my ey)).
Proof.
  destruct x as [sx|sx| |sx mx ex]; cbn [has_sign mul SFmul];
    try (intros H; exact H); try (intros ->; apply xorb_false_r).
  intros ->. rewrite xorb_false_r. apply round_aux_sign. lia.
Qed.

Lemma div_core_nonneg (m1 m2 : positive) (e1 e2 : Z) :
  0 <= fst (fst (SFdiv_core_binary prec emax (Zpos m1) e1 (Zpos m2) e2)).
Proof.
  unfold SFdiv_core_binary.
  set (s := _ - _ - _).
  set (m' := match s with Zpos _ => _ | Z0 => _ | Zneg _ => _ end).
  assert (Hm : 0 <= m').
  { unfold m'. destruct s; try lia. apply Z.shiftl_nonneg. lia. }
  pose proof (Z_div_mod m' (Zpos m2) ltac:(lia)) as H.
  destruct (Z.div_eucl m' (Zpos m2)) as [q r]. cbn [fst]. nia.
Qed.

Lemma div_sign (s : bool) (x : Number) (my : positive) (ey : Z) :
  has_sign s x -> has_sign s (div x (S754_finite false my ey)).
Proof.
  destruct x as [sx|sx| |sx mx ex]; cbn [has_sign div SFdiv];
    try (intros H; exact H); try (intros ->; apply xorb_false_r).
  intros ->. rewrite xorb_false_r.
  pose proof (div_core_nonneg mx my ex ey) as H.
  destruct (SFdiv_core_binary _ _ _ _ _ _) as [[mz ez] lz]. cbn [fst] in H.
  apply round_aux_sign, H.
Qed.

Lemma of_Z_sign (z : Z) :
  (0 <= z -> has_sign false (of_Z z)) /\ (z <= 0 -> has_sign true (of_Z z)).
Proof. apply normalize_sign. Qed.

Lemma Math_round_sign (s : bool) (x : Number) :
  has_sign s x -> has_sign s (Math_round x).
Proof.
  destruct x as [sx|sx| |sx mx [|p|p]]; cbn [has_sign Math_round];
    try (intros H; exact H).
  intros ->.
  set (d := Z.pow_pos 2 p).
  assert (Hd : 0 < d) by (unfold d; rewrite Z.pow_pos_fold; lia).
  set (k := (2 * cond_Zopp s (Zpos mx) + d) / (2 * d)).
  destruct s; cbn [cond_Zopp] in k.
  - assert (Hk : k <= 0).
    { unfold k. apply Z.lt_succ_r, Z.div_lt_upper_bound; lia. }
    destruct k as [|q|q] eqn:E; cbn [integral]; [exact I|lia|].
    apply (proj2 (of_Z_sign (Zneg q))). lia.
  - assert (Hk : 0 <= k) by (unfold k; apply Z.div_pos; lia).
    destruct k as [|q|q] eqn:E; cbn [integral]; [exact I| |lia].
    apply (proj1 (of_Z_sign (Zpos q))). lia.
Qed.

(** *** The difference of two lengths *)

Lemma iter_xO_value (k m : positive) :
  Zpos (Pos.iter xO m k) = Zpos m * 2 ^ Zpos k.
Proof.
  induction k using Pos.peano_ind.
  - cbn [Pos.iter]. lia.
  - rewrite Pos.iter_succ, Pos2Z.inj_succ, Z.pow_succ_r by lia.
    rewrite Pos2Z.inj_xO, IHk. lia.
Qed.

Lemma shl_align_value (m : positive) (e e' : Z) :
  e' <= e -> Zpos (fst (shl_align m e e')) = Zpos m * 2 ^ (e - e').
Proof.
  intros H. unfold shl_align.
  destruct (e' - e) as [|d|d] eqn:E; cbn [fst]; try lia.
  - replace (e - e') with 0 by lia. lia.
  - rewrite iter_xO_value. f_equal. f_equal. lia.
Qed.

Lemma of_length_value (n : nat) :
  (0 < n)%nat ->
  exists m e,
    of_length n = S754_finite false m e /\ e <= 0 /\
    Zpos m = Z.of_nat n * 2 ^ (- e).
Proof.
  intros Hn. unfold of_length.
  destruct (Z.of_nat n) as [|p|p] eqn:E; try lia.
  set (e' := fexp prec emax (Zpos (digits2_pos p))).
  destruct (Z.le_gt_cases e' 0) as [L|L].
  - pose proof (shl_align_value p 0 e' L) as V.
    unfold shl_align in *.
    destruct (e' - 0) as [|d|d] eqn:D; cbn [fst] in V.
    + exists p, 0. repeat split; lia.
    + lia.
    + exists (Pos.iter xO p d), e'. repeat split; [lia|].
      rewrite V. replace (0 - e') with (- e') by lia. reflexivity.
  - unfold shl_align. destruct (e' - 0) as [|d|d] eqn:D; try lia.
    exists p, 0. repeat split; lia.
Qed.

Lemma sub_lengths_sign (o c : nat) :
  ((o <= c)%nat -> has_sign true (sub (of_length o) (of_length c))) /\
  ((c <= o)%nat -> has_sign false (sub (of_length o) (of_length c))).
Proof.
  destruct o as [|o]; destruct c as [|c].
  - split; intros _; exact I.
  - destruct (of_length_value (S c) ltac:(lia)) as (m & e & -> & _).
    split; intros H; [reflexivity | lia].
  - destruct (of_length_value (S o) ltac:(lia)) as (m & e & -> & _).
    split; intros H; [lia | reflexivity].
  - destruct (of_length_value (S o) ltac:(lia)) as (mo & eo & -> & Ho & Vo).
    destruct (of_length_value (S c) ltac:(lia)) as (mc & ec & -> & Hc & Vc).
    cbn [sub SFsub cond_Zopp].
    set (ez := Z.min eo ec).
    rewrite (shl_align_value mo eo ez) by (unfold ez; lia).
    rewrite (shl_align_value mc ec ez) by (unfold ez; lia).
    rewrite Vo, Vc, <- !Z.mul_assoc, <- !Z.pow_add_r by (unfold ez; lia).
    replace (- eo + (eo - ez)) with (- ez) by lia.
    replace (- ec + (ec - ez)) with (- ez) by lia.
    assert (0 < 2 ^ (- ez)) by (apply Z.pow_pos_nonneg; unfold ez; lia).
    split; intros H'; apply normalize_sign; nia.
Qed.

(** *** The percentage *)

Lemma of_Z_finite (z : Z) :
  z = 100 \/ z = 10 -> exists m e, of_Z z = S754_finite false m e.
Proof. intros [->| ->]; vm_compute; eauto. Qed.

Lemma reduction_sign (s : bool) (o c : nat) :
  has_sign s (sub (of_length o) (of_length c)) ->
  has_sign s (reduction (of_length o) (of_length c)).
Proof.
  intros H. unfold reduction.
  destruct (gt (of_length o) Zero) eqn:G; [|exact I].
  destruct o as [|o]; [discriminate G|].
  destruct (of_length_value (S o) ltac:(lia)) as (m & e & E & _).
  destruct (of_Z_finite 100 ltac:(auto)) as (m1 & e1 & ->).
  rewrite E in *. apply mul_sign, div_sign, H.
Qed.

Lemma percent_sign (s : bool) (original cleaned : jsstring) :
  has_sign s (sub (of_length (List.length original))
                  (of_length (List.length cleaned))) ->
  has_sign s (reductionPercent (getStats original cleaned)).
Proof.
  intros H. unfold getStats. cbn [reductionPercent].
  destruct (of_Z_finite 10 ltac:(auto)) as (m & e & ->).
  apply div_sign, Math_round_sign, mul_sign, reduction_sign, H.
Qed.

Lemma not_positive (x : Number) : has_sign true x -> gt x Zero = false.
Proof. destruct x as [s|s| |s m e]; cbn; intros H; subst; easy. Qed.

Lemma not_negative (x : Number) : has_sign false x -> gt Zero x = false.
Proof. destruct x as [s|s| |s m e]; cbn; intros H; subst; easy. Qed.

End Sign.

(** X6: the reduction badge is rendered only when the cleaned text is
    strictly shorter than the original. *)
Theorem badge_only_when_shorter (original cleaned : jsstring) :
  show_badge (getStats original cleaned) = true ->
  List.length cleaned < List.length original.
Proof.
  intros H.
  destruct (Nat.le_gt_cases (List.length original) (List.length cleaned))
    as [L|L]; [|exact L].
  unfold show_badge in H.
  rewrite (Sign.not_positive _
             (Sign.percent_sign true original cleaned
                (proj1 (Sign.sub_lengths_sign _ _) L))) in H.
  discriminate H.
Qed.

Lemma badge_only_when_shorter_witness :
  show_badge (getStats (blank 3) (blank 2)) = true /\
  List.length (blank 2) < List.length (blank 3).
Proof.
  assert (H : show_badge (getStats (blank 3) (blank 2)) = true)
    by (vm_compute; reflexivity).
  split; [exact H | exact (badge_only_when_shorter _ _ H)].
Defined.

(** X7: when the cleaned text is not longer than the original, the
    reduction is neither negative nor NaN. *)
Theorem reduction_not_negative (original cleaned : jsstring) :
  List.length cleaned <= List.length original ->
  has_sign false (reductionPercent (getStats original cleaned)) /\
  gt Zero (reductionPercent (getStats original cleaned)) = false.
Proof.
  intros L.
  pose proof (Sign.percent_sign false original cleaned
                (proj2 (Sign.sub_lengths_sign _ _) L)) as H.
  split; [exact H | exact (Sign.not_negative _ H)].
Qed.

Lemma reduction_not_negative_witness :
  List.length (blank 2) <= List.length (blank 3) /\
  has_sign false (reductionPercent (getStats (blank 3) (blank 2))) /\
  gt Zero (reductionPercent (getStats (blank 3) (blank 2))) = false.
Proof.
  assert (L : List.length (blank 2) <= List.length (blank 3))
    by (vm_compute; lia).
  split; [exact L | exact (reduction_not_negative _ _ L)].
Defined.

(** ** Everything removed *)

Module Full.

Local Open Scope Z_scope.

Lemma div_eucl_mul (a b : Z) : 0 < b -> Z.div_eucl (b * a) b = (a, 0).
Proof.
  intros Hb.
  destruct (Z.div_eucl (b * a) b) as [q r] eqn:E.
  assert (Hq : q = b * a / b) by (unfold Z.div; rewrite E; reflexivity).
  assert (Hr : r = (b * a) mod b) by (unfold Z.modulo; rewrite E; reflexivity).
  rewrite Z.mul_comm, Z.div_mul in Hq by lia.
  rewrite Z.mul_comm, Z.mod_mul in Hr by lia.
  congruence.
Qed.

(** A finite Number divided by itself is 1. *)
Lemma div_self (m : positive) (e : Z) :
  div (S754_finite false m e) (S754_finite false m e) = of_Z 1.
Proof.
  unfold div, SFdiv, SFdiv_core_binary.
  rewrite !Z.sub_diag.
  change (Z.min (fexp prec emax 0) 0) with (-53).
  change (0 - -53) with 53.
  cbv iota. rewrite Z.shiftl_mul_pow2 by lia.
  rewrite (div_eucl_mul (2 ^ 53) (Zpos m)) by lia.
  assert (L : new_location (Zpos m) 0 = loc_Exact).
  { unfold new_location, new_location_even, new_location_odd.
    destruct (Z.even (Zpos m)); reflexivity. }
  cbv zeta iota beta. rewrite L. vm_compute. reflexivity.
Qed.

Lemma percent_of_all :
  div (Math_round (mul (mul (of_Z 1) (of_Z 100)) (of_Z 10))) (of_Z 10)
  = of_Z 100.
Proof. vm_compute. reflexivity. Qed.

Lemma getStats_all_removed (original : jsstring) :
  original <> [] -> reductionPercent (getStats original []) = of_Z 100.
Proof.
  intros Hne. unfold getStats. cbn [reductionPercent List.length].
  destruct (StatsFacts.of_length_pos (List.length original)) as (m & e & E).
  { destruct original; [congruence | discriminate]. }
  rewrite E, StatsFacts.of_length_0. unfold reduction.
  change (gt (S754_finite false m e) Zero) with true. cbv iota.
  change (sub (S754_finite false m e) Zero) with (S754_finite false m e).
  rewrite div_self. exact percent_of_all.
Qed.

End Full.

(** X8: when the cleaned text is empty and the original is not, the
    reduction is exactly 100. *)
Theorem reduction_of_empty_output (original : jsstring) :
  original <> [] ->
  reductionPercent (getStats original []) = of_Z 100 /\
  show_badge (getStats original []) = true.
Proof.
  intros Hne. unfold show_badge.
  rewrite (Full.getStats_all_removed original Hne).
  split; [reflexivity | vm_compute; reflexivity].
Qed.

Lemma reduction_of_empty_output_witness :
  blank 3 <> [] /\
  reductionPercent (getStats (blank 3) []) = of_Z 100 /\
  show_badge (getStats (blank 3) []) = true.
Proof.
  assert (H : blank 3 <> []) by discriminate.
  split; [exact H | exact (reduction_of_empty_output _ H)].
Defined.

(** X9: for an input that is not empty and holds white space only, the
    statistics the caller derives after the conversion show a reduction
    of 100. *)
Theorem blank_input_statistics (inputMarkdown : jsstring) :
  inputMarkdown <> [] -> spaces inputMarkdown ->
  exists stats,
    converted_stats inputMarkdown = Some stats /\
    reductionPercent stats = of_Z 100 /\
    show_badge stats = true.
Proof.
  intros Hne Hs. unfold converted_stats.
  rewrite (Blank.markdownToHuman_spaces inputMarkdown Hs). cbn [option_map].
  eexists. split; [reflexivity|].
  unfold show_badge. rewrite (Full.getStats_all_removed inputMarkdown Hne).
  split; [reflexivity | vm_compute; reflexivity].
Qed.

Lemma blank_input_statistics_witness :
  blank_example <> [] /\ spaces blank_example /\
  exists stats,
    converted_stats blank_example = Some stats /\
    reductionPercent stats = of_Z 100 /\
    show_badge stats = true.
Proof.
  assert (H1 : blank_example <> []) by discriminate.
  assert (H2 : spaces blank_example) by (repeat constructor).
  split; [exact H1|]. split; [exact H2|].
  exact (blank_input_statistics _ H1 H2).
Defined.

(** ** Headings *)

Module Heading.

Section Input.

Variable input : jsstring.

(** *** A pattern that needs a character absent from some index on *)

Section Absent.

Variable q : char -> bool.

Lemma absent_later (e e' : nat) :
  e <= e' -> absent_from input q e -> absent_from input q e'.
Proof. intros L H j ch Hj. apply H. lia. Qed.

Lemma requires_unmatched_from (r : regex) :
  requires q r ->
  forall x c, absent_from input q (endIndex x) ->
              unmatched (compile input r x c).
Proof.
  induction r as [ |ch|p| | |r1 IH1 r2 IH2|r1 IH1 r2 IH2|n r IH|n
                  |greedy min max r IH];
    cbn [requires]; intros Hq x c Ha; cbn [compile]; try contradiction.
  - destruct (nth_error input (endIndex x)) as [ch'|] eqn:E;
      [|apply NoMatch.unmatched_Failure].
    destruct (ch' =? ch)%N eqn:Ec; [|apply NoMatch.unmatched_Failure].
    apply N.eqb_eq in Ec. subst ch'.
    apply (Ha _ _ (le_n _)) in E. congruence.
  - destruct (nth_error input (endIndex x)) as [ch'|] eqn:E;
      [|apply NoMatch.unmatched_Failure].
    destruct (p ch') eqn:Ep; [|apply NoMatch.unmatched_Failure].
    apply Hq in Ep. apply (Ha _ _ (le_n _)) in E. congruence.
  - destruct Hq as [H1|H2]; [apply IH1; assumption|].
    intros z Hz. apply Trace.compile_forward in Hz as (y & Hy & L).
    exact (IH2 H2 y c (absent_later _ _ L Ha) z Hy).
  - destruct Hq as [H1 H2].
    apply NoMatch.orElse_unmatched; [apply IH1 | apply IH2]; assumption.
  - apply IH; assumption.
  - destruct Hq as (Hmin & Hmax & Hr).
    unfold repeat_fuel. cbn [RepeatMatcher].
    destruct max as [[|max]|]; [congruence| |];
      (destruct min as [|min]; [lia|]; cbn [Nat.eqb negb];
       apply IH; [exact Hr | exact Ha]).
Qed.

Lemma requires_Failure_from (r : regex) (e i : nat) :
  requires q r -> absent_from input q e -> e <= i ->
  i <= List.length input -> match_at input r i = Failure.
Proof.
  intros Hq Ha Hi Hlen.
  pose proof (requires_unmatched_from r Hq (mkState i [])
                (fun y => Matched y) (absent_later e i Hi Ha)) as U.
  pose proof (Fuel.match_at_fuel input r i Hlen) as F.
  unfold match_at in *.
  destruct (compile input r _ _) as [y| |];
    [destruct (U y); reflexivity | reflexivity | congruence].
Qed.

End Absent.

(** After the last match a replacement copies the rest. *)
Lemma replace_from_rest (r : regex) (rep : replacer) (lastIndex : nat) :
  (forall j, lastIndex <= j -> j <= List.length input ->
             match_at input r j = Failure) ->
  forall rest i,
    i + List.length rest = List.length input ->
    replace_from r rep input i rest lastIndex
    = Some (skipn (lastIndex - i) rest).
Proof.
  intros Hno. induction rest as [|ch rest IH]; intros i Hi;
    cbn [replace_from].
  - rewrite skipn_nil. destruct (lastIndex <=? i) eqn:E; [|reflexivity].
    apply Nat.leb_le in E. rewrite Hno by (cbn in Hi; lia). reflexivity.
  - cbn [List.length] in Hi. destruct (i <? lastIndex) eqn:E.
    + apply Nat.ltb_lt in E. rewrite IH by lia.
      replace (lastIndex - i) with (S (lastIndex - S i)) by lia.
      reflexivity.
    + apply Nat.ltb_ge in E. rewrite Hno by lia. rewrite IH by lia.
      replace (lastIndex - S i) with 0 by lia.
      replace (lastIndex - i) with 0 by lia. reflexivity.
Qed.

(** The run of a class read from index [i] on. *)
Lemma lead_by_run (p : char -> bool) (rest : jsstring) :
  forall i,
    skipn i input = rest ->
    run_of input p i (lead_by p rest) /\
    stops input p (i + lead_by p rest).
Proof.
  induction rest as [|ch rest IH]; intros i Hs.
  - cbn [lead_by]. rewrite Nat.add_0_r. split; [intros k Hk; lia|].
    unfold stops. rewrite <- hd_error_skipn, Hs. exact I.
  - destruct (Chars.skipn_step input i ch rest Hs) as [Hch Hs'].
    cbn [lead_by]. destruct (p ch) eqn:E.
    + destruct (IH (S i) Hs') as [Hr Hst]. split.
      * intros k Hk. destruct k as [|k].
        -- rewrite Nat.add_0_r. eauto.
        -- replace (i + S k) with (S i + k) by lia. apply Hr. lia.
      * replace (i + S (lead_by p rest)) with (S i + lead_by p rest) by lia.
        exact Hst.
    + rewrite Nat.add_0_r. split; [intros k Hk; lia|].
      unfold stops. rewrite Hch. exact E.
Qed.

Lemma single_CharSet (p : char -> bool) :
  single input p (compile input (CharSet p)).
Proof. intros x c. reflexivity. Qed.

End Input.

(** One match at the start and none after it. *)
Lemma replaceAll_first (r : regex) (rep : replacer) (input : jsstring)
  (st : MatchState) (o : jsstring) :
  match_at input r 0 = Matched st -> 0 < endIndex st ->
  (forall j, endIndex st <= j -> j <= List.length input ->
             match_at input r j = Failure) ->
  rep input 0 st = Some o ->
  replaceAll r rep input = Some (o ++ skipn (endIndex st) input).
Proof.
  intros Hm He Hno Ho. unfold replaceAll.
  pose proof (replace_from_rest input r rep (endIndex st) Hno) as R.
  destruct input as [|ch rest]; cbn [replace_from Nat.ltb Nat.leb].
  - rewrite Hm, Ho, skipn_nil, app_nil_r. reflexivity.
  - rewrite Hm, Ho. cbn [bind].
    rewrite (proj2 (Nat.eqb_neq (endIndex st) 0)) by lia.
    rewrite (R rest 1) by reflexivity. cbn [bind].
    replace (endIndex st) with (S (endIndex st - 1)) at 2 by lia.
    reflexivity.
Qed.

Lemma skipn_lead_by (s : jsstring) :
  skipn (lead_by is_space s) s = trimStart s.
Proof.
  induction s as [|ch s IH]; [reflexivity|].
  cbn [lead_by trimStart]. destruct (is_space ch); [exact IH | reflexivity].
Qed.

Lemma trimStart_idem (s : jsstring) : trimStart (trimStart s) = trimStart s.
Proof.
  destruct (trimStart s) as [|a l] eqn:E; [reflexivity|].
  cbn [trimStart].
  rewrite (Trim.trimStart_head s a) by (rewrite E; reflexivity).
  reflexivity.
Qed.

Section Line.

Variable k : nat.
Variable title : jsstring.
Hypothesis some_hash : 0 < k.
Hypothesis no_markup : Forall (fun ch => markup ch = false) title.

Local Abbreviation input := (heading k title).
Local Abbreviation n := (lead_by is_space (SP :: title)).

Lemma skipn_hashes : skipn k input = SP :: title.
Proof.
  unfold heading. rewrite skipn_app, repeat_length, Nat.sub_diag.
  rewrite skipn_all2 by (rewrite repeat_length; lia). reflexivity.
Qed.

Lemma nth_hash (j : nat) : j < k -> nth_error input j = Some HASH.
Proof.
  intros H. unfold heading.
  rewrite nth_error_app1 by (rewrite repeat_length; exact H).
  apply nth_error_repeat. exact H.
Qed.

Lemma length_heading : List.length input = k + S (List.length title).
Proof. unfold heading. rewrite length_app, repeat_length. reflexivity. Qed.

Lemma heading_match :
  match_at input re_heading 0 = Matched (mkState (k + n) []).
Proof.
  destruct (lead_by_run input is_space (SP :: title) k skipn_hashes)
    as [Hrun Hst].
  assert (Hlen : k + n <= List.length input).
  { destruct (Runs.run_in_input input _ _ _ Hrun) as [L|E]; [exact L|].
    cbn [lead_by] in E. change (is_space SP) with true in E. discriminate. }
  unfold match_at, re_heading, cat, Star, Plus, Space, c.
  cbn [compile groups endIndex captures].
  apply (Runs.repeat_longest input is_space _ (single_CharSet input is_space)
           0 0); [lia|unfold repeat_fuel; lia|intros j Hj; lia| |].
  { unfold stops. cbn [Nat.add]. rewrite (nth_hash 0 some_hash).
    reflexivity. }
  cbn [compile groups endIndex captures Nat.add].
  apply (Runs.repeat_longest input (N.eqb (chr "#")) _
           (Runs.single_Char input (chr "#")) k 1);
    [lia|unfold repeat_fuel; cbn [endIndex]; lia| | |].
  { intros j Hj. cbn [Nat.add]. rewrite (nth_hash j Hj).
    exists HASH. split; reflexivity. }
  { unfold stops. cbn [Nat.add].
    rewrite <- hd_error_skipn, skipn_hashes. reflexivity. }
  cbn [compile groups endIndex captures Nat.add].
  apply (Runs.repeat_longest input is_space _ (single_CharSet input is_space)
           n 0);
    [lia|unfold repeat_fuel; cbn [endIndex]; lia|exact Hrun|exact Hst
    |reflexivity].
Qed.

Lemma heading_pass :
  replaceAll re_heading (by_template t_empty) input
  = Some (trimStart title).
Proof.
  assert (Hn : skipn (k + n) input = trimStart title).
  { rewrite Nat.add_comm, <- skipn_skipn, skipn_hashes.
    rewrite skipn_lead_by. cbn [trimStart].
    change (is_space SP) with true. reflexivity. }
  assert (Hlen : k + n <= List.length input).
  { destruct (lead_by_run input is_space (SP :: title) k skipn_hashes)
      as [Hrun _].
    destruct (Runs.run_in_input input _ _ _ Hrun) as [L|E]; [exact L|].
    cbn [lead_by] in E. change (is_space SP) with true in E. discriminate. }
  assert (Habs : absent_from input markup (k + n)).
  { intros j ch Hj Hch.
    assert (In ch (trimStart title)).
    { rewrite <- Hn. apply nth_error_In with (j - (k + n)).
      rewrite nth_error_skipn. replace (k + n + (j - (k + n))) with j by lia.
      exact Hch. }
    destruct (Trim.trimStart_suffix title) as (a & E & _).
    rewrite Forall_forall in no_markup. apply no_markup.
    rewrite E. apply in_or_app. right. assumption. }
  rewrite (replaceAll_first re_heading (by_template t_empty) input
             (mkState (k + n) []) [] heading_match);
    cbn [endIndex app]; [rewrite Hn; reflexivity | lia | | reflexivity].
  intros j Hj Hl.
  apply (requires_Failure_from input markup re_heading (k + n) j);
    [|exact Habs|exact Hj|exact Hl].
  cbn -[markup]. right. right. left. repeat split; try lia; discriminate.
Qed.

End Line.

End Heading.

(** X10: a heading line, that is one or more hash signs, a space and a
    title, followed by any text, all without further markup characters,
    double spaces or triple newlines, is converted to the trimmed title
    and text: only the marker goes. *)
Theorem heading_is_stripped (k : nat) (title : jsstring) :
  0 < k ->
  Forall (fun ch => markup ch = false) title ->
  has_run SP 2 title = false ->
  has_run LF 3 title = false ->
  markdownToHuman (heading k title) = Some (trim title).
Proof.
  intros Hk H1 H2 H3.
  destruct (Trim.trimStart_suffix title) as (a & E & _).
  assert (G1 : Forall (fun ch => markup ch = false) (trimStart title)).
  { rewrite E in H1. apply Forall_app in H1. apply H1. }
  assert (G2 : has_run SP 2 (trimStart title) = false).
  { apply (Runs.has_run_middle SP 2 a _ []).
    rewrite app_nil_r, <- E. exact H2. }
  assert (G3 : has_run LF 3 (trimStart title) = false).
  { apply (Runs.has_run_middle LF 3 a _ []).
    rewrite app_nil_r, <- E. exact H3. }
  unfold markdownToHuman, markdownToHuman_locals.
  destruct (heading k title) as [|ch rest] eqn:Eh.
  { pose proof (Heading.length_heading k title) as L.
    rewrite Eh in L. cbn in L. lia. }
  rewrite <- Eh.
  change body with (pass re_heading t_empty :: skipn 1 body).
  cbn [run]. unfold pass at 1, assign_cleaned at 1. cbn [cleaned text].
  rewrite (Heading.heading_pass k title Hk H1). cbn [bind].
  rewrite (Plain.body_tail_id (trimStart title) G1 G2 G3 1
             (mkLocals (heading k title) (trimStart title)) eq_refl).
  cbn [bind cleaned]. unfold trim. rewrite Heading.trimStart_idem.
  reflexivity.
Qed.

Lemma heading_is_stripped_witness :
  0 < 2 /\
  Forall (fun ch => markup ch = false) (str "Title") /\
  has_run SP 2 (str "Title") = false /\
  has_run LF 3 (str "Title") = false /\
  markdownToHuman (heading 2 (str "Title")) = Some (trim (str "Title")).
Proof.
  assert (H1 : Forall (fun ch => markup ch = false) (str "Title"))
    by (repeat constructor).
  split; [lia|]. split; [exact H1|]. split; [reflexivity|].
  split; [reflexivity|].
  exact (heading_is_stripped 2 (str "Title") ltac:(lia) H1 eq_refl eq_refl).
Defined.

(** ** Backticks *)

Module Backticks.

Lemma backticks_firstn_skipn (n : nat) (s : jsstring) :
  backticks s = backticks (firstn n s) + backticks (skipn n s).
Proof. rewrite <- Fence.backticks_app, firstn_skipn. reflexivity. Qed.

Lemma backticks_skipn (n : nat) (s : jsstring) :
  backticks (skipn n s) <= backticks s.
Proof. rewrite (backticks_firstn_skipn n s). lia. Qed.

Section Replace.

Variable r : regex.
Variable rep : replacer.
Variable input : jsstring.
Hypothesis rep_ok : no_more_backticks r rep input.

(** A replacement does not add backticks. *)
Lemma replace_from_backticks (rest : jsstring) :
  forall i lastIndex out,
    skipn i input = rest ->
    replace_from r rep input i rest lastIndex = Some out ->
    backticks out <= backticks (skipn (lastIndex - i) rest).
Proof.
  induction rest as [|ch rest IH]; intros i lastIndex out Hs;
    cbn [replace_from].
  - rewrite skipn_nil.
    assert (Hsub : forall e, substring input i e = []).
    { intros e. unfold substring. rewrite Hs. apply firstn_nil. }
    destruct (lastIndex <=? i); [|intros E; injection E as <-; reflexivity].
    destruct (match_at input r i) as [st| |] eqn:Em;
      [|intros E; injection E as <-; reflexivity|discriminate].
    intros E. pose proof (rep_ok i st out Em E) as H.
    rewrite Hsub in H. exact H.
  - destruct (Chars.skipn_step input i ch rest Hs) as [Hch Hs'].
    destruct (i <? lastIndex) eqn:El.
    + apply Nat.ltb_lt in El. intros E.
      pose proof (IH (S i) lastIndex out Hs' E) as H.
      replace (lastIndex - i) with (S (lastIndex - S i)) by lia. exact H.
    + apply Nat.ltb_ge in El. replace (lastIndex - i) with 0 by lia.
      cbn [skipn].
      destruct (match_at input r i) as [st| |] eqn:Em; [| |discriminate].
      * destruct (rep input i st) as [o|] eqn:Eo; cbn [bind]; [|discriminate].
        pose proof (rep_ok i st o Em Eo) as Ho.
        pose proof (Trace.match_at_forward input r i st Em) as Hf.
        unfold substring in Ho. rewrite Hs in Ho.
        destruct (endIndex st =? i) eqn:Ee.
        -- apply Nat.eqb_eq in Ee. rewrite Ee, Nat.sub_diag in Ho.
           destruct (replace_from r rep input (S i) rest (S i)) as [tl|] eqn:Et;
             cbn [option_map bind]; [|discriminate].
           intros E. injection E as <-.
           pose proof (IH (S i) (S i) tl Hs' Et) as H.
           rewrite Nat.sub_diag in H. cbn [skipn firstn] in *.
           rewrite Fence.backticks_app, !Fence.backticks_cons in *.
           change (backticks []) with 0 in Ho. lia.
        -- apply Nat.eqb_neq in Ee.
           destruct (replace_from r rep input (S i) rest (endIndex st))
             as [tl|] eqn:Et; cbn [bind]; [|discriminate].
           intros E. injection E as <-.
           pose proof (IH (S i) (endIndex st) tl Hs' Et) as H.
           rewrite Fence.backticks_app.
           rewrite (backticks_firstn_skipn (endIndex st - i) (ch :: rest)).
           replace (endIndex st - i) with (S (endIndex st - S i)) in * by lia.
           cbn [skipn]. lia.
      * destruct (replace_from r rep input (S i) rest lastIndex) as [tl|] eqn:Et;
          cbn [option_map]; [|discriminate].
        intros E. injection E as <-.
        pose proof (IH (S i) lastIndex tl Hs' Et) as H.
        replace (lastIndex - S i) with 0 in H by lia. cbn [skipn] in H.
        rewrite !Fence.backticks_cons. lia.
Qed.

End Replace.

Lemma replaceAll_backticks (r : regex) (rep : replacer) (s out : jsstring) :
  no_more_backticks r rep s ->
  replaceAll r rep s = Some out -> backticks out <= backticks s.
Proof.
  intros H E.
  exact (replace_from_backticks r rep s H s 0 0 out eq_refl E).
Qed.

(** A replacement string without [$n] and without a backtick. *)
Lemma constant_ok (r : regex) (t : template) (s : jsstring) :
  backticks (flat_map (expand_item [] (mkState 0 [])) t) = 0 ->
  (forall input st, flat_map (expand_item input st) t
                    = flat_map (expand_item [] (mkState 0 [])) t) ->
  no_more_backticks r (by_template t) s.
Proof.
  intros H0 Hc i st o _ E. unfold by_template in E. injection E as <-.
  rewrite Hc, H0. lia.
Qed.

(** The match of the escape pattern: a backslash and one character,
    which is captured. *)
Lemma escape_match (input : jsstring) (i : nat) (st : MatchState) :
  match_at input re_escape i = Matched st ->
  st = mkState (S (S i)) [(1, Some (S i, S (S i)))].
Proof.
  unfold match_at, re_escape, Dot. cbn [cat compile endIndex captures c].
  destruct (nth_error input i) as [a|]; [|discriminate].
  destruct (a =? chr "\")%N; [|discriminate].
  destruct (nth_error input (S i)) as [b|]; [|discriminate].
  destruct (negb (LineTerminator b)); [|discriminate].
  unfold set_capture. intros E. injection E as <-. reflexivity.
Qed.

Lemma escape_ok (s : jsstring) : no_more_backticks re_escape (by_template t_1) s.
Proof.
  intros i st o Em E. apply escape_match in Em. subst st.
  unfold by_template in E. injection E as <-.
  cbn [flat_map expand_item t_1 endIndex]. rewrite app_nil_r.
  unfold captured. cbn [captures capture Nat.eqb]. unfold substring.
  replace (S (S i) - S i) with 1 by lia.
  replace (S (S i) - i) with 2 by lia.
  destruct (skipn i s) as [|a l] eqn:Es.
  - change (S i) with (1 + i). rewrite <- skipn_skipn, Es. reflexivity.
  - change (S i) with (1 + i). rewrite <- skipn_skipn, Es. cbn [skipn].
    destruct l as [|b l]; cbn [firstn]; rewrite !Fence.backticks_cons; lia.
Qed.

Lemma pass_ok (r : regex) (t : template) :
  (forall s, no_more_backticks r (by_template t) s) ->
  stmt_keeps at_most_one (pass r t).
Proof.
  intros H. apply Pipeline.assign_cleaned_keeps. intros s out Hs E.
  pose proof (replaceAll_backticks r (by_template t) s out (H s) E).
  unfold at_most_one in *. lia.
Qed.

Lemma fence_ok : stmt_keeps at_most_one pass_fence.
Proof.
  apply Pipeline.assign_cleaned_keeps. intros s out Hs E.
  rewrite (Fence.rewrite_fences_id s Hs) in E. injection E as <-. exact Hs.
Qed.

Lemma after_code_ok : stmt_keeps at_most_one (run after_code).
Proof.
  apply Pipeline.run_keeps. unfold after_code, body. cbn [skipn].
  repeat (apply Forall_cons;
          [first [ apply fence_ok
                 | apply pass_ok; intros s;
                   first [ apply escape_ok
                         | apply constant_ok; [reflexivity|reflexivity] ] ]|]).
  apply Forall_nil.
Qed.

Lemma body_around_code : body = before_code ++ pass_code :: after_code.
Proof. reflexivity. Qed.

End Backticks.

(** X11: the output holds one backtick at most. *)
Theorem output_has_one_backtick_at_most (t out : jsstring) :
  markdownToHuman t = Some out -> backticks out <= 1.
Proof.
  intros E.
  destruct (Pipeline.markdownToHuman_inv t out E) as [[_ ->]|(l & El & ->)];
    [cbn; lia|].
  rewrite Backticks.body_around_code, Pipeline.run_app in El.
  destruct (run before_code _) as [l1|]; cbn [bind] in El; [|discriminate].
  cbn [run] in El. unfold pass_code at 1, assign_cleaned at 1 in El.
  destruct (rewrite_code (cleaned l1)) as [s2|] eqn:E2;
    cbn [bind] in El; [|discriminate].
  apply Fence.rewrite_code_backticks in E2.
  pose proof (Backticks.after_code_ok (mkLocals (text l1) s2) l E2 El) as H.
  unfold at_most_one in H.
  destruct (Trim.trim_middle (cleaned l)) as (a & b & Es & _).
  rewrite Es, !Fence.backticks_app in H. lia.
Qed.

Lemma output_has_one_backtick_at_most_witness :
  markdownToHuman (str "a `b` `c") = Some (str "a b `c") /\
  backticks (str "a b `c") <= 1.
Proof.
  assert (E : markdownToHuman (str "a `b` `c") = Some (str "a b `c"))
    by (vm_compute; reflexivity).
  split; [exact E | exact (output_has_one_backtick_at_most _ _ E)].
Defined.

(** * The toasts *)

Module Toasts.

Lemma expire_app (i : jsstring) (a b : list App.ToastMessage) :
  App.expire i (a ++ b) = App.expire i a ++ App.expire i b.
Proof. apply filter_app. Qed.

Lemma expire_others (i : jsstring) (prev : list App.ToastMessage) :
  Forall (fun t => App.id t <> i) prev -> App.expire i prev = prev.
Proof.
  induction 1 as [|t prev Ht _ IH]; [reflexivity|].
  unfold App.expire in *. cbn [filter]. unfold App.other_id at 1.
  destruct (list_eq_dec N.eq_dec (App.id t) i); [contradiction|].
  rewrite IH. reflexivity.
Qed.

Lemma expire_own (i tx : jsstring) (ty : App.ToastType) :
  App.expire i [App.mkToast i tx ty] = [].
Proof.
  unfold App.expire. cbn [filter]. unfold App.other_id. cbn [App.id].
  destruct (list_eq_dec N.eq_dec i i); [reflexivity | congruence].
Qed.

End Toasts.

(** X12: a toast shown under an identifier that no listed toast has is
    removed by its timer, and the list is then what it was before. *)
Theorem toast_round_trip (i tx : jsstring) (ty : App.ToastType)
  (prev : list App.ToastMessage) :
  Forall (fun t => App.id t <> i) prev ->
  App.expire i (App.show i tx ty prev) = prev.
Proof.
  intros H. unfold App.show.
  rewrite Toasts.expire_app, Toasts.expire_own, app_nil_r.
  exact (Toasts.expire_others i prev H).
Qed.

Lemma toast_round_trip_witness :
  Forall (fun t => App.id t <> str "2")
         [App.mkToast (str "1") (str "Cleared all text") App.info] /\
  App.expire (str "2")
    (App.show (str "2") (str "Generated sample markdown") App.success
       [App.mkToast (str "1") (str "Cleared all text") App.info])
  = [App.mkToast (str "1") (str "Cleared all text") App.info].
Proof.
  assert (H : Forall (fun t => App.id t <> str "2")
                [App.mkToast (str "1") (str "Cleared all text") App.info])
    by (repeat constructor; discriminate).
  split; [exact H | exact (toast_round_trip _ _ _ _ H)].
Defined.

(** ** Lazy repeats and backreferences *)

Module Lazy.

Lemma orElse_first (a : MatchResult) (b : unit -> MatchResult)
  (z : MatchState) :
  a = Matched z -> orElse a b = Matched z.
Proof. intros ->. reflexivity. Qed.

Section Input.

Variable input : jsstring.

Section Repeat.

Variable p : char -> bool.
Variable m : Matcher.
Hypothesis m_single : single input p m.

Lemma RepeatMatcher_lazy (fuel : nat) (x : MatchState) (c : Continuation) :
  RepeatMatcher m [] (S fuel) 0 None false x c
  = orElse (c x)
      (fun _ => m (mkState (endIndex x) (captures x))
         (fun y => if endIndex y =? endIndex x then Failure
                   else RepeatMatcher m [] fuel 0 None false y c)).
Proof. reflexivity. Qed.

(** A lazy repeat stops at the first index where the continuation
    accepts. *)
Lemma lazy_first (n : nat) :
  forall fuel e caps c z,
    n < fuel -> run_of input p e n ->
    (forall j, j < n -> c (mkState (e + j) caps) = Failure) ->
    c (mkState (e + n) caps) = Matched z ->
    RepeatMatcher m [] fuel 0 None false (mkState e caps) c = Matched z.
Proof.
  induction n as [|n IH]; intros fuel e caps c z Hf Hrun Hfail Hc;
    (destruct fuel as [|fuel]; [lia|]); rewrite RepeatMatcher_lazy.
  - rewrite Nat.add_0_r in Hc. rewrite Hc. reflexivity.
  - pose proof (Hfail 0 ltac:(lia)) as H0. rewrite Nat.add_0_r in H0.
    rewrite H0. cbn [orElse endIndex captures].
    destruct (Hrun 0 ltac:(lia)) as (ch & Hch & Hp).
    rewrite Nat.add_0_r in Hch.
    rewrite (Runs.single_step input p m m_single e caps _ ch Hch Hp).
    cbn [endIndex]. rewrite (proj2 (Nat.eqb_neq (S e) e)) by lia.
    apply IH; [lia| | |].
    + intros k Hk. replace (S e + k) with (e + S k) by lia. apply Hrun. lia.
    + intros j Hj. replace (S e + j) with (e + S j) by lia. apply Hfail. lia.
    + replace (S e + n) with (e + S n) by lia. exact Hc.
Qed.

End Repeat.

(** One literal character. *)
Lemma char_step (ch : char) (e : nat)
  (caps : list (nat * option CaptureRange)) (k : Continuation) :
  nth_error input e = Some ch ->
  compile input (Char ch) (mkState e caps) k = k (mkState (S e) caps).
Proof.
  intros H. cbn [compile endIndex captures]. rewrite H, N.eqb_refl.
  reflexivity.
Qed.

Lemma char_fail (ch : char) (e : nat)
  (caps : list (nat * option CaptureRange)) (k : Continuation) :
  (forall ch', nth_error input e = Some ch' -> ch' <> ch) ->
  compile input (Char ch) (mkState e caps) k = Failure.
Proof.
  intros H. cbn [compile endIndex captures].
  destruct (nth_error input e) as [ch'|]; [|reflexivity].
  rewrite (proj2 (N.eqb_neq ch' ch)) by (apply H; reflexivity).
  reflexivity.
Qed.

(** The comparison loop of a backreference. *)
Lemma same_range_true (len : nat) :
  forall from e, same_text input from e len ->
                 same_range input from e len = true.
Proof.
  induction len as [|len IH]; intros from e H; cbn [same_range];
    [reflexivity|].
  destruct (H 0 ltac:(lia)) as (ch & H1 & H2).
  rewrite Nat.add_0_r in H1, H2. rewrite H1, H2, N.eqb_refl.
  cbn [andb]. apply IH. intros k Hk.
  replace (S from + k) with (from + S k) by lia.
  replace (S e + k) with (e + S k) by lia. apply H. lia.
Qed.

Lemma backref_step (n from to e : nat)
  (caps : list (nat * option CaptureRange)) (k : Continuation) :
  capture n caps = Some (from, to) ->
  e + (to - from) <= List.length input ->
  same_text input from e (to - from) ->
  compile input (Backref n) (mkState e caps) k
  = k (mkState (e + (to - from)) caps).
Proof.
  intros Hc Hl Hs. cbn [compile endIndex captures]. rewrite Hc.
  rewrite (proj2 (Nat.leb_le _ _) Hl), (same_range_true _ _ _ Hs).
  reflexivity.
Qed.

Lemma backref_fail (n from to e : nat)
  (caps : list (nat * option CaptureRange)) (k : Continuation) (a b : char) :
  capture n caps = Some (from, to) -> from < to ->
  nth_error input from = Some a -> nth_error input e = Some b -> a <> b ->
  compile input (Backref n) (mkState e caps) k = Failure.
Proof.
  intros Hc Hl Ha Hb Hab. cbn [compile endIndex captures]. rewrite Hc.
  destruct (to - from) as [|len] eqn:E; [lia|].
  cbn [same_range]. rewrite Ha, Hb, (proj2 (N.eqb_neq a b) Hab).
  cbn [andb]. rewrite andb_false_r. reflexivity.
Qed.

End Input.

End Lazy.

(** ** Emphasis *)

Module Emphasis.

Lemma inline_markup (ch : char) : inline ch = true -> markup ch = false.
Proof.
  unfold inline. intros H. apply andb_prop in H as [H _].
  apply negb_true_iff in H. exact H.
Qed.

Lemma inline_Dot (ch : char) :
  inline ch = true -> negb (LineTerminator ch) = true.
Proof. unfold inline. intros H. apply andb_prop in H as [_ H]. exact H. Qed.

Lemma inline_not_LF (ch : char) : inline ch = true -> ch <> LF.
Proof. intros H ->. discriminate. Qed.

Lemma Forall_inline_markup (s : jsstring) :
  Forall (fun ch => inline ch = true) s ->
  Forall (fun ch => markup ch = false) s.
Proof. apply Forall_impl. exact inline_markup. Qed.

Lemma inline_no_newlines (s : jsstring) :
  Forall (fun ch => inline ch = true) s -> has_run LF 3 s = false.
Proof.
  induction 1 as [|ch s H _ IH]; [reflexivity|].
  apply Newlines.no_run_other; [exact IH | exact (inline_not_LF ch H)].
Qed.

Lemma compile_Seq (input : jsstring) (r1 r2 : regex) (x : MatchState)
  (k : Continuation) :
  compile input (Seq r1 r2) x k
  = compile input r1 x (fun y => compile input r2 y k).
Proof. reflexivity. Qed.

Lemma compile_Group (input : jsstring) (n : nat) (r : regex)
  (x : MatchState) (k : Continuation) :
  compile input (Group n r) x k
  = compile input r x (fun y =>
      k (mkState (endIndex y)
           (set_capture n (Some (endIndex x, endIndex y)) (captures y)))).
Proof. reflexivity. Qed.

Lemma compile_Alt (input : jsstring) (r1 r2 : regex) (x : MatchState)
  (k : Continuation) :
  compile input (Alt r1 r2) x k
  = orElse (compile input r1 x k) (fun _ => compile input r2 x k).
Proof. reflexivity. Qed.

Lemma compile_LazyStar (input : jsstring) (r : regex) (x : MatchState)
  (k : Continuation) :
  compile input (LazyStar r) x k
  = RepeatMatcher (compile input r) (groups r) (repeat_fuel input 0 x)
      0 None false x k.
Proof. reflexivity. Qed.

Section Shape.

Variable mk : char.
Variable k : nat.
Variable w : jsstring.

Local Abbreviation input := (emphasis mk k w).
Local Abbreviation n := (List.length w).

Lemma length_emphasis : List.length input = k + n + k.
Proof. unfold emphasis. rewrite !length_app, !repeat_length. lia. Qed.

Lemma nth_open (j : nat) : j < k -> nth_error input j = Some mk.
Proof.
  intros H. unfold emphasis.
  rewrite nth_error_app1 by (rewrite repeat_length; exact H).
  apply nth_error_repeat. exact H.
Qed.

Lemma nth_word (j : nat) :
  j < n -> nth_error input (k + j) = nth_error w j.
Proof.
  intros H. unfold emphasis.
  rewrite nth_error_app2 by (rewrite repeat_length; lia).
  rewrite repeat_length. replace (k + j - k) with j by lia.
  apply nth_error_app1. exact H.
Qed.

Lemma nth_close (j : nat) :
  j < k -> nth_error input (k + n + j) = Some mk.
Proof.
  intros H. unfold emphasis.
  rewrite nth_error_app2 by (rewrite repeat_length; lia).
  rewrite repeat_length.
  rewrite nth_error_app2 by lia.
  replace (k + n + j - k - n) with j by lia.
  apply nth_error_repeat. exact H.
Qed.

Lemma word_substring : substring input k (k + n) = w.
Proof.
  unfold substring, emphasis.
  rewrite skipn_app, repeat_length, Nat.sub_diag.
  rewrite skipn_all2 by (rewrite repeat_length; lia).
  cbn [app skipn]. replace (k + n - k) with n by lia.
  rewrite firstn_app, Nat.sub_diag, firstn_all. cbn [firstn].
  apply app_nil_r.
Qed.

(** The pass that matches the whole of [input] leaves the text. *)
Lemma marked_pass (r : regex) :
  0 < k ->
  match_at input r 0
  = Matched (mkState (k + n + k) [(2, Some (k, k + n)); (1, Some (0, k))]) ->
  match_at input r (k + n + k) = Failure ->
  replaceAll r (by_template t_2) input = Some w.
Proof.
  intros Hk Hm He.
  rewrite (Heading.replaceAll_first r (by_template t_2) input _ w Hm).
  - cbn [endIndex]. rewrite skipn_all2 by (rewrite length_emphasis; lia).
    rewrite app_nil_r. reflexivity.
  - cbn [endIndex]. lia.
  - cbn [endIndex]. intros j Hj Hl. rewrite length_emphasis in Hl.
    replace j with (k + n + k) by lia. exact He.
  - unfold by_template, t_2. cbn [flat_map expand_item].
    unfold captured. cbn [captures capture Nat.eqb].
    rewrite word_substring, app_nil_r. reflexivity.
Qed.

End Shape.

Section Marked.

Variable mk : char.
Variable k : nat.
Variable w : jsstring.
Hypothesis mk_marker : mk = STAR \/ mk = UNDERSCORE.
Hypothesis w_inline : Forall (fun ch => inline ch = true) w.

Local Abbreviation input := (emphasis mk k w).
Local Abbreviation n := (List.length w).

Lemma markup_mk : markup mk = true.
Proof. destruct mk_marker; subst mk; reflexivity. Qed.

Lemma word_char (j : nat) :
  j < n ->
  exists ch, nth_error input (k + j) = Some ch /\ inline ch = true /\
             ch <> mk.
Proof.
  intros H. rewrite (nth_word mk k w j H).
  destruct (nth_error w j) as [ch|] eqn:E;
    [|apply nth_error_None in E; lia].
  exists ch. rewrite Forall_forall in w_inline.
  pose proof (w_inline ch (nth_error_In _ _ E)) as Hi.
  split; [reflexivity|]. split; [exact Hi|].
  intros ->. apply inline_markup in Hi. rewrite markup_mk in Hi.
  discriminate.
Qed.

(** What follows the opening marker: the text, lazily, and the marker
    again. *)
Lemma after_marker :
  0 < k ->
  compile input (Seq (Group 2 (LazyStar Dot)) (Backref 1))
    (mkState k [(1, Some (0, k))]) (fun y => Matched y)
  = Matched (mkState (k + n + k) [(2, Some (k, k + n)); (1, Some (0, k))]).
Proof.
  intros Hk. rewrite compile_Seq, compile_Group, compile_LazyStar.
  unfold Dot, repeat_fuel. cbn [groups endIndex captures].
  apply (Lazy.lazy_first input _ _ (Heading.single_CharSet input _) n).
  - rewrite length_emphasis. lia.
  - intros j Hj. destruct (word_char j Hj) as (ch & Hch & Hi & _).
    exists ch. split; [exact Hch | exact (inline_Dot ch Hi)].
  - intros j Hj. cbn [endIndex captures set_capture].
    destruct (word_char j Hj) as (ch & Hch & _ & Hne).
    apply (Lazy.backref_fail input 1 0 k (k + j) _ _ mk ch);
      [reflexivity | exact Hk | exact (nth_open mk k w 0 Hk) | exact Hch
      | congruence].
  - cbn [endIndex captures set_capture].
    rewrite (Lazy.backref_step input 1 0 k (k + n));
      [rewrite Nat.sub_0_r; reflexivity | reflexivity
      | rewrite length_emphasis; lia |].
    rewrite Nat.sub_0_r. intros j Hj. exists mk.
    split; [exact (nth_open mk k w j Hj) | exact (nth_close mk k w j Hj)].
Qed.

End Marked.

Section Input.

Variable input : jsstring.

Lemma two_chars (ch : char) (e : nat)
  (caps : list (nat * option CaptureRange)) (K : Continuation) :
  nth_error input e = Some ch -> nth_error input (S e) = Some ch ->
  compile input (Seq (Char ch) (Char ch)) (mkState e caps) K
  = K (mkState (S (S e)) caps).
Proof.
  intros H0 H1. rewrite compile_Seq.
  rewrite (Lazy.char_step input ch e caps _ H0).
  exact (Lazy.char_step input ch (S e) caps K H1).
Qed.

Lemma two_chars_fail (ch : char) (e : nat)
  (caps : list (nat * option CaptureRange)) (K : Continuation) :
  (forall a, nth_error input e = Some a ->
             nth_error input (S e) = Some a -> a <> ch) ->
  compile input (Seq (Char ch) (Char ch)) (mkState e caps) K = Failure.
Proof.
  intros H. rewrite compile_Seq.
  destruct (nth_error input e) as [a|] eqn:Ea;
    [|apply Lazy.char_fail; intros ch' E; congruence].
  destruct (N.eq_dec a ch) as [->|Hne];
    [|apply Lazy.char_fail; intros ch' E; congruence].
  rewrite (Lazy.char_step input ch e caps _ Ea).
  apply Lazy.char_fail. intros ch' E ->. exact (H ch eq_refl E eq_refl).
Qed.

(** The strong pattern starts with a doubled marker. *)
Lemma strong_needs_pair (j : nat) :
  (forall a, nth_error input j = Some a -> nth_error input (S j) = Some a ->
             a <> STAR /\ a <> UNDERSCORE) ->
  match_at input re_strong j = Failure.
Proof.
  intros H. unfold match_at, re_strong, cat, c.
  rewrite compile_Seq, compile_Group, compile_Alt.
  rewrite two_chars_fail by (intros a H0 H1; apply (H a H0 H1)).
  cbn [orElse].
  apply two_chars_fail. intros a H0 H1. apply (H a H0 H1).
Qed.

(** The weak pattern starts with a marker. *)
Lemma weak_needs_marker (j : nat) :
  (forall a, nth_error input j = Some a -> a <> STAR /\ a <> UNDERSCORE) ->
  match_at input re_weak j = Failure.
Proof.
  intros H. unfold match_at, re_weak, cat, c.
  rewrite compile_Seq, compile_Group, compile_Alt.
  rewrite Lazy.char_fail by (intros a H0; apply (H a H0)).
  cbn [orElse].
  apply Lazy.char_fail. intros a H0. apply (H a H0).
Qed.

Lemma strong_marker (mk : char) (K : Continuation) (z : MatchState) :
  mk = STAR \/ mk = UNDERSCORE ->
  nth_error input 0 = Some mk -> nth_error input 1 = Some mk ->
  K (mkState 2 [(1, Some (0, 2))]) = Matched z ->
  compile input (Group 1 (Alt (Seq (c "*") (c "*")) (Seq (c "_") (c "_"))))
    (mkState 0 []) K = Matched z.
Proof.
  intros Hmk H0 H1 HK. rewrite compile_Group, compile_Alt. unfold c.
  destruct Hmk; subst mk.
  - rewrite (two_chars (chr "*") 0 [] _ H0 H1).
    apply Lazy.orElse_first. exact HK.
  - rewrite two_chars_fail
      by (intros a E _; rewrite H0 in E; injection E as <-; discriminate).
    cbn [orElse]. rewrite (two_chars (chr "_") 0 [] _ H0 H1).
    exact HK.
Qed.

Lemma weak_marker (mk : char) (K : Continuation) (z : MatchState) :
  mk = STAR \/ mk = UNDERSCORE ->
  nth_error input 0 = Some mk ->
  K (mkState 1 [(1, Some (0, 1))]) = Matched z ->
  compile input (Group 1 (Alt (c "*") (c "_"))) (mkState 0 []) K = Matched z.
Proof.
  intros Hmk H0 HK. rewrite compile_Group, compile_Alt. unfold c.
  destruct Hmk; subst mk.
  - rewrite (Lazy.char_step input (chr "*") 0 [] _ H0).
    apply Lazy.orElse_first. exact HK.
  - rewrite Lazy.char_fail
      by (intros a E; rewrite H0 in E; injection E as <-; discriminate).
    cbn [orElse]. rewrite (Lazy.char_step input (chr "_") 0 [] _ H0).
    exact HK.
Qed.

End Input.

Section Word.

Variable mk : char.
Variable w : jsstring.
Hypothesis mk_marker : mk = STAR \/ mk = UNDERSCORE.
Hypothesis w_inline : Forall (fun ch => inline ch = true) w.

Lemma not_emphatic (k : nat) (ch : char) :
  In ch (emphasis mk k w) ->
  ch = mk \/ markup ch = false.
Proof.
  unfold emphasis. intros H.
  apply in_app_or in H as [H|H]; [left; exact (repeat_spec _ _ _ H)|].
  apply in_app_or in H as [H|H]; [|left; exact (repeat_spec _ _ _ H)].
  right. rewrite Forall_forall in w_inline.
  exact (inline_markup ch (w_inline ch H)).
Qed.

Lemma heading_pass_marked (k : nat) :
  replaceAll re_heading (by_template t_empty) (emphasis mk k w)
  = Some (emphasis mk k w).
Proof.
  apply (NoMatch.replaceAll_requires (N.eqb HASH)).
  - cbn. right. right. left. repeat split; try lia; discriminate.
  - intros ch H. apply N.eqb_neq. intros <-.
    destruct (not_emphatic k HASH H) as [E|E]; [|discriminate E].
    destruct mk_marker; subst mk; discriminate.
Qed.

Lemma strong_pass :
  replaceAll re_strong (by_template t_2) (emphasis mk 2 w) = Some w.
Proof.
  apply (marked_pass mk 2 w); [lia| |].
  - unfold match_at, re_strong, cat. rewrite compile_Seq.
    apply (strong_marker _ mk _ _ mk_marker);
      [exact (nth_open mk 2 w 0 ltac:(lia))
      |exact (nth_open mk 2 w 1 ltac:(lia))|].
    exact (after_marker mk 2 w mk_marker w_inline ltac:(lia)).
  - apply strong_needs_pair. intros a E. exfalso.
    assert (Some a <> None) by discriminate.
    rewrite <- E in H. apply nth_error_Some in H.
    rewrite length_emphasis in H. lia.
Qed.

Lemma weak_pass :
  replaceAll re_weak (by_template t_2) (emphasis mk 1 w) = Some w.
Proof.
  apply (marked_pass mk 1 w); [lia| |].
  - unfold match_at, re_weak, cat. rewrite compile_Seq.
    apply (weak_marker _ mk _ _ mk_marker);
      [exact (nth_open mk 1 w 0 ltac:(lia))|].
    exact (after_marker mk 1 w mk_marker w_inline ltac:(lia)).
  - apply weak_needs_marker. intros a E. exfalso.
    assert (Some a <> None) by discriminate.
    rewrite <- E in H. apply nth_error_Some in H.
    rewrite length_emphasis in H. lia.
Qed.

(** On a single marker around a text that is not empty, the strong
    pattern finds nothing. *)
Lemma strong_pass_single :
  w <> [] ->
  replaceAll re_strong (by_template t_2) (emphasis mk 1 w)
  = Some (emphasis mk 1 w).
Proof.
  intros Hw. unfold replaceAll.
  apply NoMatch.replace_from_no_match; [|lia|lia].
  intros j _. apply strong_needs_pair. intros a H0 H1.
  assert (Hin : In a w).
  { destruct w as [|a0 w'] eqn:Ew; [congruence|]. rewrite <- Ew in *.
    destruct j as [|j].
    - pose proof (nth_word mk 1 w 0) as E. cbn [Nat.add] in E.
      rewrite E in H1 by (rewrite Ew; cbn; lia).
      exact (nth_error_In _ _ H1).
    - destruct (Nat.lt_ge_cases j (List.length w)) as [L|L].
      + pose proof (nth_word mk 1 w j L) as E. cbn [Nat.add] in E.
        rewrite E in H0. exact (nth_error_In _ _ H0).
      + exfalso. assert (Some a <> None) by discriminate.
        rewrite <- H1 in H. apply nth_error_Some in H.
        rewrite length_emphasis in H. lia. }
  rewrite Forall_forall in w_inline.
  pose proof (inline_markup a (w_inline a Hin)) as Hm.
  split; intros ->; discriminate Hm.
Qed.

End Word.

(** The later statements leave such a text as it is. *)
Lemma tail_id (w : jsstring) (i : nat) (t : jsstring) :
  Forall (fun ch => inline ch = true) w -> has_run SP 2 w = false ->
  run (skipn i body) (mkLocals t w) = Some (mkLocals t w).
Proof.
  intros Hw Hs.
  exact (Plain.body_tail_id w (Forall_inline_markup w Hw) Hs
           (inline_no_newlines w Hw) i (mkLocals t w) eq_refl).
Qed.

End Emphasis.

(** X13: emphasis loses its markers.  A text between two single or two
    doubled asterisks or underscores, itself free of markup characters,
    line terminators and double spaces, is converted to the text,
    trimmed. *)
Theorem emphasis_is_stripped (mk : char) (k : nat) (w : jsstring) :
  mk = STAR \/ mk = UNDERSCORE ->
  k = 1 \/ k = 2 ->
  Forall (fun ch => inline ch = true) w ->
  has_run SP 2 w = false ->
  markdownToHuman (emphasis mk k w) = Some (trim w).
Proof.
  intros Hmk Hk Hw Hs.
  destruct Hk as [-> | ->]; [destruct w as [|a w'] eqn:Ew|].
  - destruct Hmk; subst mk; reflexivity.
  - rewrite <- Ew in *.
    assert (Hne : w <> []) by (rewrite Ew; discriminate).
    clear Ew. unfold markdownToHuman, markdownToHuman_locals.
    destruct (emphasis mk 1 w) as [|ch rest] eqn:E.
    { pose proof (Emphasis.length_emphasis mk 1 w) as L.
      rewrite E in L. cbn in L. lia. }
    rewrite <- E.
    change body with (pass re_heading t_empty :: pass re_strong t_2
                      :: pass re_weak t_2 :: skipn 3 body).
    cbn [run]. unfold pass at 1, assign_cleaned at 1. cbn [cleaned text].
    rewrite (Emphasis.heading_pass_marked mk w Hmk Hw 1). cbn [bind].
    unfold pass at 1, assign_cleaned at 1. cbn [cleaned text].
    rewrite (Emphasis.strong_pass_single mk w Hmk Hw Hne). cbn [bind].
    unfold pass at 1, assign_cleaned at 1. cbn [cleaned text].
    rewrite (Emphasis.weak_pass mk w Hmk Hw). cbn [bind].
    rewrite (Emphasis.tail_id w 3 _ Hw Hs). reflexivity.
  - unfold markdownToHuman, markdownToHuman_locals.
    destruct (emphasis mk 2 w) as [|ch rest] eqn:E.
    { pose proof (Emphasis.length_emphasis mk 2 w) as L.
      rewrite E in L. cbn in L. lia. }
    rewrite <- E.
    change body with (pass re_heading t_empty :: pass re_strong t_2
                      :: skipn 2 body).
    cbn [run]. unfold pass at 1, assign_cleaned at 1. cbn [cleaned text].
    rewrite (Emphasis.heading_pass_marked mk w Hmk Hw 2). cbn [bind].
    unfold pass at 1, assign_cleaned at 1. cbn [cleaned text].
    rewrite (Emphasis.strong_pass mk w Hmk Hw). cbn [bind].
    rewrite (Emphasis.tail_id w 2 _ Hw Hs). reflexivity.
Qed.

Lemma emphasis_is_stripped_witness :
  (STAR = STAR \/ STAR = UNDERSCORE) /\
  (2 = 1 \/ 2 = 2) /\
  Forall (fun ch => inline ch = true) (str "very bold") /\
  has_run SP 2 (str "very bold") = false /\
  markdownToHuman (emphasis STAR 2 (str "very bold"))
  = Some (trim (str "very bold")).
Proof.
  assert (H : Forall (fun ch => inline ch = true) (str "very bold"))
    by (repeat constructor).
  split; [left; reflexivity|]. split; [right; reflexivity|].
  split; [exact H|]. split; [reflexivity|].
  exact (emphasis_is_stripped STAR 2 (str "very bold")
           (or_introl eq_refl) (or_intror eq_refl) H eq_refl).
Defined.

(** ** Links *)

Module Link.

Lemma nth_after (x y : jsstring) (j : nat) :
  nth_error (x ++ y) (List.length x + j) = nth_error y j.
Proof.
  rewrite nth_error_app2 by lia.
  replace (List.length x + j - List.length x) with j by lia. reflexivity.
Qed.

Lemma nth_cons (x : char) (l : jsstring) (j : nat) :
  nth_error (x :: l) (S j) = nth_error l j.
Proof. reflexivity. Qed.

Lemma skipn_after (x y : jsstring) (j : nat) :
  skipn (List.length x + j) (x ++ y) = skipn j y.
Proof.
  rewrite skipn_app, skipn_all2 by lia.
  replace (List.length x + j - List.length x) with j by lia. reflexivity.
Qed.

Lemma firstn_before (x y : jsstring) :
  firstn (List.length x) (x ++ y) = x.
Proof.
  rewrite firstn_app, Nat.sub_diag, firstn_all. cbn [firstn].
  apply app_nil_r.
Qed.

Lemma emphatic_markup (ch : char) : markup ch = false -> emphatic ch = false.
Proof.
  intros H. destruct (emphatic ch) eqn:E; [|reflexivity].
  unfold emphatic in E. cbn [existsb] in E.
  repeat (apply orb_true_iff in E as [E|E];
          [apply N.eqb_eq in E; subst ch; discriminate H|]).
  discriminate E.
Qed.

Section Shape.

Variable label url : jsstring.

Local Abbreviation input := (link label url).
Local Abbreviation n := (List.length label).
Local Abbreviation m := (List.length url).

Lemma length_link : List.length input = 4 + n + m.
Proof.
  unfold link. cbn [List.length]. rewrite length_app. cbn [List.length].
  rewrite length_app. cbn [List.length]. lia.
Qed.

Lemma nth_lbrack : nth_error input 0 = Some LBRACK.
Proof. reflexivity. Qed.

Lemma nth_label (j : nat) :
  j < n -> nth_error input (1 + j) = nth_error label j.
Proof. intros H. unfold link. cbn [Nat.add]. rewrite nth_cons. apply nth_error_app1, H. Qed.

Lemma nth_rbrack : nth_error input (1 + n) = Some RBRACK.
Proof.
  unfold link. cbn [Nat.add]. rewrite nth_cons.
  rewrite nth_error_app2 by lia. rewrite Nat.sub_diag. reflexivity.
Qed.

Lemma nth_lparen : nth_error input (S (1 + n)) = Some LPAREN.
Proof.
  unfold link. cbn [Nat.add]. rewrite nth_cons.
  replace (S n) with (n + 1) by lia. rewrite nth_after. reflexivity.
Qed.

Lemma nth_url (j : nat) :
  j < m -> nth_error input (S (S (1 + n)) + j) = nth_error url j.
Proof.
  intros H. unfold link. cbn [Nat.add]. rewrite nth_cons.
  replace (S (S (n + j))) with (n + S (S j)) by lia. rewrite nth_after.
  rewrite !nth_cons. apply nth_error_app1, H.
Qed.

Lemma nth_rparen : nth_error input (S (S (1 + n)) + m) = Some RPAREN.
Proof.
  unfold link. cbn [Nat.add]. rewrite nth_cons.
  replace (S (S (n + m))) with (n + S (S m)) by lia. rewrite nth_after.
  rewrite !nth_cons. rewrite nth_error_app2 by lia. rewrite Nat.sub_diag.
  reflexivity.
Qed.

Lemma label_substring : substring input 1 (1 + n) = label.
Proof.
  unfold substring, link. cbn [skipn].
  replace (1 + n - 1) with n by lia. apply firstn_before.
Qed.

Lemma url_substring :
  substring input (S (S (1 + n))) (S (S (1 + n)) + m) = url.
Proof.
  unfold substring.
  replace (S (S (1 + n)) + m - S (S (1 + n))) with m by lia.
  unfold link. cbn [Nat.add]. rewrite skipn_cons.
  replace (S (S n)) with (n + 2) by lia. rewrite skipn_after.
  cbn [skipn].
  apply firstn_before.
Qed.

End Shape.

Section Parts.

Variable label url : jsstring.
Hypothesis label_inline :
  Forall (fun ch => inline ch = true /\ ch <> RBRACK) label.
Hypothesis url_inline :
  Forall (fun ch => inline ch = true /\ ch <> RPAREN) url.

Local Abbreviation input := (link label url).
Local Abbreviation n := (List.length label).
Local Abbreviation m := (List.length url).

Lemma label_char (j : nat) :
  j < n ->
  exists ch, nth_error input (1 + j) = Some ch /\ inline ch = true /\
             ch <> RBRACK.
Proof.
  intros H. rewrite (nth_label label url j H).
  destruct (nth_error label j) as [ch|] eqn:E;
    [|apply nth_error_None in E; lia].
  exists ch. rewrite Forall_forall in label_inline.
  split; [reflexivity | exact (label_inline ch (nth_error_In _ _ E))].
Qed.

Lemma url_char (j : nat) :
  j < m ->
  exists ch, nth_error input (S (S (1 + n)) + j) = Some ch /\
             inline ch = true /\ ch <> RPAREN.
Proof.
  intros H. rewrite (nth_url label url j H).
  destruct (nth_error url j) as [ch|] eqn:E;
    [|apply nth_error_None in E; lia].
  exists ch. rewrite Forall_forall in url_inline.
  split; [reflexivity | exact (url_inline ch (nth_error_In _ _ E))].
Qed.

Lemma link_match :
  match_at input re_link 0
  = Matched (mkState (S (S (S (1 + n)) + m))
               [(2, Some (S (S (1 + n)), S (S (1 + n)) + m));
                (1, Some (1, 1 + n))]).
Proof.
  unfold match_at, re_link, cat, c.
  rewrite Emphasis.compile_Seq.
  rewrite (Lazy.char_step input _ 0 [] _ (nth_lbrack label url)).
  rewrite Emphasis.compile_Seq, Emphasis.compile_Group,
    Emphasis.compile_LazyStar.
  unfold Dot, repeat_fuel. cbn [groups endIndex captures].
  apply (Lazy.lazy_first input _ _ (Heading.single_CharSet input _) n).
  - rewrite length_link. lia.
  - intros j Hj. destruct (label_char j Hj) as (ch & Hch & Hi & _).
    exists ch. split; [exact Hch | exact (Emphasis.inline_Dot ch Hi)].
  - intros j Hj. cbn [endIndex captures].
    destruct (label_char j Hj) as (ch & Hch & _ & Hne).
    rewrite Emphasis.compile_Seq. apply Lazy.char_fail.
    intros ch' E. rewrite Hch in E. injection E as <-. exact Hne.
  - cbn [endIndex captures]. unfold set_capture.
    rewrite Emphasis.compile_Seq.
    rewrite (Lazy.char_step input _ _ _ _ (nth_rbrack label url)).
    rewrite Emphasis.compile_Seq.
    rewrite (Lazy.char_step input _ _ _ _ (nth_lparen label url)).
    rewrite Emphasis.compile_Seq, Emphasis.compile_Group,
      Emphasis.compile_LazyStar.
    unfold repeat_fuel. cbn [groups endIndex captures].
    apply (Lazy.lazy_first input _ _ (Heading.single_CharSet input _) m).
    + rewrite length_link. lia.
    + intros j Hj. destruct (url_char j Hj) as (ch & Hch & Hi & _).
      exists ch. split; [exact Hch | exact (Emphasis.inline_Dot ch Hi)].
    + intros j Hj. cbn [endIndex captures].
      destruct (url_char j Hj) as (ch & Hch & _ & Hne).
      apply Lazy.char_fail.
      intros ch' E. rewrite Hch in E. injection E as <-. exact Hne.
    + cbn [endIndex captures]. unfold set_capture.
      rewrite (Lazy.char_step input _ _ _ _ (nth_rparen label url)).
      reflexivity.
Qed.

Lemma link_pass : rewrite_links input = Some (link_text label url).
Proof.
  unfold rewrite_links.
  rewrite (Heading.replaceAll_first re_link (by_template t_link) input _
             (link_text label url) link_match).
  - cbn [endIndex]. rewrite skipn_all2 by (rewrite length_link; lia).
    rewrite app_nil_r. reflexivity.
  - cbn [endIndex]. lia.
  - cbn [endIndex]. intros j Hj Hl. rewrite length_link in Hl.
    unfold match_at, re_link, cat, c. rewrite Emphasis.compile_Seq.
    apply Lazy.char_fail. intros ch' E. exfalso.
    assert (H : nth_error input j <> None) by (rewrite E; discriminate).
    apply nth_error_Some in H. rewrite length_link in H. lia.
  - unfold by_template, t_link. cbn [flat_map expand_item].
    unfold captured. cbn [captures capture Nat.eqb].
    rewrite label_substring, url_substring. unfold link_text.
    reflexivity.
Qed.

Lemma link_not_emphatic (ch : char) : In ch input -> emphatic ch = false.
Proof.
  unfold link. intros H. rewrite Forall_forall in label_inline, url_inline.
  destruct H as [<-|H]; [reflexivity|].
  apply in_app_or in H as [H|H].
  { apply emphatic_markup, Emphasis.inline_markup, (label_inline ch H). }
  destruct H as [<-|H]; [reflexivity|].
  destruct H as [<-|H]; [reflexivity|].
  apply in_app_or in H as [H|H].
  { apply emphatic_markup, Emphasis.inline_markup, (url_inline ch H). }
  destruct H as [<-|[]]. reflexivity.
Qed.

Lemma before_link (r : regex) (t : template) (l : locals) :
  requires emphatic r -> cleaned l = input -> pass r t l = Some l.
Proof.
  intros Hr E. apply (Plain.assign_cleaned_id input); [|exact E].
  exact (NoMatch.replaceAll_requires emphatic r (by_template t) input Hr
           link_not_emphatic).
Qed.

Lemma link_text_inline :
  Forall (fun ch => inline ch = true) (link_text label url).
Proof.
  unfold link_text. apply Forall_app. split.
  { revert label_inline. apply Forall_impl. intros ch [H _]. exact H. }
  apply Forall_cons; [reflexivity|]. apply Forall_cons; [reflexivity|].
  apply Forall_app. split.
  { revert url_inline. apply Forall_impl. intros ch [H _]. exact H. }
  apply Forall_cons; [reflexivity | apply Forall_nil].
Qed.

End Parts.

End Link.

(** X14: a link is rewritten to its label followed by its address in
    parentheses.  For a label and an address free of markup characters
    and line terminators, the label without a closing bracket and the
    address without a closing parenthesis, the conversion of the link
    is the text the replacement string describes, trimmed, as long as
    that text has no two spaces in a row. *)
Theorem link_is_rewritten (label url : jsstring) :
  Forall (fun ch => inline ch = true /\ ch <> RBRACK) label ->
  Forall (fun ch => inline ch = true /\ ch <> RPAREN) url ->
  has_run SP 2 (link_text label url) = false ->
  markdownToHuman (link label url) = Some (trim (link_text label url)).
Proof.
  intros Hl Hu Hs. unfold markdownToHuman, markdownToHuman_locals.
  change (link label url) with (LBRACK :: label ++ RBRACK :: LPAREN :: url ++ [RPAREN]) at 1.
  cbv iota. 
  change body with (pass re_heading t_empty :: pass re_strong t_2
                    :: pass re_weak t_2 :: pass_link :: skipn 4 body).
  cbn [run].
  rewrite (Link.before_link label url Hl Hu re_heading t_empty
             (mkLocals (link label url) (link label url))
             ltac:(cbn; right; right; left; repeat split; try lia; discriminate)
             eq_refl).
  cbn [bind].
  rewrite (Link.before_link label url Hl Hu re_strong t_2
             (mkLocals (link label url) (link label url))
             ltac:(cbn; left; split; left; reflexivity) eq_refl).
  cbn [bind].
  rewrite (Link.before_link label url Hl Hu re_weak t_2
             (mkLocals (link label url) (link label url))
             ltac:(cbn; left; split; reflexivity) eq_refl).
  cbn [bind]. unfold pass_link, assign_cleaned. cbn [cleaned text].
  rewrite (Link.link_pass label url Hl Hu). cbn [bind].
  rewrite (Emphasis.tail_id (link_text label url) 4 _
             (Link.link_text_inline label url Hl Hu) Hs).
  reflexivity.
Qed.

Lemma link_is_rewritten_witness :
  Forall (fun ch => inline ch = true /\ ch <> RBRACK) (str "the docs") /\
  Forall (fun ch => inline ch = true /\ ch <> RPAREN)
         (str "https://example.com/a") /\
  has_run SP 2 (link_text (str "the docs") (str "https://example.com/a"))
  = false /\
  markdownToHuman (link (str "the docs") (str "https://example.com/a"))
  = Some (trim (link_text (str "the docs") (str "https://example.com/a"))).
Proof.
  assert (H1 : Forall (fun ch => inline ch = true /\ ch <> RBRACK)
                 (str "the docs"))
    by (repeat (apply Forall_cons; [split; [reflexivity|discriminate]|]);
        apply Forall_nil).
  assert (H2 : Forall (fun ch => inline ch = true /\ ch <> RPAREN)
                 (str "https://example.com/a"))
    by (repeat (apply Forall_cons; [split; [reflexivity|discriminate]|]);
        apply Forall_nil).
  split; [exact H1|]. split; [exact H2|]. split; [reflexivity|].
  exact (link_is_rewritten _ _ H1 H2 eq_refl).
Defined.

(** ** One construct at the start of the text *)

Module Rules.

Lemma compile_Repeat (input : jsstring) (greedy : bool) (min : nat)
  (max : option nat) (r : regex) (x : MatchState) (k : Continuation) :
  compile input (Repeat greedy min max r) x k
  = RepeatMatcher (compile input r) (groups r) (repeat_fuel input min x)
      min max greedy x k.
Proof. reflexivity. Qed.

Lemma line_start_0 (input : jsstring)
  (caps : list (nat * option CaptureRange)) (k : Continuation) :
  compile input LineStart (mkState 0 caps) k = k (mkState 0 caps).
Proof. reflexivity. Qed.

Lemma line_end (input : jsstring) (e : nat)
  (caps : list (nat * option CaptureRange)) (k : Continuation) :
  nth_error input e = None ->
  compile input LineEnd (mkState e caps) k = k (mkState e caps).
Proof. intros H. cbn [compile endIndex]. rewrite H. reflexivity. Qed.

(** An optional character of a class. *)
Lemma opt_take (input : jsstring) (p : char -> bool) (m : Matcher)
  (fuel e : nat) (caps : list (nat * option CaptureRange))
  (k : Continuation) (ch : char) (z : MatchState) :
  single input p m ->
  nth_error input e = Some ch -> p ch = true ->
  k (mkState (S e) caps) = Matched z ->
  RepeatMatcher m [] (S (S fuel)) 0 (Some 1) true (mkState e caps) k
  = Matched z.
Proof.
  intros Hm Hch Hp Hk.
  change (RepeatMatcher m [] (S (S fuel)) 0 (Some 1) true (mkState e caps) k)
    with (orElse
            (m (mkState e caps)
               (fun y => if endIndex y =? e then Failure
                         else RepeatMatcher m [] (S fuel) 0 (Some 0) true y k))
            (fun _ => k (mkState e caps))).
  rewrite (Runs.single_step input p m Hm e caps _ ch Hch Hp).
  cbn [endIndex]. rewrite (proj2 (Nat.eqb_neq (S e) e)) by lia.
  cbn [RepeatMatcher]. rewrite Hk. reflexivity.
Qed.

Lemma opt_skip (input : jsstring) (p : char -> bool) (m : Matcher)
  (fuel e : nat) (caps : list (nat * option CaptureRange))
  (k : Continuation) :
  single input p m -> stops input p e ->
  RepeatMatcher m [] (S fuel) 0 (Some 1) true (mkState e caps) k
  = k (mkState e caps).
Proof.
  intros Hm Hst.
  change (RepeatMatcher m [] (S fuel) 0 (Some 1) true (mkState e caps) k)
    with (orElse
            (m (mkState e caps)
               (fun y => if endIndex y =? e then Failure
                         else RepeatMatcher m [] fuel 0 (Some 0) true y k))
            (fun _ => k (mkState e caps))).
  rewrite (Runs.single_stop input p m Hm e caps _ Hst). reflexivity.
Qed.

(** A greedy star in front of a character outside its class takes
    nothing. *)
Lemma star_none (input : jsstring) (p : char -> bool) (e : nat)
  (caps : list (nat * option CaptureRange)) (k : Continuation) :
  stops input p e ->
  compile input (Star (CharSet p)) (mkState e caps) k = k (mkState e caps).
Proof.
  intros Hst. unfold Star. rewrite compile_Repeat. unfold repeat_fuel.
  cbn [groups Nat.add]. rewrite Fence.RepeatMatcher_star.
  cbn [endIndex captures].
  rewrite (Runs.single_stop input p _ (Heading.single_CharSet input p)
             e caps _ Hst).
  reflexivity.
Qed.

(** A repeat of at least [min] characters fails on a shorter run. *)
Lemma at_least_short (input : jsstring) (p : char -> bool) (m : Matcher)
  (Hm : single input p m) (n : nat) :
  forall min fuel e caps k,
    n < min -> n < fuel -> stops input p (e + n) ->
    RepeatMatcher m [] fuel min None true (mkState e caps) k = Failure.
Proof.
  induction n as [|n IH]; intros min fuel e caps k Hmin Hf Hst;
    (destruct fuel as [|fuel]; [lia|]);
    (destruct min as [|min]; [lia|]);
    rewrite Runs.RepeatMatcher_min; cbn [endIndex captures].
  - rewrite Nat.add_0_r in Hst.
    exact (Runs.single_stop input p m Hm e caps _ Hst).
  - rewrite Hm. cbn [endIndex captures].
    destruct (nth_error input e) as [ch|]; [|reflexivity].
    destruct (p ch); [|reflexivity].
    apply IH; [lia | lia |].
    replace (S e + n) with (e + S n) by lia. exact Hst.
Qed.

Lemma absent_skipn (input : jsstring) (q : char -> bool) (e : nat) :
  Forall (fun ch => q ch = false) (skipn e input) ->
  absent_from input q e.
Proof.
  intros H j ch Hj Hch. rewrite Forall_forall in H. apply H.
  apply nth_error_In with (j - e). rewrite nth_error_skipn.
  replace (e + (j - e)) with j by lia. exact Hch.
Qed.

(** A pass whose pattern matches at the start of the text and needs a
    markup character, on a text without markup past that match. *)
Lemma prefix_pass (r : regex) (t : template) (s0 : jsstring) (e : nat)
  (caps : list (nat * option CaptureRange)) (o : jsstring) :
  match_at s0 r 0 = Matched (mkState e caps) -> 0 < e ->
  requires markup r ->
  Forall (fun ch => markup ch = false) (skipn e s0) ->
  by_template t s0 0 (mkState e caps) = Some o ->
  replaceAll r (by_template t) s0 = Some (o ++ skipn e s0).
Proof.
  intros Hm He Hr Hs Ho.
  rewrite (Heading.replaceAll_first r (by_template t) s0 _ o Hm);
    [reflexivity | exact He | | exact Ho].
  cbn [endIndex]. intros j Hj Hl.
  exact (Heading.requires_Failure_from s0 markup r e j Hr
           (absent_skipn s0 markup e Hs) Hj Hl).
Qed.

(** A pass whose pattern needs a character of [q], on a text without
    one. *)
Lemma pass_id (q : char -> bool) (s : jsstring) (r : regex) (rep : replacer) :
  (forall ch, In ch s -> q ch = false) -> requires q r ->
  stmt_id_on s (assign_cleaned (replaceAll r rep)).
Proof.
  intros Hs Hr. apply Plain.assign_cleaned_id.
  exact (NoMatch.replaceAll_requires q r rep s Hr Hs).
Qed.

(** A pass whose pattern matches nowhere. *)
Lemma pass_no_match (s : jsstring) (r : regex) (rep : replacer) :
  (forall j, j <= List.length s -> match_at s r j = Failure) ->
  stmt_id_on s (assign_cleaned (replaceAll r rep)).
Proof.
  intros H. apply Plain.assign_cleaned_id. unfold replaceAll.
  apply NoMatch.replace_from_no_match; [exact H | lia | lia].
Qed.

Lemma pass_spaces_id (s : jsstring) :
  has_run SP 2 s = false -> stmt_id_on s (pass re_spaces t_space).
Proof.
  intros H. apply Plain.assign_cleaned_id.
  exact (Runs.at_least_absent s SP 2 (by_template t_space) H).
Qed.

Lemma except_absent (x : char -> bool) (s : jsstring) :
  Forall (fun ch => x ch = true \/ markup ch = false) s ->
  forall ch, In ch s -> except x ch = false.
Proof.
  intros H ch Hin. rewrite Forall_forall in H. unfold except.
  destruct (H ch Hin) as [E|E]; rewrite E;
    [apply andb_false_r | reflexivity].
Qed.

(** The statements up to the [i]-th change nothing, the [i]-th turns
    [s0] into the plain text [s1]: the result is [s1], trimmed. *)
Lemma construct (i : nat) (st : stmt) (s0 s1 : jsstring) :
  body = firstn i body ++ st :: skipn (S i) body ->
  s0 <> [] ->
  Forall (stmt_id_on s0) (firstn i body) ->
  st (mkLocals s0 s0) = Some (mkLocals s0 s1) ->
  plain s1 ->
  markdownToHuman s0 = Some (trim s1).
Proof.
  intros Hb Hne Hpre Hst (H1 & H2 & H3).
  unfold markdownToHuman, markdownToHuman_locals.
  destruct s0 as [|ch s0']; [congruence|].
  rewrite Hb at 1. rewrite Pipeline.run_app.
  rewrite (Plain.run_id _ _ Hpre (mkLocals (ch :: s0') (ch :: s0')) eq_refl).
  cbn [bind run]. rewrite Hst. cbn [bind].
  rewrite (Plain.body_tail_id s1 H1 H2 H3 (S i)
             (mkLocals (ch :: s0') s1) eq_refl).
  reflexivity.
Qed.

Lemma has_run_tail (c : char) (n : nat) (ch : char) (s : jsstring) :
  has_run c n (ch :: s) = false -> has_run c n s = false.
Proof.
  rewrite Runs.has_run_cons. intros H. apply orb_false_iff in H. apply H.
Qed.

Lemma plain_tail (ch : char) (s : jsstring) : plain (ch :: s) -> plain s.
Proof.
  intros (H1 & H2 & H3). split; [inversion H1; assumption|].
  split; eapply has_run_tail; eassumption.
Qed.

Lemma plain_trimStart (s : jsstring) : plain s -> plain (trimStart s).
Proof.
  intros (H1 & H2 & H3).
  destruct (Trim.trimStart_suffix s) as (a & E & _).
  split; [rewrite E in H1; apply Forall_app in H1; apply H1|].
  split; [apply (Runs.has_run_middle SP 2 a _ [])
         |apply (Runs.has_run_middle LF 3 a _ [])];
    rewrite app_nil_r, <- E; assumption.
Qed.

Lemma has_run_other (c : char) (n : nat) (ch : char) (s : jsstring) :
  0 < n -> ch <> c -> has_run c n s = false ->
  has_run c n (ch :: s) = false.
Proof.
  intros Hn Hne H. rewrite Runs.has_run_cons, Runs.lead_cons_ne, H by exact Hne.
  rewrite orb_false_r. apply Nat.leb_gt. exact Hn.
Qed.

Lemma has_run_others (c : char) (n : nat) (pre s : jsstring) :
  0 < n -> Forall (fun ch => ch <> c) pre -> has_run c n s = false ->
  has_run c n (pre ++ s) = false.
Proof.
  intros Hn Hpre H. induction Hpre as [|ch pre Hch _ IH]; [exact H|].
  cbn [app]. apply has_run_other; assumption.
Qed.

(** One character of a class. *)
Lemma set_step (input : jsstring) (p : char -> bool) (e : nat)
  (caps : list (nat * option CaptureRange)) (k : Continuation) (ch : char) :
  nth_error input e = Some ch -> p ch = true ->
  compile input (CharSet p) (mkState e caps) k = k (mkState (S e) caps).
Proof.
  exact (Runs.single_step input p _ (Heading.single_CharSet input p)
           e caps k ch).
Qed.

(** The white space a line goes on with after its marker. *)
Lemma spaces_after (input : jsstring) (e : nat) (rest : jsstring)
  (caps : list (nat * option CaptureRange)) (k : Continuation)
  (z : MatchState) :
  skipn e input = SP :: rest ->
  k (mkState (e + lead_by is_space (SP :: rest)) caps) = Matched z ->
  compile input (Plus Space) (mkState e caps) k = Matched z.
Proof.
  intros Hs Hk. unfold Plus, Space. rewrite compile_Repeat.
  unfold repeat_fuel. cbn [groups endIndex].
  destruct (Heading.lead_by_run input is_space (SP :: rest) e Hs)
    as [Hrun Hst].
  assert (Hn : 1 <= lead_by is_space (SP :: rest))
    by (cbn [lead_by]; change (is_space SP) with true; cbv iota; lia).
  apply (Runs.repeat_longest input is_space _
           (Heading.single_CharSet input is_space)
           (lead_by is_space (SP :: rest)) 1);
    [exact Hn | | exact Hrun | exact Hst | exact Hk].
  destruct (Runs.run_in_input input _ _ _ Hrun) as [L|E]; lia.
Qed.

Lemma skipn_spaces_after (input : jsstring) (e : nat) (rest : jsstring) :
  skipn e input = SP :: rest ->
  skipn (e + lead_by is_space (SP :: rest)) input = trimStart rest.
Proof.
  intros Hs. rewrite Nat.add_comm, <- skipn_skipn, Hs.
  rewrite Heading.skipn_lead_by. cbn [trimStart].
  change (is_space SP) with true. reflexivity.
Qed.

Lemma trim_trimStart (s : jsstring) : trim (trimStart s) = trim s.
Proof. unfold trim. rewrite Heading.trimStart_idem. reflexivity. Qed.

(** The statements that need a character of [q], on a text without
    one, and the pass that collapses spaces, on a text without two in
    a row. *)
Ltac earlier q Hq Hsp :=
  repeat (apply Forall_cons;
          [first [ apply (pass_id q _ _ _ Hq);
                   cbn -[markup in_range Nat.ltb Nat.leb except];
                   Plain.needs
                 | exact (pass_spaces_id _ Hsp) ]|]);
  try apply Forall_nil.

End Rules.

(** ** Block quotes *)

Module Quote.

Section Line.

Variable t : jsstring.
Hypothesis t_plain : plain t.

Local Abbreviation input := (blockquote t).

Lemma quote_chars (ch : char) : In ch input -> except (N.eqb GT) ch = false.
Proof.
  apply Rules.except_absent. apply Forall_cons; [left; reflexivity|].
  destruct t_plain as [H _]. revert H. apply Forall_impl. auto.
Qed.

Lemma before_quote : Forall (stmt_id_on input) (firstn 7 body).
Proof.
  unfold body, pass_link, pass_image, pass_code, pass_fence. cbn [firstn].
  Rules.earlier (except (N.eqb GT)) quote_chars I.
Qed.

(** The pattern takes the marker, and the white-space character after
    it when there is one. *)
Lemma quote_match :
  match_at input re_quote 0
  = Matched (mkState (List.length input - List.length
                        (quoted t)) []).
Proof.
  unfold match_at, re_quote, cat, c, Opt, Space, blockquote, quoted.
  rewrite Emphasis.compile_Seq, Rules.line_start_0, Emphasis.compile_Seq.
  rewrite Rules.star_none by reflexivity.
  rewrite Emphasis.compile_Seq.
  rewrite (Lazy.char_step (GT :: t) GT 0 [] _ eq_refl).
  rewrite Rules.compile_Repeat. unfold repeat_fuel.
  cbn [groups endIndex captures].
  destruct t as [|a t'] eqn:Et.
  - cbn [List.length Nat.sub Nat.add].
    rewrite (Rules.opt_skip [GT] is_space _ 0 1 [] _
               (Heading.single_CharSet _ is_space) I).
    reflexivity.
  - destruct (is_space a) eqn:Ea.
    + change (S (0 + (List.length (GT :: a :: t') - 1)))
        with (S (S (List.length t'))).
      apply (Rules.opt_take (GT :: a :: t') is_space _ _ 1 [] _ a);
        [apply Heading.single_CharSet | reflexivity | exact Ea |].
      f_equal. f_equal. change (List.length (GT :: a :: t')) with (S (S (List.length t'))). lia.
    + change (S (0 + (List.length (GT :: a :: t') - 1)))
        with (S (S (List.length t'))).
      rewrite (Rules.opt_skip (GT :: a :: t') is_space _ _ 1 [] _
                 (Heading.single_CharSet _ is_space) Ea).
      f_equal. f_equal. cbn [List.length]. lia.
Qed.

End Line.

Lemma plain_quoted (t : jsstring) : plain t -> plain (quoted t).
Proof.
  intros Ht. unfold quoted. destruct t as [|a t']; [exact Ht|].
  destruct (is_space a); [exact (Rules.plain_tail a t' Ht) | exact Ht].
Qed.

Lemma trim_quoted (t : jsstring) : trim (quoted t) = trim t.
Proof.
  unfold quoted. destruct t as [|a t']; [reflexivity|].
  destruct (is_space a) eqn:Ea; [|reflexivity].
  unfold trim. cbn [trimStart]. rewrite Ea. reflexivity.
Qed.

Lemma quote_pass (t : jsstring) :
  plain t ->
  pass re_quote t_empty (mkLocals (blockquote t) (blockquote t))
  = Some (mkLocals (blockquote t) (quoted t)).
Proof.
  intros Ht. unfold pass, assign_cleaned. cbn [cleaned text].
  assert (Hs : skipn (List.length (blockquote t) - List.length (quoted t))
                 (blockquote t) = quoted t).
  { unfold blockquote, quoted.
    destruct t as [|a t']; [reflexivity|].
    destruct (is_space a); cbn [List.length];
      [replace (S (S (List.length t')) - List.length t') with 2 by lia
      |replace (S (S (List.length t')) - S (List.length t')) with 1 by lia];
      reflexivity. }
  rewrite (Rules.prefix_pass re_quote t_empty (blockquote t) _ [] []
             (quote_match t Ht)).
  - rewrite Hs. reflexivity.
  - unfold blockquote, quoted. destruct t as [|a t']; [cbn; lia|].
    destruct (is_space a); cbn [List.length]; lia.
  - cbn -[markup]. right. right. left. reflexivity.
  - rewrite Hs. apply (plain_quoted t Ht).
  - reflexivity.
Qed.

End Quote.

(** X15: a quoted line loses its marker.  A greater-than sign followed
    by a plain text is converted to the text, trimmed, whether or not
    a space follows the sign. *)
Theorem blockquote_is_stripped (t : jsstring) :
  plain t -> markdownToHuman (blockquote t) = Some (trim t).
Proof.
  intros Ht. rewrite <- (Quote.trim_quoted t).
  apply (Rules.construct 7 (pass re_quote t_empty) (blockquote t) (quoted t));
    [reflexivity | discriminate | exact (Quote.before_quote t Ht)
    | exact (Quote.quote_pass t Ht) | exact (Quote.plain_quoted t Ht)].
Qed.

Lemma blockquote_is_stripped_witness :
  plain (str " To be, or not to be") /\
  markdownToHuman (blockquote (str " To be, or not to be"))
  = Some (trim (str " To be, or not to be")).
Proof.
  assert (H : plain (str " To be, or not to be"))
    by (split; [repeat constructor | split; reflexivity]).
  split; [exact H | exact (blockquote_is_stripped _ H)].
Defined.

(** ** List items *)

Module Lists.

Lemma plain_after_space (item : jsstring) :
  plain (SP :: item) -> plain (trimStart item).
Proof.
  intros H. apply Rules.plain_trimStart. exact (Rules.plain_tail SP item H).
Qed.

Lemma digit_markup (ch : char) : digit ch = true -> markup ch = true.
Proof. unfold markup, digit. intros ->. apply orb_true_r. Qed.

Lemma digit_not_space (ch : char) : digit ch = true -> is_space ch = false.
Proof.
  unfold digit, in_range. intros H. apply andb_prop in H as [H1 H2].
  apply N.leb_le in H1, H2.
  unfold is_space, WhiteSpace, LineTerminator, in_range.
  repeat (apply orb_false_iff; split);
    try (apply N.eqb_neq; lia).
  apply andb_false_iff. left. apply N.leb_gt. lia.
Qed.

(** *** Numbered items *)

Section Ordered.

Variable number item : jsstring.
Hypothesis number_digits : Forall (fun ch => digit ch = true) number.
Hypothesis number_some : number <> [].
Hypothesis item_plain : plain (SP :: item).

Local Abbreviation input := (ordered_item number item).
Local Abbreviation d := (List.length number).

Lemma nth_digit (j : nat) :
  j < d -> exists ch, nth_error input j = Some ch /\ digit ch = true.
Proof.
  intros H. unfold ordered_item. rewrite nth_error_app1 by exact H.
  destruct (nth_error number j) as [ch|] eqn:E;
    [|apply nth_error_None in E; lia].
  exists ch. split; [reflexivity|].
  rewrite Forall_forall in number_digits.
  exact (number_digits ch (nth_error_In _ _ E)).
Qed.

Lemma nth_dot : nth_error input d = Some DOT.
Proof.
  unfold ordered_item. rewrite nth_error_app2 by lia.
  rewrite Nat.sub_diag. reflexivity.
Qed.

Lemma skipn_number : skipn (S d) input = SP :: item.
Proof.
  unfold ordered_item. replace (S d) with (d + 1) by lia.
  rewrite Link.skipn_after. reflexivity.
Qed.

Lemma length_ordered : List.length input = d + 2 + List.length item.
Proof.
  unfold ordered_item. rewrite length_app. cbn [List.length]. lia.
Qed.

Lemma number_length : 0 < d.
Proof. destruct number; [congruence | cbn; lia]. Qed.

Lemma ordered_chars (ch : char) : In ch input -> except digit ch = false.
Proof.
  apply Rules.except_absent. unfold ordered_item. apply Forall_app. split.
  { revert number_digits. apply Forall_impl. auto. }
  apply Forall_cons; [right; reflexivity|].
  destruct item_plain as [H _]. revert H. apply Forall_impl. auto.
Qed.

Lemma ordered_spaces : has_run SP 2 input = false.
Proof.
  unfold ordered_item.
  change (number ++ DOT :: SP :: item)
    with (number ++ [DOT] ++ SP :: item).
  rewrite app_assoc. apply Rules.has_run_others; [lia| |apply item_plain].
  apply Forall_app. split; [|repeat constructor; discriminate].
  revert number_digits. apply Forall_impl. intros ch H ->. discriminate H.
Qed.

Lemma before_ordered : Forall (stmt_id_on input) (firstn 13 body).
Proof.
  unfold body, pass_link, pass_image, pass_code, pass_fence. cbn [firstn].
  Rules.earlier (except digit) ordered_chars ordered_spaces.
Qed.

Lemma ordered_match :
  match_at input re_ordered 0
  = Matched (mkState (S d + lead_by is_space (SP :: item)) []).
Proof.
  unfold match_at, re_ordered, cat, c.
  rewrite Emphasis.compile_Seq, Rules.line_start_0, Emphasis.compile_Seq.
  unfold Space at 1. rewrite Rules.star_none.
  2:{ unfold stops. destruct (nth_digit 0 number_length) as (ch & -> & H).
      exact (digit_not_space ch H). }
  rewrite Emphasis.compile_Seq. unfold Plus at 1, Digit.
  rewrite Rules.compile_Repeat. unfold repeat_fuel.
  cbn [groups endIndex].
  apply (Runs.repeat_longest input (in_range 48%N 57%N) _
           (Heading.single_CharSet input _) d 1 _ 0);
    [exact number_length | rewrite length_ordered; lia
    | intros j Hj; exact (nth_digit j Hj)
    | unfold stops; cbn [Nat.add]; rewrite nth_dot; reflexivity |].
  cbn [Nat.add]. rewrite Emphasis.compile_Seq.
  rewrite (Lazy.char_step input DOT d [] _ nth_dot).
  apply (Rules.spaces_after input (S d) item [] _ _ skipn_number).
  reflexivity.
Qed.

Lemma ordered_pass :
  pass re_ordered t_empty (mkLocals input input)
  = Some (mkLocals input (trimStart item)).
Proof.
  unfold pass, assign_cleaned. cbn [cleaned text].
  rewrite (Rules.prefix_pass re_ordered t_empty input _ [] [] ordered_match).
  - rewrite (Rules.skipn_spaces_after input (S d) item skipn_number).
    reflexivity.
  - lia.
  - cbn -[markup in_range]. right. right. left.
    split; [lia|]. split; [discriminate|]. exact digit_markup.
  - rewrite (Rules.skipn_spaces_after input (S d) item skipn_number).
    apply (plain_after_space item item_plain).
  - reflexivity.
Qed.

End Ordered.

(** *** Bulleted items *)

(** A lazy repeat fails when its continuation fails everywhere. *)
Lemma lazy_none (input : jsstring) (p : char -> bool) (m : Matcher)
  (Hm : single input p m) (fuel : nat) :
  forall e caps k,
    List.length input - e < fuel ->
    (forall j, k (mkState (e + j) caps) = Failure) ->
    RepeatMatcher m [] fuel 0 None false (mkState e caps) k = Failure.
Proof.
  induction fuel as [|fuel IH]; intros e caps k Hf Hk; [lia|].
  rewrite Lazy.RepeatMatcher_lazy.
  pose proof (Hk 0) as H0. rewrite Nat.add_0_r in H0. rewrite H0.
  cbn [orElse endIndex captures]. rewrite Hm. cbn [endIndex captures].
  destruct (nth_error input e) as [ch|] eqn:E; [|reflexivity].
  destruct (p ch); [|reflexivity].
  cbn [endIndex]. rewrite (proj2 (Nat.eqb_neq (S e) e)) by lia.
  assert (e < List.length input) by (apply nth_error_Some; congruence).
  apply IH; [lia|].
  intros j. replace (S e + j) with (e + S j) by lia. apply Hk.
Qed.

(** A backreference to a character fails in front of another one, and
    at the end of the text. *)
Lemma backref_other (input : jsstring) (n from to e : nat)
  (caps : list (nat * option CaptureRange)) (k : Continuation) (a : char) :
  capture n caps = Some (from, to) -> from < to ->
  nth_error input from = Some a ->
  (forall b, nth_error input e = Some b -> a <> b) ->
  compile input (Backref n) (mkState e caps) k = Failure.
Proof.
  intros Hc Hl Ha Hb.
  destruct (nth_error input e) as [b|] eqn:E.
  - exact (Lazy.backref_fail input n from to e caps k a b Hc Hl Ha E
             (Hb b eq_refl)).
  - cbn [compile endIndex captures]. rewrite Hc.
    destruct (to - from) as [|len] eqn:El; [lia|].
    cbn [same_range]. rewrite Ha, E. rewrite andb_false_r. reflexivity.
Qed.

Section Unordered.

Variable mk : char.
Variable item : jsstring.
Hypothesis bullet : mk = DASH \/ mk = STAR \/ mk = PLUS.
Hypothesis item_plain : plain (SP :: item).

Local Abbreviation input := (unordered_item mk item).

Lemma bullet_not_space : is_space mk = false.
Proof. destruct bullet as [E|[E|E]]; rewrite E; reflexivity. Qed.

Lemma bullet_class :
  existsb (N.eqb mk) [chr "-"; chr "*"; chr "+"] = true.
Proof. destruct bullet as [E|[E|E]]; rewrite E; reflexivity. Qed.

Lemma bullet_not_SP : mk <> SP.
Proof. destruct bullet as [E|[E|E]]; rewrite E; discriminate. Qed.

Lemma item_absent : absent_from input markup 1.
Proof. apply Rules.absent_skipn. cbn [skipn unordered_item]. apply item_plain. Qed.

Lemma item_no_match (r : regex) (j : nat) :
  requires markup r -> 1 <= j -> j <= List.length input ->
  match_at input r j = Failure.
Proof.
  intros Hr. exact (Heading.requires_Failure_from input markup r 1 j Hr
                      item_absent).
Qed.

Lemma item_chars (ch : char) : In ch (SP :: item) -> markup ch = false.
Proof.
  destruct item_plain as [H _]. rewrite Forall_forall in H. apply H.
Qed.

Lemma strong_item : stmt_id_on input (pass re_strong t_2).
Proof.
  apply Rules.pass_no_match. intros [|j] Hj.
  - apply Emphasis.strong_needs_pair. intros a H0 H1.
    cbn in H0, H1. injection H0 as <-. injection H1 as E.
    destruct (bullet_not_SP (eq_sym E)).
  - apply item_no_match; [|lia|exact Hj].
    cbn -[markup]. left. split; left; reflexivity.
Qed.

Lemma weak_star_0 :
  mk = STAR -> match_at input re_weak 0 = Failure.
Proof.
  intros E. unfold match_at, re_weak, cat, c.
  rewrite Emphasis.compile_Seq, Emphasis.compile_Group, Emphasis.compile_Alt.
  assert (H0 : nth_error input 0 = Some (chr "*")) by (rewrite E; reflexivity).
  rewrite (Lazy.char_step input (chr "*") 0 [] _ H0).
  cbn [endIndex captures]. unfold set_capture.
  rewrite Emphasis.compile_Seq, Emphasis.compile_Group,
    Emphasis.compile_LazyStar.
  unfold Dot, repeat_fuel. cbn [groups endIndex captures].
  rewrite (lazy_none input _ _ (Heading.single_CharSet input _)).
  - cbn [orElse]. apply Lazy.char_fail. intros ch' Hc.
    rewrite H0 in Hc. injection Hc as <-. discriminate.
  - lia.
  - intros j. cbn [endIndex captures]. unfold set_capture.
    apply (backref_other input 1 0 1 (1 + j) _ _ (chr "*"));
      [reflexivity | lia | exact H0 |].
    intros b Hb <-.
    assert (Hin : In (chr "*") (SP :: item))
      by (exact (nth_error_In (SP :: item) j Hb)).
    apply item_chars in Hin. discriminate Hin.
Qed.

Lemma weak_item : stmt_id_on input (pass re_weak t_2).
Proof.
  apply Rules.pass_no_match. intros [|j] Hj.
  - destruct bullet as [E|[E|E]]; [|exact (weak_star_0 E)|];
      apply Emphasis.weak_needs_marker; intros a H0; cbn in H0;
      injection H0 as <-; rewrite E; split; discriminate.
  - apply item_no_match; [|lia|exact Hj].
    cbn -[markup]. left. split; reflexivity.
Qed.

(** A rule needs three characters in a row. *)
Lemma three_needed (ch : char) (K : Continuation) :
  ch <> SP ->
  compile input (AtLeast 3 (Char ch)) (mkState 0 []) K = Failure.
Proof.
  intros Hne. unfold AtLeast. rewrite Rules.compile_Repeat.
  unfold repeat_fuel. cbn [groups endIndex].
  apply (Rules.at_least_short input (N.eqb ch) _
           (Runs.single_Char input ch) 1); [lia | lia |].
  unfold stops. cbn. apply N.eqb_neq. exact Hne.
Qed.

Lemma rule_item : stmt_id_on input (pass re_rule t_empty).
Proof.
  apply Rules.pass_no_match. intros [|j] Hj.
  - unfold match_at, re_rule, cat, c.
    rewrite Emphasis.compile_Seq, Rules.line_start_0, Emphasis.compile_Seq.
    unfold Space at 1.
    rewrite Rules.star_none by exact bullet_not_space.
    rewrite Emphasis.compile_Seq, Emphasis.compile_Group,
      Emphasis.compile_Alt.
    rewrite three_needed by discriminate. cbn [orElse].
    rewrite Emphasis.compile_Alt.
    rewrite three_needed by discriminate. cbn [orElse].
    apply three_needed. discriminate.
  - apply item_no_match; [|lia|exact Hj].
    cbn -[markup]. right. right. left.
    repeat split; try lia; discriminate.
Qed.

Lemma unordered_chars (ch : char) :
  In ch input -> except (N.eqb mk) ch = false.
Proof.
  apply Rules.except_absent. unfold unordered_item.
  apply Forall_cons; [left; apply N.eqb_refl|].
  destruct item_plain as [H _]. revert H. apply Forall_impl. auto.
Qed.

Lemma unordered_spaces : has_run SP 2 input = false.
Proof.
  unfold unordered_item.
  apply Rules.has_run_other; [lia | exact bullet_not_SP | apply item_plain].
Qed.

Lemma unordered_match :
  match_at input re_unordered 0
  = Matched (mkState (1 + lead_by is_space (SP :: item)) []).
Proof.
  unfold match_at, re_unordered, cat, c, OneOf.
  rewrite Emphasis.compile_Seq, Rules.line_start_0, Emphasis.compile_Seq.
  unfold Space at 1.
  rewrite Rules.star_none by exact bullet_not_space.
  rewrite Emphasis.compile_Seq.
  rewrite (Rules.set_step input _ 0 [] _ mk eq_refl bullet_class).
  apply (Rules.spaces_after input 1 item [] _ _ eq_refl).
  reflexivity.
Qed.

Lemma unordered_pass :
  pass re_unordered t_empty (mkLocals input input)
  = Some (mkLocals input (trimStart item)).
Proof.
  unfold pass, assign_cleaned. cbn [cleaned text].
  rewrite (Rules.prefix_pass re_unordered t_empty input _ [] []
             unordered_match).
  - rewrite (Rules.skipn_spaces_after input 1 item eq_refl). reflexivity.
  - lia.
  - cbn -[markup]. right. right. left. intros ch H. Blank.one_of H.
  - rewrite (Rules.skipn_spaces_after input 1 item eq_refl).
    apply (plain_after_space item item_plain).
  - reflexivity.
Qed.

End Unordered.

Lemma before_unordered (mk : char) (item : jsstring) :
  mk = DASH \/ mk = STAR \/ mk = PLUS -> plain (SP :: item) ->
  Forall (stmt_id_on (unordered_item mk item)) (firstn 12 body).
Proof.
  intros Hmk Hi.
  pose proof (strong_item mk item Hmk Hi) as H1.
  pose proof (weak_item mk item Hmk Hi) as H2.
  pose proof (rule_item mk item Hmk Hi) as H3.
  pose proof (unordered_chars mk item Hi) as Hq.
  pose proof (unordered_spaces mk item Hmk Hi) as Hsp.
  unfold body, pass_link, pass_image, pass_code, pass_fence. cbn [firstn].
  destruct Hmk as [-> | [-> | ->]];
    repeat (apply Forall_cons;
            [first [ exact H1 | exact H2 | exact H3
                   | exact (Rules.pass_spaces_id _ Hsp)
                   | apply (Rules.pass_id _ _ _ _ Hq);
                     cbn -[markup in_range Nat.ltb Nat.leb except];
                     Plain.needs ]|]);
    apply Forall_nil.
Qed.

End Lists.

(** X16: a numbered item loses its number.  One or more digits, a full
    stop, a space and a text, where the space and the text are plain,
    are converted to the text, trimmed. *)
Theorem ordered_item_is_stripped (number item : jsstring) :
  number <> [] ->
  Forall (fun ch => digit ch = true) number ->
  plain (SP :: item) ->
  markdownToHuman (ordered_item number item) = Some (trim item).
Proof.
  intros Hn Hd Hi. rewrite <- (Rules.trim_trimStart item).
  apply (Rules.construct 13 (pass re_ordered t_empty)
           (ordered_item number item) (trimStart item));
    [reflexivity
    | unfold ordered_item; destruct number; discriminate
    | exact (Lists.before_ordered number item Hd Hi)
    | exact (Lists.ordered_pass number item Hd Hn Hi)
    | exact (Lists.plain_after_space item Hi)].
Qed.

Lemma ordered_item_is_stripped_witness :
  str "12" <> [] /\
  Forall (fun ch => digit ch = true) (str "12") /\
  plain (SP :: str "Mix well.") /\
  markdownToHuman (ordered_item (str "12") (str "Mix well."))
  = Some (trim (str "Mix well.")).
Proof.
  assert (H1 : str "12" <> []) by discriminate.
  assert (H2 : Forall (fun ch => digit ch = true) (str "12"))
    by (repeat constructor).
  assert (H3 : plain (SP :: str "Mix well."))
    by (split; [repeat constructor | split; reflexivity]).
  split; [exact H1|]. split; [exact H2|]. split; [exact H3|].
  exact (ordered_item_is_stripped _ _ H1 H2 H3).
Defined.

(** X17: a bulleted item loses its bullet.  A dash, an asterisk or a
    plus sign, a space and a text, where the space and the text are
    plain, are converted to the text, trimmed. *)
Theorem unordered_item_is_stripped (mk : char) (item : jsstring) :
  mk = DASH \/ mk = STAR \/ mk = PLUS ->
  plain (SP :: item) ->
  markdownToHuman (unordered_item mk item) = Some (trim item).
Proof.
  intros Hmk Hi. rewrite <- (Rules.trim_trimStart item).
  apply (Rules.construct 12 (pass re_unordered t_empty)
           (unordered_item mk item) (trimStart item));
    [reflexivity
    | discriminate
    | exact (Lists.before_unordered mk item Hmk Hi)
    | exact (Lists.unordered_pass mk item Hmk Hi)
    | exact (Lists.plain_after_space item Hi)].
Qed.

Lemma unordered_item_is_stripped_witness :
  (STAR = DASH \/ STAR = STAR \/ STAR = PLUS) /\
  plain (SP :: str "two eggs") /\
  markdownToHuman (unordered_item STAR (str "two eggs"))
  = Some (trim (str "two eggs")).
Proof.
  assert (H1 : STAR = DASH \/ STAR = STAR \/ STAR = PLUS)
    by (right; left; reflexivity).
  assert (H2 : plain (SP :: str "two eggs"))
    by (split; [repeat constructor | split; reflexivity]).
  split; [exact H1|]. split; [exact H2|].
  exact (unordered_item_is_stripped _ _ H1 H2).
Defined.

(** ** Horizontal rules and code spans *)

Module Rule.

Section Dashes.

Variable k : nat.
Hypothesis three : 3 <= k.

Local Abbreviation input := (rule k).

Lemma nth_dash (j : nat) : j < k -> nth_error input j = Some DASH.
Proof. intros H. apply nth_error_repeat. exact H. Qed.

Lemma nth_end : nth_error input k = None.
Proof. apply nth_error_None. unfold rule. rewrite repeat_length. lia. Qed.

Lemma rule_chars (ch : char) : In ch input -> except (N.eqb DASH) ch = false.
Proof. intros H. apply repeat_spec in H. subst ch. reflexivity. Qed.

Lemma rule_spaces : has_run SP 2 input = false.
Proof.
  unfold rule. rewrite <- (app_nil_r (repeat DASH k)).
  apply Rules.has_run_others; [lia | | reflexivity].
  apply Forall_forall. intros ch H. apply repeat_spec in H. subst ch.
  discriminate.
Qed.

Lemma before_rule : Forall (stmt_id_on input) (firstn 10 body).
Proof.
  unfold body, pass_link, pass_image, pass_code, pass_fence. cbn [firstn].
  Rules.earlier (except (N.eqb DASH)) rule_chars rule_spaces.
Qed.

Lemma rule_match :
  match_at input re_rule 0 = Matched (mkState k [(1, Some (0, k))]).
Proof.
  unfold match_at, re_rule, cat, c.
  rewrite Emphasis.compile_Seq, Rules.line_start_0, Emphasis.compile_Seq.
  unfold Space at 1. rewrite Rules.star_none
    by (unfold stops; rewrite (nth_dash 0) by lia; reflexivity).
  rewrite Emphasis.compile_Seq, Emphasis.compile_Group, Emphasis.compile_Alt.
  apply Lazy.orElse_first. unfold AtLeast at 1.
  rewrite Rules.compile_Repeat. unfold repeat_fuel. cbn [groups endIndex].
  apply (Runs.repeat_longest input (N.eqb (chr "-")) _
           (Runs.single_Char input (chr "-")) k 3 _ 0).
  - exact three.
  - unfold rule. rewrite repeat_length. lia.
  - intros j Hj. exists DASH. split; [exact (nth_dash j Hj) | reflexivity].
  - unfold stops. cbn [Nat.add]. rewrite nth_end. exact I.
  - cbn [Nat.add endIndex captures]. unfold set_capture.
    rewrite Emphasis.compile_Seq. unfold Space.
    rewrite Rules.star_none by (unfold stops; rewrite nth_end; exact I).
    rewrite (Rules.line_end input k _ _ nth_end). reflexivity.
Qed.

Lemma rule_pass :
  pass re_rule t_empty (mkLocals input input) = Some (mkLocals input []).
Proof.
  assert (Hs : skipn k input = [])
    by (apply skipn_all2; unfold rule; rewrite repeat_length; lia).
  unfold pass, assign_cleaned. cbn [cleaned text].
  rewrite (Rules.prefix_pass re_rule t_empty input _ _ [] rule_match).
  - rewrite Hs. reflexivity.
  - lia.
  - cbn -[markup]. right. right. left.
    repeat split; try lia; discriminate.
  - rewrite Hs. apply Forall_nil.
  - reflexivity.
Qed.

End Dashes.

(** *** Code spans *)

Lemma lead_snoc (c ch : char) (s : jsstring) :
  ch <> c -> lead c (s ++ [ch]) = lead c s.
Proof.
  intros H. induction s as [|a s IH]; cbn [app lead].
  - apply N.eqb_neq in H. rewrite H. reflexivity.
  - rewrite IH. reflexivity.
Qed.

Lemma has_run_snoc (c : char) (n : nat) (ch : char) (s : jsstring) :
  0 < n -> ch <> c -> has_run c n s = false ->
  has_run c n (s ++ [ch]) = false.
Proof.
  intros Hn Hne. induction s as [|a s IH]; intros H.
  - cbn [app]. apply Rules.has_run_other; [exact Hn | exact Hne | exact H].
  - cbn [app]. rewrite Runs.has_run_cons in *.
    apply orb_false_iff in H as [H1 H2].
    change (a :: s ++ [ch]) with ((a :: s) ++ [ch]).
    rewrite (lead_snoc c ch (a :: s) Hne), H1. exact (IH H2).
Qed.

Section Span.

Variable w : jsstring.
Hypothesis w_plain : plain w.

Local Abbreviation input := (code_span w).
Local Abbreviation n := (List.length w).

Lemma length_span : List.length input = n + 2.
Proof. unfold code_span. cbn [List.length]. rewrite length_app. cbn. lia. Qed.

Lemma nth_inside (j : nat) :
  j < n ->
  exists ch, nth_error input (1 + j) = Some ch /\ markup ch = false.
Proof.
  intros H. unfold code_span. cbn [Nat.add]. rewrite Link.nth_cons.
  rewrite nth_error_app1 by exact H.
  destruct (nth_error w j) as [ch|] eqn:E;
    [|apply nth_error_None in E; lia].
  exists ch. split; [reflexivity|].
  destruct w_plain as [Hw _]. rewrite Forall_forall in Hw.
  exact (Hw ch (nth_error_In _ _ E)).
Qed.

Lemma nth_closing : nth_error input (1 + n) = Some BT.
Proof.
  unfold code_span. cbn [Nat.add]. rewrite Link.nth_cons.
  rewrite nth_error_app2 by lia. rewrite Nat.sub_diag. reflexivity.
Qed.

Lemma span_substring : substring input 1 (1 + n) = w.
Proof.
  unfold substring, code_span. cbn [skipn].
  replace (1 + n - 1) with n by lia. apply Link.firstn_before.
Qed.

Lemma span_chars (ch : char) : In ch input -> except (N.eqb BT) ch = false.
Proof.
  apply Rules.except_absent. unfold code_span.
  apply Forall_cons; [left; reflexivity|].
  apply Forall_app. split; [|repeat constructor].
  destruct w_plain as [H _]. revert H. apply Forall_impl. auto.
Qed.

Lemma span_spaces : has_run SP 2 input = false.
Proof.
  unfold code_span. apply Rules.has_run_other; [lia | discriminate |].
  apply has_run_snoc; [lia | discriminate | apply w_plain].
Qed.

Lemma before_span : Forall (stmt_id_on input) (firstn 5 body).
Proof.
  unfold body, pass_link, pass_image, pass_code, pass_fence. cbn [firstn].
  Rules.earlier (except (N.eqb BT)) span_chars span_spaces.
Qed.

Lemma span_match :
  match_at input re_code 0
  = Matched (mkState (S (1 + n)) [(1, Some (1, 1 + n))]).
Proof.
  unfold match_at, re_code, cat, backtick, c.
  rewrite Emphasis.compile_Seq.
  rewrite (Lazy.char_step input (chr "`") 0 [] _ eq_refl).
  rewrite Emphasis.compile_Seq, Emphasis.compile_Group.
  unfold Star, NoneOf. rewrite Rules.compile_Repeat. unfold repeat_fuel.
  cbn [groups endIndex captures].
  apply (Runs.repeat_longest input _ _ (Heading.single_CharSet input _)
           n 0 _ 1).
  - lia.
  - rewrite length_span. lia.
  - intros j Hj. destruct (nth_inside j Hj) as (ch & Hch & Hm).
    exists ch. split; [exact Hch|]. cbn [existsb].
    rewrite orb_false_r. apply negb_true_iff, N.eqb_neq.
    intros ->. discriminate Hm.
  - unfold stops. rewrite nth_closing. reflexivity.
  - cbn [endIndex captures]. unfold set_capture.
    rewrite (Lazy.char_step input (chr "`") (1 + n) _ _ nth_closing).
    reflexivity.
Qed.

Lemma span_pass :
  pass_code (mkLocals input input) = Some (mkLocals input w).
Proof.
  assert (Hs : skipn (S (1 + n)) input = [])
    by (apply skipn_all2; rewrite length_span; lia).
  unfold pass_code, rewrite_code, assign_cleaned. cbn [cleaned text].
  rewrite (Rules.prefix_pass re_code t_1 input _ _ w span_match).
  - rewrite Hs, app_nil_r. reflexivity.
  - lia.
  - cbn -[markup]. left. reflexivity.
  - rewrite Hs. apply Forall_nil.
  - unfold by_template, t_1. cbn [flat_map expand_item].
    unfold captured. cbn [captures capture Nat.eqb].
    rewrite span_substring, app_nil_r. reflexivity.
Qed.

End Span.

End Rule.

(** X18: a horizontal rule of dashes is removed.  A text made of three
    or more dashes is converted to the empty text. *)
Theorem rule_is_removed (k : nat) :
  3 <= k -> markdownToHuman (rule k) = Some [].
Proof.
  intros Hk.
  apply (Rules.construct 10 (pass re_rule t_empty) (rule k) []);
    [reflexivity
    | destruct k; [lia | discriminate]
    | exact (Rule.before_rule k Hk)
    | exact (Rule.rule_pass k Hk)
    | split; [apply Forall_nil | split; reflexivity]].
Qed.

Lemma rule_is_removed_witness :
  3 <= 5 /\ markdownToHuman (rule 5) = Some [].
Proof.
  split; [lia | apply (rule_is_removed 5); lia].
Defined.

(** X19: a code span loses its backticks.  A plain text between two
    backticks is converted to the text, trimmed. *)
Theorem code_span_is_unwrapped (w : jsstring) :
  plain w -> markdownToHuman (code_span w) = Some (trim w).
Proof.
  intros Hw.
  apply (Rules.construct 5 pass_code (code_span w) w);
    [reflexivity
    | discriminate
    | exact (Rule.before_span w Hw)
    | exact (Rule.span_pass w Hw)
    | exact Hw].
Qed.

Lemma code_span_is_unwrapped_witness :
  plain (str "npm start") /\
  markdownToHuman (code_span (str "npm start")) = Some (trim (str "npm start")).
Proof.
  assert (H : plain (str "npm start"))
    by (split; [repeat constructor | split; reflexivity]).
  split; [exact H | exact (code_span_is_unwrapped _ H)].
Defined.

(** ** The length of the output *)

Module Length.

Lemma between_refl (x : MatchState) : captures_between x x.
Proof. intros n from to H. left. exact H. Qed.

Lemma between_same (x y : MatchState) :
  captures y = captures x -> captures_between x y.
Proof. intros E n from to H. left. rewrite <- E. exact H. Qed.

Lemma between_trans (x y z : MatchState) :
  endIndex x <= endIndex y -> endIndex y <= endIndex z ->
  captures_between x y -> captures_between y z -> captures_between x z.
Proof.
  intros L1 L2 H1 H2 n from to H.
  destruct (H2 n from to H) as [E|B]; [|right; lia].
  destruct (H1 n from to E) as [E'|B]; [left; exact E' | right; lia].
Qed.

Lemma capture_cleared (inner : list nat)
  (caps : list (nat * option CaptureRange)) (n : nat) (v : CaptureRange) :
  capture n (clear_captures inner caps) = Some v -> capture n caps = Some v.
Proof.
  induction inner as [|k inner IH]; cbn [clear_captures fold_right];
    [auto|].
  unfold set_capture. cbn [capture].
  destruct (k =? n); [discriminate | exact IH].
Qed.

Section Input.

Variable input : jsstring.

Lemma RepeatMatcher_bounded (m : Matcher) (inner : list nat) :
  bounded m ->
  forall fuel min max greedy,
    bounded (RepeatMatcher m inner fuel min max greedy).
Proof.
  intros Hm. induction fuel as [|fuel IH]; intros min max greedy x c z;
    [discriminate|].
  cbn [RepeatMatcher].
  set (d := fun y : MatchState => _).
  assert (Hd : forall y, d y = Matched z ->
                         exists y', c y' = Matched z
                                    /\ endIndex y <= endIndex y'
                                    /\ captures_between y y').
  { intros y. unfold d.
    destruct ((min =? 0) && (endIndex y =? endIndex x)); [discriminate|].
    apply IH. }
  assert (Hmd : m (mkState (endIndex x) (clear_captures inner (captures x))) d
                = Matched z ->
                exists y, c y = Matched z /\ endIndex x <= endIndex y
                          /\ captures_between x y).
  { intros H. apply Hm in H as (y & Hy & L & B). cbn [endIndex] in L.
    apply Hd in Hy as (y' & Hy' & L' & B'). exists y'.
    split; [exact Hy'|]. split; [lia|].
    apply (between_trans x y y'); [exact L | exact L' | | exact B'].
    intros n from to H. destruct (B n from to H) as [E|E].
    - left. exact (capture_cleared inner (captures x) n (from, to) E).
    - right. exact E. }
  assert (Hc : c x = Matched z ->
               exists y, c y = Matched z /\ endIndex x <= endIndex y
                         /\ captures_between x y).
  { intros H. exists x. split; [exact H|].
    split; [lia | apply between_refl]. }
  destruct max as [[|max]|]; [exact Hc| |];
    (destruct (min =? 0); cbn [negb]; [|exact Hmd];
     destruct greedy; intros H;
     apply Trace.orElse_Matched in H as [H|[_ H]]; auto).
Qed.

Lemma compile_bounded (r : regex) : bounded (compile input r).
Proof.
  induction r as [ |ch|p| | |r1 IH1 r2 IH2|r1 IH1 r2 IH2|n r IH|n
                  |greedy min max r IH];
    intros x c z; cbn [compile].
  - intros H. exists x. split; [exact H|].
    split; [lia | apply between_refl].
  - destruct (nth_error input (endIndex x)) as [ch'|]; [|discriminate].
    destruct (ch' =? ch)%N; [|discriminate].
    intros H. eexists. split; [exact H|].
    split; [cbn; lia | apply between_same; reflexivity].
  - destruct (nth_error input (endIndex x)) as [ch'|]; [|discriminate].
    destruct (p ch'); [|discriminate].
    intros H. eexists. split; [exact H|].
    split; [cbn; lia | apply between_same; reflexivity].
  - destruct (endIndex x) as [|e] eqn:E.
    + intros H. exists x. split; [exact H|].
      split; [lia | apply between_refl].
    + destruct (nth_error input e) as [ch'|]; [|discriminate].
      destruct (LineTerminator ch'); [|discriminate].
      intros H. exists x. split; [exact H|].
      split; [lia | apply between_refl].
  - destruct (nth_error input (endIndex x)) as [ch'|].
    + destruct (LineTerminator ch'); [|discriminate].
      intros H. exists x. split; [exact H|].
      split; [lia | apply between_refl].
    + intros H. exists x. split; [exact H|].
      split; [lia | apply between_refl].
  - intros H. apply IH1 in H as (y & Hy & L & B).
    apply IH2 in Hy as (y' & Hy' & L' & B'). exists y'.
    split; [exact Hy'|]. split; [lia|].
    exact (between_trans x y y' L L' B B').
  - intros H. apply Trace.orElse_Matched in H as [H|[_ H]];
      [apply IH1 | apply IH2]; exact H.
  - intros H. apply IH in H as (y & Hy & L & B).
    eexists. split; [exact Hy|]. split; [cbn; lia|].
    intros k from to. cbn [captures endIndex]. unfold set_capture.
    cbn [capture]. destruct (n =? k).
    + intros E. injection E as <- <-. right. lia.
    + intros E. destruct (B k from to E) as [E'|E']; [left; exact E'|].
      right. exact E'.
  - destruct (capture n (captures x)) as [[from to]|].
    + destruct (_ && _); [|discriminate].
      intros H. eexists. split; [exact H|].
      split; [cbn; lia | apply between_same; reflexivity].
    + intros H. exists x. split; [exact H|].
      split; [lia | apply between_refl].
  - apply RepeatMatcher_bounded. exact IH.
Qed.

(** The captures of a match lie inside the match. *)
Lemma capture_inside (r : regex) (i : nat) (st : MatchState)
  (n from to : nat) :
  match_at input r i = Matched st ->
  capture n (captures st) = Some (from, to) ->
  i <= from /\ from <= to /\ to <= endIndex st.
Proof.
  unfold match_at. intros H Hc.
  apply compile_bounded in H as (y & Hy & L & B).
  injection Hy as <-. destruct (B n from to Hc) as [E|E];
    [discriminate E | exact E].
Qed.

Lemma length_substring (from to : nat) :
  List.length (substring input from to)
  = Nat.min (to - from) (List.length input - from).
Proof. unfold substring. rewrite length_firstn, length_skipn. reflexivity. Qed.

Lemma captured_length (r : regex) (i : nat) (st : MatchState) (n : nat) :
  match_at input r i = Matched st ->
  List.length (captured input n st)
  <= List.length (substring input i (endIndex st)).
Proof.
  intros H. unfold captured.
  destruct (capture n (captures st)) as [[from to]|] eqn:E; [|cbn; lia].
  destruct (capture_inside r i st n from to H E) as (L1 & L2 & L3).
  rewrite !length_substring. lia.
Qed.

(** A repeat of at least [min] characters of a class went over them. *)
Lemma repeat_min_forward (p : char -> bool) (m : Matcher)
  (Hm : single input p m) (min : nat) :
  forall fuel greedy e caps c z,
    RepeatMatcher m [] fuel min None greedy (mkState e caps) c = Matched z ->
    exists y, c y = Matched z /\ e + min <= endIndex y.
Proof.
  induction min as [|min IH]; intros fuel greedy e caps c z H.
  - apply Trace.RepeatMatcher_forward in H as (y & Hy & L).
    + exists y. split; [exact Hy | cbn [endIndex] in L; lia].
    + intros x k z'. rewrite Hm.
      destruct (nth_error input (endIndex x)) as [ch|]; [|discriminate].
      destruct (p ch); [|discriminate].
      intros Hk. eexists. split; [exact Hk | cbn; lia].
  - destruct fuel as [|fuel]; [discriminate|].
    rewrite Runs.RepeatMatcher_min, Hm in H. cbn [endIndex captures] in H.
    destruct (nth_error input e) as [ch|]; [|discriminate].
    destruct (p ch); [|discriminate].
    apply IH in H as (y & Hy & L). exists y. split; [exact Hy | lia].
Qed.

(** A match of [c{n,}] is [n] characters long or longer. *)
Lemma at_least_length (ch : char) (n i : nat) (st : MatchState) :
  match_at input (AtLeast n (Char ch)) i = Matched st ->
  n <= List.length (substring input i (endIndex st)).
Proof.
  unfold match_at, AtLeast. rewrite Rules.compile_Repeat.
  cbn [groups]. intros H.
  pose proof (Runs.repeat_needs input (N.eqb ch) _
                (Runs.single_Char input ch) n _ _ _ _ _ _ H) as Hrun.
  apply (repeat_min_forward (N.eqb ch) _ (Runs.single_Char input ch)) in H
    as (y & Hy & L).
  injection Hy as <-. rewrite length_substring.
  destruct (Runs.run_in_input input _ _ _ Hrun); lia.
Qed.

(** A match through a lazy repeat of a class went through the
    continuation, further on. *)
Lemma lazy_trace (p : char -> bool) (m : Matcher) (Hm : single input p m)
  (fuel : nat) :
  forall e caps c z,
    RepeatMatcher m [] fuel 0 None false (mkState e caps) c = Matched z ->
    exists n, c (mkState (e + n) caps) = Matched z.
Proof.
  induction fuel as [|fuel IH]; intros e caps c z; [discriminate|].
  rewrite Lazy.RepeatMatcher_lazy. intros H.
  apply Trace.orElse_Matched in H as [H|[_ H]].
  - exists 0. rewrite Nat.add_0_r. exact H.
  - rewrite Hm in H. cbn [endIndex captures] in H.
    destruct (nth_error input e) as [ch|]; [|discriminate].
    destruct (p ch); [|discriminate].
    cbn [endIndex] in H. rewrite (proj2 (Nat.eqb_neq (S e) e)) in H by lia.
    apply IH in H as (n & H). exists (S n).
    replace (e + S n) with (S e + n) by lia. exact H.
Qed.

Lemma compile_Char (ch : char) (x : MatchState) (k : Continuation) :
  compile input (Char ch) x k
  = match nth_error input (endIndex x) with
    | Some ch' =>
      if (ch' =? ch)%N then k (mkState (S (endIndex x)) (captures x))
      else Failure
    | None => Failure
    end.
Proof. reflexivity. Qed.

(** The shape of a match of the link pattern. *)
Lemma link_shape (i : nat) (st : MatchState) :
  match_at input re_link i = Matched st ->
  exists n1 n2,
    st = mkState (S (S (S (S i + n1)) + n2))
           [(2, Some (S (S (S i + n1)), S (S (S i + n1)) + n2));
            (1, Some (S i, S i + n1))] /\
    S (S (S (S i + n1)) + n2) <= List.length input.
Proof.
  unfold match_at, re_link, cat, c, Dot. intros H.
  rewrite Emphasis.compile_Seq, compile_Char in H. cbn [endIndex captures] in H.
  destruct (nth_error input i) as [a|]; [|discriminate].
  destruct (a =? chr "[")%N; [|discriminate].
  rewrite Emphasis.compile_Seq, Emphasis.compile_Group,
    Emphasis.compile_LazyStar in H.
  cbn [groups] in H.
  apply (lazy_trace _ _ (Heading.single_CharSet input _)) in H as (n1 & H).
  cbn [endIndex captures] in H. unfold set_capture in H.
  rewrite Emphasis.compile_Seq, compile_Char in H. cbn [endIndex captures] in H.
  destruct (nth_error input (S i + n1)) as [b|]; [|discriminate].
  destruct (b =? chr "]")%N; [|discriminate].
  rewrite Emphasis.compile_Seq, compile_Char in H. cbn [endIndex captures] in H.
  destruct (nth_error input (S (S i + n1))) as [b'|]; [|discriminate].
  destruct (b' =? chr "(")%N; [|discriminate].
  rewrite Emphasis.compile_Seq, Emphasis.compile_Group,
    Emphasis.compile_LazyStar in H.
  cbn [groups] in H.
  apply (lazy_trace _ _ (Heading.single_CharSet input _)) in H as (n2 & H).
  cbn [endIndex captures] in H. unfold set_capture in H.
  rewrite compile_Char in H. cbn [endIndex captures] in H.
  destruct (nth_error input (S (S (S i + n1)) + n2)) as [b''|] eqn:E;
    [|discriminate].
  destruct (b'' =? chr ")")%N; [|discriminate].
  injection H as <-. exists n1, n2. split; [reflexivity|].
  assert (S (S (S i + n1)) + n2 < List.length input)
    by (apply nth_error_Some; congruence).
  lia.
Qed.

End Input.

(** *** Replacers *)

Lemma empty_no_longer (r : regex) (s : jsstring) :
  no_longer r (by_template t_empty) s.
Proof. intros i st o _ E. injection E as <-. cbn. lia. Qed.

Lemma group_no_longer (r : regex) (n : nat) (s : jsstring) :
  no_longer r (by_template [TGroup n]) s.
Proof.
  intros i st o Hm E. injection E as <-.
  cbn [flat_map expand_item]. rewrite app_nil_r.
  exact (captured_length s r i st n Hm).
Qed.

Lemma link_no_longer (s : jsstring) : no_longer re_link (by_template t_link) s.
Proof.
  intros i st o Hm E. injection E as <-.
  destruct (link_shape s i st Hm) as (n1 & n2 & -> & L).
  cbn [flat_map expand_item t_link]. unfold captured.
  cbn [captures capture Nat.eqb endIndex].
  repeat (rewrite length_app; cbn [List.length]).
  rewrite !length_substring. lia.
Qed.

Lemma pipe_no_longer (s : jsstring) : no_longer re_pipe (by_template t_space) s.
Proof.
  intros i st o Hm E. injection E as <-.
  unfold re_pipe, cat, c in Hm.
  apply Trace.starts_with in Hm as [Hi L].
  assert (i < List.length s) by (apply nth_error_Some; congruence).
  rewrite length_substring. cbn. lia.
Qed.

Lemma spaces_no_longer (s : jsstring) :
  no_longer re_spaces (by_template t_space) s.
Proof.
  intros i st o Hm E. injection E as <-.
  pose proof (at_least_length s SP 2 i st Hm). cbn. lia.
Qed.

Lemma newlines_no_longer (s : jsstring) :
  no_longer re_newlines (by_template t_paragraph) s.
Proof.
  intros i st o Hm E. injection E as <-.
  pose proof (at_least_length s LF 3 i st Hm). cbn. lia.
Qed.

(** The first match removed. *)
Lemma replace_first_from_length (r : regex) (s : jsstring) (rest : jsstring) :
  forall i o,
    skipn i s = rest ->
    replace_first_from r (by_template t_empty) s i rest = Some o ->
    List.length o <= List.length rest.
Proof.
  induction rest as [|ch rest IH]; intros i o Hs; cbn [replace_first_from];
    (destruct (match_at s r i) as [st| |] eqn:Em; [| |discriminate]).
  - cbn [by_template t_empty flat_map bind app]. intros E. injection E as <-.
    pose proof (Trace.match_at_forward s r i st Em) as L.
    rewrite <- Hs, !length_skipn. lia.
  - intros E. injection E as <-. lia.
  - cbn [by_template t_empty flat_map bind app]. intros E. injection E as <-.
    pose proof (Trace.match_at_forward s r i st Em) as L.
    rewrite <- Hs, !length_skipn. lia.
  - destruct (Chars.skipn_step s i ch rest Hs) as [_ Hs'].
    destruct (replace_first_from r _ s (S i) rest) as [tl|] eqn:Et;
      cbn [option_map]; [|discriminate].
    intros E. injection E as <-. pose proof (IH (S i) tl Hs' Et).
    cbn [List.length]. lia.
Qed.

Lemma fence_no_longer (s : jsstring) :
  no_longer re_fence (by_function strip_fence) s.
Proof.
  intros i st o _. unfold by_function, strip_fence, replaceFirst.
  set (matched := substring s i (endIndex st)).
  destruct (replace_first_from re_fence_open _ matched 0 matched) as [s1|]
    eqn:E1; cbn [bind]; [|discriminate].
  intros E2.
  pose proof (replace_first_from_length re_fence_open matched matched 0 s1
                eq_refl E1).
  pose proof (replace_first_from_length re_fence_close s1 s1 0 o eq_refl E2).
  lia.
Qed.

Section Replace.

Variable r : regex.
Variable rep : replacer.
Variable input : jsstring.
Hypothesis rep_ok : no_longer r rep input.

(** A replacement does not lengthen the text. *)
Lemma replace_from_length (rest : jsstring) :
  forall i lastIndex out,
    skipn i input = rest ->
    replace_from r rep input i rest lastIndex = Some out ->
    List.length out <= List.length (skipn (lastIndex - i) rest).
Proof.
  induction rest as [|ch rest IH]; intros i lastIndex out Hs;
    cbn [replace_from].
  - rewrite skipn_nil.
    assert (Hsub : forall e, substring input i e = []).
    { intros e. unfold substring. rewrite Hs. apply firstn_nil. }
    destruct (lastIndex <=? i); [|intros E; injection E as <-; reflexivity].
    destruct (match_at input r i) as [st| |] eqn:Em;
      [|intros E; injection E as <-; reflexivity|discriminate].
    intros E. pose proof (rep_ok i st out Em E) as H.
    rewrite Hsub in H. exact H.
  - destruct (Chars.skipn_step input i ch rest Hs) as [Hch Hs'].
    destruct (i <? lastIndex) eqn:El.
    + apply Nat.ltb_lt in El. intros E.
      pose proof (IH (S i) lastIndex out Hs' E) as H.
      replace (lastIndex - i) with (S (lastIndex - S i)) by lia. exact H.
    + apply Nat.ltb_ge in El. replace (lastIndex - i) with 0 by lia.
      cbn [skipn].
      destruct (match_at input r i) as [st| |] eqn:Em; [| |discriminate].
      * destruct (rep input i st) as [o|] eqn:Eo; cbn [bind]; [|discriminate].
        pose proof (rep_ok i st o Em Eo) as Ho.
        pose proof (Trace.match_at_forward input r i st Em) as Hf.
        unfold substring in Ho. rewrite Hs in Ho.
        destruct (endIndex st =? i) eqn:Ee.
        -- apply Nat.eqb_eq in Ee. rewrite Ee, Nat.sub_diag in Ho.
           destruct (replace_from r rep input (S i) rest (S i)) as [tl|] eqn:Et;
             cbn [option_map bind]; [|discriminate].
           intros E. injection E as <-.
           pose proof (IH (S i) (S i) tl Hs' Et) as H.
           rewrite Nat.sub_diag in H. cbn [skipn firstn] in *.
           rewrite length_app. cbn [List.length] in *. lia.
        -- apply Nat.eqb_neq in Ee.
           destruct (replace_from r rep input (S i) rest (endIndex st))
             as [tl|] eqn:Et; cbn [bind]; [|discriminate].
           intros E. injection E as <-.
           pose proof (IH (S i) (endIndex st) tl Hs' Et) as H.
           rewrite length_app.
           rewrite length_firstn in Ho. rewrite length_skipn in H.
           cbn [List.length] in *. lia.
      * destruct (replace_from r rep input (S i) rest lastIndex) as [tl|] eqn:Et;
          cbn [option_map]; [|discriminate].
        intros E. injection E as <-.
        pose proof (IH (S i) lastIndex tl Hs' Et) as H.
        replace (lastIndex - S i) with 0 in H by lia. cbn [skipn] in H.
        cbn [List.length]. lia.
Qed.

End Replace.

Lemma replaceAll_length (r : regex) (rep : replacer) (s out : jsstring) :
  no_longer r rep s ->
  replaceAll r rep s = Some out -> List.length out <= List.length s.
Proof.
  intros H E.
  exact (replace_from_length r rep s H s 0 0 out eq_refl E).
Qed.

Lemma pass_length (n : nat) (r : regex) (rep : replacer) :
  (forall s, no_longer r rep s) ->
  stmt_keeps (at_most n) (assign_cleaned (replaceAll r rep)).
Proof.
  intros H. apply Pipeline.assign_cleaned_keeps. intros s out Hs E.
  pose proof (replaceAll_length r rep s out (H s) E).
  unfold at_most in *. lia.
Qed.

Lemma body_length (n : nat) : stmt_keeps (at_most n) (run body).
Proof.
  apply Pipeline.run_keeps.
  unfold body, pass_link, pass_image, pass_code, pass_fence, rewrite_links,
    rewrite_images, rewrite_code, rewrite_fences, pass, t_1, t_2.
  repeat (apply Forall_cons;
          [apply pass_length; intros s;
           first [ apply empty_no_longer | apply group_no_longer
                 | apply link_no_longer | apply pipe_no_longer
                 | apply spaces_no_longer | apply newlines_no_longer
                 | apply fence_no_longer ]|]).
  apply Forall_nil.
Qed.

Lemma trim_length (s : jsstring) : List.length (trim s) <= List.length s.
Proof.
  destruct (Trim.trim_middle s) as (a & b & E & _).
  rewrite E at 2. rewrite !length_app. lia.
Qed.

End Length.

(** X20: the output is never longer than the input. *)
Theorem output_is_no_longer (t out : jsstring) :
  markdownToHuman t = Some out -> List.length out <= List.length t.
Proof.
  intros E.
  destruct (Pipeline.markdownToHuman_inv t out E) as [[_ ->]|(l & El & ->)];
    [cbn; lia|].
  pose proof (Length.body_length (List.length t) (mkLocals t t) l
                (le_n _) El) as H.
  pose proof (Length.trim_length (cleaned l)).
  unfold at_most in H. lia.
Qed.

Lemma output_is_no_longer_witness :
  markdownToHuman (str "[a](b)") = Some (str "a (b)") /\
  List.length (str "a (b)") <= List.length (str "[a](b)").
Proof.
  assert (E : markdownToHuman (str "[a](b)") = Some (str "a (b)"))
    by (vm_compute; reflexivity).
  split; [exact E | exact (output_is_no_longer _ _ E)].
Defined.

(** X21: the reduction the caller derives from a conversion is never
    negative: for every input the converter returns a text no longer
    than the input, so the statistics computed from the two have a
    reduction that is a zero or a positive number. *)
Theorem converted_reduction_not_negative (inputMarkdown : jsstring)
  (stats : ConversionStats) :
  converted_stats inputMarkdown = Some stats ->
  has_sign false (reductionPercent stats) /\
  gt Zero (reductionPercent stats) = false.
Proof.
  unfold converted_stats.
  destruct (markdownToHuman inputMarkdown) as [out|] eqn:E;
    cbn [option_map]; [|discriminate].
  intros Es. injection Es as <-.
  assert (L : List.length out <= List.length inputMarkdown).
  { destruct (Pipeline.markdownToHuman_inv _ _ E) as [[_ ->]|(l & El & ->)];
      [cbn; lia|].
    pose proof (Length.body_length (List.length inputMarkdown)
                  (mkLocals inputMarkdown inputMarkdown) l (le_n _) El) as H.
    pose proof (Length.trim_length (cleaned l)).
    unfold at_most in H. lia. }
  pose proof (Sign.percent_sign false inputMarkdown out
                (proj2 (Sign.sub_lengths_sign _ _) L)) as H.
  split; [exact H | exact (Sign.not_negative _ H)].
Qed.

Lemma converted_reduction_not_negative_witness :
  converted_stats (str "**bold**")
  = Some (getStats (str "**bold**") (str "bold")) /\
  has_sign false
    (reductionPercent (getStats (str "**bold**") (str "bold"))) /\
  gt Zero (reductionPercent (getStats (str "**bold**") (str "bold"))) = false.
Proof.
  assert (E : converted_stats (str "**bold**")
              = Some (getStats (str "**bold**") (str "bold")))
    by (vm_compute; reflexivity).
  split; [exact E | exact (converted_reduction_not_negative _ _ E)].
Defined.

(** * The view mode *)

(** X22: after the resize handler has run, the view-mode tests select
    [flex] for exactly one of the three boxes when the window is
    narrower than 1024 pixels, and for all three otherwise. *)
Theorem resize_boxes (innerWidth : Z) (viewMode : App.ViewMode) :
  App.boxes_flex (App.handleResize innerWidth viewMode)
  = if (innerWidth <? 1024)%Z then 1 else 3.
Proof.
  unfold App.handleResize.
  destruct (innerWidth <? 1024)%Z; [|reflexivity].
  destruct viewMode; reflexivity.
Qed.

(** X23: the resize handler settles at once: run again on the view mode
    it has set, at the same width, it changes nothing. *)
Theorem resize_settles (innerWidth : Z) (viewMode : App.ViewMode) :
  App.handleResize innerWidth (App.handleResize innerWidth viewMode)
  = App.handleResize innerWidth viewMode.
Proof.
  unfold App.handleResize.
  destruct (innerWidth <? 1024)%Z; [|reflexivity].
  destruct viewMode; reflexivity.
Qed.

(** * The statistics of a text against itself *)

Module Counts.

Local Open Scope Z_scope.

(** The Number of a length has that length as its exact value. *)
Lemma of_length_count (n : nat) : is_count (of_length n) n.
Proof.
  destruct n as [|n]; [split; reflexivity|].
  destruct (Sign.of_length_value (S n) ltac:(lia)) as (m & e & E & L & V).
  rewrite E. split; [reflexivity|].
  destruct e as [|p|p]; [| lia |].
  - cbn [exact cond_Zopp]. rewrite Z.pow_0_r, Z.mul_1_r in *.
    rewrite V. reflexivity.
  - cbn [exact cond_Zopp]. cbn [Z.opp] in V.
    unfold Qeq, inject_Z. cbn [Qnum Qden].
    rewrite V, Pos2Z.inj_pow. lia.
Qed.

End Counts.

(** C6: for every string [s], [getStats(s, s)] has a reduction of 0 and
    each of the two length fields is the number of characters of [s]:
    a Number whose exact value is that count. *)
Theorem getStats_same (s : jsstring) :
  reductionPercent (getStats s s) = Zero /\
  is_count (originalChars (getStats s s)) (List.length s) /\
  is_count (cleanedChars (getStats s s)) (List.length s).
Proof.
  unfold getStats; cbn [reductionPercent originalChars cleanedChars].
  rewrite StatsFacts.reduction_same by apply StatsFacts.of_length_shape.
  split; [reflexivity|].
  split; apply Counts.of_length_count.
Qed.

(** * The rounding of the percentage

    The percentage is computed by a subtraction, a division and two
    multiplications, each rounded to a nearest binary64 value.  The
    lemmas below bound the error of each operation by one part in
    [2 ^ 52] and conclude that the argument of [Math.round] is, for all
    lengths below [2 ^ 39], closer to ten times the exact percentage
    than any integer and a half it does not fall on. *)

(** ** Mantissas and exponents *)

Module Ulp.

Local Open Scope Z_scope.

(** A mantissa of [d] bits lies between [2 ^ (d - 1)] and [2 ^ d]. *)
Lemma digits_bounds (p : positive) :
  2 ^ (Zpos (digits2_pos p) - 1) <= Zpos p < 2 ^ Zpos (digits2_pos p).
Proof.
  rewrite LengthFacts.digits2_size.
  pose proof (Pos.size_gt p) as G. pose proof (Pos.size_le p) as L.
  apply Pos2Z.pos_lt_pos in G. apply Pos2Z.pos_le_pos in L.
  rewrite Pos2Z.inj_pow in G, L.
  assert (E : 2 ^ Zpos (Pos.size p) = 2 * 2 ^ (Zpos (Pos.size p) - 1)).
  { rewrite <- Z.pow_succ_r by lia. f_equal. lia. }
  lia.
Qed.

Lemma digits_unique (p : positive) (d : Z) :
  2 ^ (d - 1) <= Zpos p < 2 ^ d -> Zpos (digits2_pos p) = d.
Proof.
  intros [L U]. pose proof (digits_bounds p) as [L' U'].
  set (d' := Zpos (digits2_pos p)) in *.
  destruct (Z.lt_trichotomy d' d) as [H|[H|H]]; [|exact H|]; exfalso.
  - assert (2 ^ d' <= 2 ^ (d - 1)) by (apply Z.pow_le_mono_r; lia). lia.
  - assert (0 <= d).
    { destruct (Z.lt_ge_cases d 0) as [N|N]; [|exact N].
      rewrite (Z.pow_neg_r 2 d N) in U. lia. }
    assert (2 ^ d <= 2 ^ (d' - 1)) by (apply Z.pow_le_mono_r; lia). lia.
Qed.

Lemma digits_lower (p : positive) (k : Z) :
  0 <= k -> 2 ^ k <= Zpos p -> k < Zpos (digits2_pos p).
Proof.
  intros K H. pose proof (digits_bounds p) as [_ U].
  destruct (Z.lt_ge_cases k (Zpos (digits2_pos p))) as [L|L]; [exact L|].
  assert (2 ^ Zpos (digits2_pos p) <= 2 ^ k) by (apply Z.pow_le_mono_r; lia).
  lia.
Qed.

Lemma digits_upper (p : positive) (k : Z) :
  0 <= k -> Zpos p < 2 ^ k -> Zpos (digits2_pos p) <= k.
Proof.
  intros K H. pose proof (digits_bounds p) as [L _].
  destruct (Z.le_gt_cases (Zpos (digits2_pos p)) k) as [G|G]; [exact G|].
  assert (2 ^ k <= 2 ^ (Zpos (digits2_pos p) - 1))
    by (apply Z.pow_le_mono_r; lia).
  lia.
Qed.

(** Shifting right by [p] bits divides the mantissa by [2 ^ p]. *)
Lemma shr_1_m (r : shr_record) :
  0 <= shr_m r -> shr_m (shr_1 r) = shr_m r / 2.
Proof.
  destruct r as [m r s]. cbn [shr_m]. intros H.
  destruct m as [|[p|p|]|p]; cbn [shr_1 shr_m].
  - reflexivity.
  - apply (Z.div_unique (Zpos p~1) 2 (Zpos p) 1); lia.
  - apply (Z.div_unique (Zpos p~0) 2 (Zpos p) 0); lia.
  - reflexivity.
  - lia.
Qed.

Lemma shr_iter_m (p : positive) :
  forall r, 0 <= shr_m r ->
            shr_m (iter_pos shr_1 p r) = shr_m r / 2 ^ Zpos p.
Proof.
  induction p as [p IH|p IH|]; intros r H; cbn [iter_pos].
  - pose proof (Sign.shr_1_nonneg r H) as H1.
    pose proof (Sign.iter_pos_inv _ shr_1 Sign.shr_1_nonneg p _ H1) as H2.
    rewrite IH, IH, shr_1_m by assumption.
    rewrite !Z.div_div by lia. f_equal.
    replace (Z.pos p~1) with (1 + Zpos p + Zpos p) by lia.
    rewrite !Z.pow_add_r by lia. lia.
  - pose proof (Sign.iter_pos_inv _ shr_1 Sign.shr_1_nonneg p _ H) as H2.
    rewrite IH, IH by assumption.
    rewrite !Z.div_div by lia. f_equal.
    replace (Z.pos p~0) with (Zpos p + Zpos p) by lia.
    rewrite !Z.pow_add_r by lia. lia.
  - rewrite shr_1_m by exact H. reflexivity.
Qed.

(** Rounding keeps the truncated mantissa or takes the next one. *)
Lemma round_even_step (m : Z) (l : location) :
  round_nearest_even m l = m \/ round_nearest_even m l = m + 1.
Proof.
  destruct l as [|[| |]]; cbn [round_nearest_even]; auto.
  destruct (Z.even m); auto.
Qed.

(** In the range of the normal Numbers a mantissa is cut to 53 bits. *)
Lemma fexp_normal (d : Z) : -1021 <= d -> fexp prec emax d = d - 53.
Proof. unfold fexp, SpecFloat.emin, prec, emax. lia. Qed.

Lemma shr_fexp_m (m : positive) (e : Z) (l : location) :
  53 <= Zpos (digits2_pos m) -> -1021 <= Zpos (digits2_pos m) + e ->
  exists r,
    shr_fexp prec emax (Zpos m) e l = (r, e + (Zpos (digits2_pos m) - 53)) /\
    shr_m r = Zpos m / 2 ^ (Zpos (digits2_pos m) - 53).
Proof.
  intros D R. unfold shr_fexp. cbn [Zdigits2].
  rewrite fexp_normal by exact R.
  set (d := Zpos (digits2_pos m)) in *.
  assert (M : shr_m (shr_record_of_loc (Zpos m) l) = Zpos m)
    by (destruct l as [|[| |]]; reflexivity).
  destruct (d + e - 53 - e) as [|p|p] eqn:E; try lia; cbn [shr].
  - eexists; split; [f_equal; lia|].
    rewrite M. replace (d - 53) with 0 by lia. rewrite Z.div_1_r. reflexivity.
  - eexists; split; [f_equal; lia|].
    rewrite shr_iter_m by (rewrite M; lia).
    rewrite M. f_equal. f_equal. lia.
Qed.

(** Rounding a mantissa of 53 bits or more in the normal range gives a
    finite Number with a mantissa of 53 bits, at most one unit in its
    last place away from the mantissa given and from the next one. *)
Lemma round_aux_bracket (s : bool) (m : positive) (e : Z) (l : location) :
  53 <= Zpos (digits2_pos m) ->
  -1021 <= Zpos (digits2_pos m) + e <= 1023 ->
  exists m' e',
    binary_round_aux prec emax s (Zpos m) e l = S754_finite s m' e' /\
    2 ^ 52 <= Zpos m' < 2 ^ 53 /\
    e + Zpos (digits2_pos m) - 53 <= e' <= e + Zpos (digits2_pos m) - 52 /\
    (Zpos m' - 1) * 2 ^ (e' - e) <= Zpos m /\
    Zpos m + 1 <= (Zpos m' + 1) * 2 ^ (e' - e).
Proof.
  intros D R. unfold binary_round_aux.
  destruct (shr_fexp_m m e l D ltac:(lia)) as (r1 & -> & M1).
  pose proof (digits_bounds m) as B.
  set (d := Zpos (digits2_pos m)) in *.
  set (n := d - 53) in *.
  assert (Hn : 0 <= n) by (unfold n; lia).
  assert (P : 0 < 2 ^ n) by (apply Z.pow_pos_nonneg; lia).
  assert (E1 : 2 ^ (d - 1) = 2 ^ 52 * 2 ^ n)
    by (rewrite <- Z.pow_add_r by lia; f_equal; unfold n; lia).
  assert (E2 : 2 ^ d = 2 ^ 53 * 2 ^ n)
    by (rewrite <- Z.pow_add_r by lia; f_equal; unfold n; lia).
  rewrite E1, E2 in B.
  set (m1 := Zpos m / 2 ^ n) in *.
  assert (Q1 : m1 * 2 ^ n <= Zpos m < (m1 + 1) * 2 ^ n).
  { pose proof (Z.div_mod (Zpos m) (2 ^ n) ltac:(lia)) as X.
    pose proof (Z.mod_pos_bound (Zpos m) (2 ^ n) P) as Y.
    fold m1 in X. nia. }
  assert (B1 : 2 ^ 52 <= m1 < 2 ^ 53).
  { split.
    - apply Z.div_le_lower_bound; lia.
    - apply Z.div_lt_upper_bound; lia. }
  rewrite M1.
  set (m2 := round_nearest_even m1 (loc_of_shr_record r1)).
  assert (N2 : m2 = m1 \/ m2 = m1 + 1) by apply round_even_step.
  assert (B2 : 2 ^ 52 <= m2 <= 2 ^ 53) by lia.
  destruct m2 as [|q|q] eqn:Eq; try lia.
  assert (P53 : (2:Z) ^ 53 = 2 * 2 ^ 52) by reflexivity.
  assert (P52 : 0 < (2:Z) ^ 52) by reflexivity.
  destruct (Z.eq_dec (Zpos q) (2 ^ 53)) as [T|T].
  - assert (Dq : Zpos (digits2_pos q) = 54).
    { apply digits_unique. rewrite T. split; [reflexivity|].
      apply Z.pow_lt_mono_r; lia. }
    destruct (shr_fexp_m q (e + n) loc_Exact ltac:(lia) ltac:(lia))
      as (r2 & -> & M2).
    rewrite M2, Dq, T.
    change (2 ^ 53 / 2 ^ (54 - 53)) with (Zpos (2 ^ 52)%positive).
    replace (e + n + (54 - 53) <=? emax - prec) with true
      by (symmetry; apply Z.leb_le; unfold emax, prec, n; lia).
    exists (2 ^ 52)%positive, (e + n + (54 - 53)).
    split; [reflexivity|].
    split; [split; reflexivity|].
    split; [unfold n; lia|].
    replace (e + n + (54 - 53) - e) with (1 + n) by lia.
    rewrite Z.pow_add_r by lia.
    change (Zpos (2 ^ 52)) with (2 ^ 52). change (2 ^ 1) with 2.
    split; nia.
  - assert (Dq : Zpos (digits2_pos q) = 53) by (apply digits_unique; lia).
    destruct (shr_fexp_m q (e + n) loc_Exact ltac:(lia) ltac:(lia))
      as (r2 & -> & M2).
    rewrite M2, Dq. change (2 ^ (53 - 53)) with 1. rewrite Z.div_1_r.
    replace (e + n + (53 - 53) <=? emax - prec) with true
      by (symmetry; apply Z.leb_le; unfold emax, prec, n; lia).
    exists q, (e + n + (53 - 53)).
    split; [reflexivity|].
    split; [lia|].
    split; [unfold n; lia|].
    replace (e + n + (53 - 53) - e) with n by lia.
    split; nia.
Qed.

End Ulp.

(** ** Relative errors *)

Module Near.

Local Open Scope Q_scope.

Lemma two_neq_0 : ~ 2 == 0.
Proof. discriminate. Qed.

Lemma pow2_pos (e : Z) : 0 < 2 ^ e.
Proof. apply Qpower_0_lt. reflexivity. Qed.

Lemma pow2_plus (a b : Z) : 2 ^ (a + b) == 2 ^ a * 2 ^ b.
Proof. apply Qpower_plus, two_neq_0. Qed.

Lemma pow2_inj (z : Z) : (0 <= z)%Z -> inject_Z (2 ^ z) == 2 ^ z.
Proof. intros H. apply (Zpower_Qpower 2 z H). Qed.

Lemma pow2_ge_1 (z : Z) : (0 <= z)%Z -> 1 <= 2 ^ z.
Proof. intros H. apply Qpower_1_le; [discriminate | exact H]. Qed.

Lemma mag_pos (m : positive) (e : Z) : 0 < mag m e.
Proof.
  unfold mag. apply Qmult_lt_0_compat; [reflexivity | apply pow2_pos].
Qed.

(** The exact value of a finite Number is its magnitude with its sign. *)
Lemma exact_mag (s : bool) (m : positive) (e : Z) :
  exact (S754_finite s m e) == if s then - mag m e else mag m e.
Proof.
  assert (E : forall z : Z, exact (S754_finite s m e) == inject_Z z * 2 ^ e ->
              z = cond_Zopp s (Zpos m) ->
              exact (S754_finite s m e) == if s then - mag m e else mag m e).
  { intros z H ->. rewrite H. unfold mag.
    destruct s; cbn [cond_Zopp].
    - change (Z.opp (Zpos m)) with (- Zpos m)%Z. rewrite inject_Z_opp. ring.
    - reflexivity. }
  apply (E (cond_Zopp s (Zpos m))); [|reflexivity].
  destruct e as [|p|p]; cbn [exact].
  - rewrite Z.mul_1_r. change (2 ^ 0) with 1. ring.
  - rewrite inject_Z_mult, pow2_inj by lia. reflexivity.
  - rewrite Qmake_Qdiv. change (Z.neg p) with (- Zpos p)%Z.
    rewrite Qpower_opp, <- pow2_inj by lia.
    rewrite Pos2Z.inj_pow. reflexivity.
Qed.

(** When the value to round lies between the mantissa given and the
    next one, the result is near it. *)
Lemma round_aux_near (s : bool) (m : positive) (e : Z) (l : location) (v : Q) :
  (53 <= Zpos (digits2_pos m))%Z ->
  (-1021 <= Zpos (digits2_pos m) + e <= 1023)%Z ->
  mag m e <= v -> v <= mag m e + 2 ^ e ->
  exists m' e',
    binary_round_aux prec emax s (Zpos m) e l = S754_finite s m' e' /\
    (2 ^ 52 <= Zpos m' < 2 ^ 53)%Z /\
    (e + Zpos (digits2_pos m) - 53 <= e' <= e + Zpos (digits2_pos m) - 52)%Z /\
    near v (mag m' e').
Proof.
  intros D R L U.
  destruct (Ulp.round_aux_bracket s m e l D R)
    as (m' & e' & E & B & X & L' & U').
  exists m', e'. repeat split; try tauto; try lia.
  - unfold mag in *.
    replace e' with ((e' - e) + e)%Z by lia. rewrite pow2_plus.
    rewrite Zle_Qle in L'. destruct B as [B _]. rewrite Zle_Qle in B.
    rewrite inject_Z_mult, pow2_inj in L' by lia.
    unfold Z.sub in L'. rewrite inject_Z_plus in L'.
    pose proof (pow2_pos e) as P. pose proof (pow2_pos (e' - e)) as K.
    set (p := 2 ^ e) in *. set (k := 2 ^ (e' - e)) in *.
    set (a := inject_Z (Zpos m')) in *. set (b := inject_Z (Zpos m)) in *.
    change (inject_Z (2 ^ 52)) with 4503599627370496 in B.
    change (inject_Z (- (1))) with (- (1)) in L'.
    unfold ulp.
    assert (H1 : (a + - (1)) * k * p <= b * p)
      by (apply Qmult_le_compat_r; [exact L' | lra]).
    assert (H0 : 0 < k * p) by (apply Qmult_lt_0_compat; assumption).
    assert (H2 : 4503599627370496 * (k * p) <= a * (k * p))
      by (apply Qmult_le_compat_r; [exact B | lra]).
    assert (H3 : a * (k * p) * (1 # 4503599627370496) >= k * p) by lra.
    lra.
  - unfold mag in *.
    replace e' with ((e' - e) + e)%Z by lia. rewrite pow2_plus.
    rewrite Zle_Qle in U'. destruct B as [B _]. rewrite Zle_Qle in B.
    rewrite inject_Z_mult, pow2_inj in U' by lia.
    rewrite !inject_Z_plus in U'.
    pose proof (pow2_pos e) as P. pose proof (pow2_pos (e' - e)) as K.
    set (p := 2 ^ e) in *. set (k := 2 ^ (e' - e)) in *.
    set (a := inject_Z (Zpos m')) in *. set (b := inject_Z (Zpos m)) in *.
    change (inject_Z (2 ^ 52)) with 4503599627370496 in B.
    change (inject_Z 1) with 1 in U'.
    unfold ulp.
    assert (H1 : (b + 1) * p <= (a + 1) * k * p)
      by (apply Qmult_le_compat_r; [exact U' | lra]).
    assert (H0 : 0 < k * p) by (apply Qmult_lt_0_compat; assumption).
    assert (H2 : 4503599627370496 * (k * p) <= a * (k * p))
      by (apply Qmult_le_compat_r; [exact B | lra]).
    assert (H3 : a * (k * p) * (1 # 4503599627370496) >= k * p) by lra.
    lra.
Qed.

#[global] Instance near_compat : Proper (Qeq ==> Qeq ==> iff) near.
Proof.
  intros v v' Hv r r' Hr. unfold near. rewrite Hv, Hr. reflexivity.
Qed.

Lemma near_refl (v : Q) : 0 <= v -> near v v.
Proof. intros H. unfold near, ulp. split; lra. Qed.

(** The alignment before rounding pads a short mantissa to 53 bits and
    keeps the value. *)
Lemma align_fexp (m : positive) (e : Z) :
  (-1021 <= Zpos (digits2_pos m) + e)%Z ->
  exists mz ez,
    shl_align m e (fexp prec emax (Zpos (digits2_pos m) + e)) = (mz, ez) /\
    Zpos (digits2_pos mz) = Z.max 53 (Zpos (digits2_pos m)) /\
    (Zpos (digits2_pos mz) + ez = Zpos (digits2_pos m) + e)%Z /\
    mag mz ez == mag m e.
Proof.
  intros R. rewrite Ulp.fexp_normal by exact R.
  unfold shl_align.
  destruct (Zpos (digits2_pos m) + e - 53 - e)%Z as [|k|k] eqn:K.
  - exists m, e. split; [reflexivity|]. split; [lia|]. split; [lia|reflexivity].
  - exists m, e. split; [reflexivity|]. split; [lia|]. split; [lia|reflexivity].
  - eexists _, _. split; [reflexivity|].
    unfold shift_pos. rewrite LengthFacts.digits2_iter_xO.
    split; [lia|]. split; [lia|].
    unfold mag. rewrite Sign.iter_xO_value, inject_Z_mult, pow2_inj by lia.
    rewrite <- Qmult_assoc, <- pow2_plus.
    replace (Zpos k + (Zpos (digits2_pos m) + e - 53))%Z with e by lia.
    reflexivity.
Qed.

Lemma binary_round_close (s : bool) (m : positive) (e : Z) :
  (-1021 <= Zpos (digits2_pos m) + e <= 1023)%Z ->
  exists m' e',
    binary_round prec emax s m e = S754_finite s m' e' /\
    (2 ^ 52 <= Zpos m' < 2 ^ 53)%Z /\
    (Zpos (digits2_pos m) + e - 53 <= e' <= Zpos (digits2_pos m) + e - 52)%Z /\
    near (mag m e) (mag m' e').
Proof.
  intros R. unfold binary_round.
  destruct (align_fexp m e ltac:(lia)) as (mz & ez & -> & D & S & V).
  destruct (round_aux_near s mz ez loc_Exact (mag m e) ltac:(lia) ltac:(lia))
    as (m' & e' & E & B & X & N).
  - rewrite V. apply Qle_refl.
  - rewrite V. pose proof (pow2_pos ez). lra.
  - exists m', e'. split; [exact E|]. split; [exact B|].
    split; [lia | exact N].
Qed.

Lemma mag_mul (m1 m2 : positive) (e1 e2 : Z) :
  mag (m1 * m2) (e1 + e2) == mag m1 e1 * mag m2 e2.
Proof.
  unfold mag. rewrite Pos2Z.inj_mul, inject_Z_mult, pow2_plus. ring.
Qed.

(** A product of two normal Numbers is near the exact product. *)
Lemma mul_close (s : bool) (m1 m2 : positive) (e1 e2 : Z) :
  (2 ^ 52 <= Zpos m1 < 2 ^ 53)%Z -> (2 ^ 52 <= Zpos m2 < 2 ^ 53)%Z ->
  (-1000 <= e1 + e2 <= 900)%Z ->
  exists m' e',
    mul (S754_finite s m1 e1) (S754_finite false m2 e2) = S754_finite s m' e' /\
    (2 ^ 52 <= Zpos m' < 2 ^ 53)%Z /\
    (e1 + e2 + 52 <= e' <= e1 + e2 + 54)%Z /\
    near (mag m1 e1 * mag m2 e2) (mag m' e').
Proof.
  intros B1 B2 R. unfold mul, SFmul. rewrite xorb_false_r.
  assert (L : (2 ^ 104 <= Zpos (m1 * m2))%Z).
  { rewrite Pos2Z.inj_mul. change (2 ^ 104)%Z with (2 ^ 52 * 2 ^ 52)%Z.
    apply Z.mul_le_mono_nonneg; lia. }
  assert (U : (Zpos (m1 * m2) < 2 ^ 106)%Z).
  { rewrite Pos2Z.inj_mul. change (2 ^ 106)%Z with (2 ^ 53 * 2 ^ 53)%Z.
    apply Z.mul_lt_mono_nonneg; lia. }
  apply Ulp.digits_lower in L; [|lia].
  apply Ulp.digits_upper in U; [|lia].
  destruct (round_aux_near s (m1 * m2) (e1 + e2) loc_Exact
              (mag m1 e1 * mag m2 e2) ltac:(lia) ltac:(lia))
    as (m' & e' & E & B & X & N).
  - rewrite mag_mul. apply Qle_refl.
  - rewrite mag_mul. pose proof (pow2_pos (e1 + e2)). lra.
  - exists m', e'. split; [exact E|]. split; [exact B|].
    split; [lia | exact N].
Qed.

(** The integer division behind a quotient of two normal Numbers: the
    dividend is shifted by 53 bits and the quotient has 53 or 54 bits. *)
Lemma div_core_53 (m1 m2 : positive) (e1 e2 : Z) :
  (2 ^ 52 <= Zpos m1 < 2 ^ 53)%Z -> (2 ^ 52 <= Zpos m2 < 2 ^ 53)%Z ->
  (-1021 <= e1 - e2)%Z ->
  exists q l,
    SFdiv_core_binary prec emax (Zpos m1) e1 (Zpos m2) e2 =
      (Zpos q, (e1 - e2 - 53)%Z, l) /\
    (2 ^ 52 <= Zpos q < 2 ^ 54)%Z /\
    (Zpos m2 * Zpos q <= Zpos m1 * 2 ^ 53 < Zpos m2 * (Zpos q + 1))%Z.
Proof.
  intros B1 B2 R. unfold SFdiv_core_binary. cbn [Zdigits2].
  rewrite (Ulp.digits_unique m1 53), (Ulp.digits_unique m2 53)
    by (change (53 - 1)%Z with 52%Z; lia).
  rewrite Ulp.fexp_normal by lia.
  replace (Z.min (53 + e1 - (53 + e2) - 53) (e1 - e2))%Z
    with (e1 - e2 - 53)%Z by lia.
  replace (e1 - e2 - (e1 - e2 - 53))%Z with 53%Z by lia.
  rewrite Z.shiftl_mul_pow2 by lia.
  pose proof (Z_div_mod (Zpos m1 * 2 ^ 53) (Zpos m2) ltac:(lia)) as H.
  destruct (Z.div_eucl (Zpos m1 * 2 ^ 53) (Zpos m2)) as [q r].
  destruct H as [H Hr].
  assert (P53 : (2 ^ 53 = 2 * 2 ^ 52)%Z) by reflexivity.
  assert (P54 : (2 ^ 54 = 4 * 2 ^ 52)%Z) by reflexivity.
  assert (P52 : (0 < 2 ^ 52)%Z) by reflexivity.
  assert (Q1 : (2 ^ 52 <= q)%Z).
  { destruct (Z.le_gt_cases (2 ^ 52) q) as [G|G]; [exact G|]. exfalso.
    assert (Zpos m2 * q <= Zpos m2 * (2 ^ 52 - 1))%Z
      by (apply Z.mul_le_mono_nonneg_l; lia).
    assert (2 ^ 52 * 2 ^ 53 <= Zpos m1 * 2 ^ 53)%Z
      by (apply Z.mul_le_mono_nonneg_r; lia).
    assert (Zpos m2 * 2 ^ 52 < 2 ^ 53 * 2 ^ 52)%Z
      by (apply Z.mul_lt_mono_pos_r; lia).
    lia. }
  assert (Q2 : (q < 2 ^ 54)%Z).
  { destruct (Z.lt_ge_cases q (2 ^ 54)) as [G|G]; [exact G|]. exfalso.
    assert (Zpos m2 * 2 ^ 54 <= Zpos m2 * q)%Z
      by (apply Z.mul_le_mono_nonneg_l; lia).
    assert (Zpos m1 * 2 ^ 53 < 2 ^ 53 * 2 ^ 53)%Z
      by (apply Z.mul_lt_mono_pos_r; lia).
    assert (2 ^ 52 * 2 ^ 54 <= Zpos m2 * 2 ^ 54)%Z
      by (apply Z.mul_le_mono_nonneg_r; lia).
    change (2 ^ 52 * 2 ^ 54)%Z with (2 ^ 53 * 2 ^ 53)%Z in *.
    lia. }
  destruct q as [|q|q]; try lia.
  eexists q, _. split; [reflexivity|]. split; [lia|]. lia.
Qed.

(** A quotient of two normal Numbers is near the exact quotient. *)
Lemma div_close (s : bool) (m1 m2 : positive) (e1 e2 : Z) (v : Q) :
  (2 ^ 52 <= Zpos m1 < 2 ^ 53)%Z -> (2 ^ 52 <= Zpos m2 < 2 ^ 53)%Z ->
  (-900 <= e1 - e2 <= 900)%Z ->
  v * mag m2 e2 == mag m1 e1 ->
  exists m' e',
    div (S754_finite s m1 e1) (S754_finite false m2 e2) = S754_finite s m' e' /\
    (2 ^ 52 <= Zpos m' < 2 ^ 53)%Z /\
    (e1 - e2 - 53 <= e' <= e1 - e2 - 51)%Z /\
    near v (mag m' e').
Proof.
  intros B1 B2 R V. unfold div, SFdiv. rewrite xorb_false_r.
  destruct (div_core_53 m1 m2 e1 e2 B1 B2 ltac:(lia))
    as (q & l & -> & Bq & L & U).
  destruct Bq as [Bq1 Bq2].
  apply Ulp.digits_lower in Bq1; [|lia].
  apply Ulp.digits_upper in Bq2; [|lia].
  rewrite Zle_Qle in L. rewrite Zlt_Qlt in U.
  rewrite !inject_Z_mult in L, U. rewrite inject_Z_plus in U.
  rewrite pow2_inj in L, U by lia.
  change (inject_Z 1) with 1 in U.
  assert (Y : 0 < mag m2 e2) by apply mag_pos.
  assert (P : 0 < 2 ^ (e1 - 53)) by apply pow2_pos.
  assert (E1 : mag m1 e1 == inject_Z (Zpos m1) * 2 ^ 53 * 2 ^ (e1 - 53)).
  { unfold mag. rewrite <- Qmult_assoc, <- pow2_plus.
    replace (53 + (e1 - 53))%Z with e1 by lia. reflexivity. }
  assert (E2 : forall a : Q,
             a * 2 ^ (e1 - e2 - 53) * mag m2 e2 ==
             inject_Z (Zpos m2) * a * 2 ^ (e1 - 53)).
  { intros a. unfold mag.
    replace (e1 - 53)%Z with ((e1 - e2 - 53) + e2)%Z by lia.
    rewrite pow2_plus. ring. }
  destruct (round_aux_near s q (e1 - e2 - 53) l v ltac:(lia) ltac:(lia))
    as (m' & e' & E & B & X & N).
  - apply (Qmult_le_r _ _ _ Y). rewrite V, E1. unfold mag at 1. rewrite E2.
    apply Qmult_le_compat_r; [exact L | lra].
  - apply (Qmult_le_r _ _ _ Y). rewrite V, E1.
    setoid_replace ((mag q (e1 - e2 - 53) + 2 ^ (e1 - e2 - 53)) * mag m2 e2)
      with ((inject_Z (Zpos q) + 1) * 2 ^ (e1 - e2 - 53) * mag m2 e2)
      by (unfold mag; ring).
    rewrite E2. apply Qmult_le_compat_r; [lra | lra].
  - exists m', e'. split; [exact E|]. split; [exact B|].
    split; [lia | exact N].
Qed.

Lemma mag_int (p : positive) : mag p 0 == inject_Z (Zpos p).
Proof. unfold mag. change (2 ^ 0) with 1. ring. Qed.

(** The Number of a length below [2 ^ 53] is normal and has the length
    as its value. *)
Lemma of_length_normal (n : nat) :
  (0 < Z.of_nat n < 2 ^ 53)%Z ->
  exists m e,
    of_length n = S754_finite false m e /\
    (2 ^ 52 <= Zpos m < 2 ^ 53)%Z /\ (-52 <= e <= 0)%Z /\
    mag m e == inject_Z (Z.of_nat n).
Proof.
  intros [L U]. unfold of_length.
  destruct (Z.of_nat n) as [|p|p]; try lia.
  pose proof (LengthFacts.digits2_bound p U) as D.
  replace (Zpos (digits2_pos p)) with (Zpos (digits2_pos p) + 0)%Z in * by lia.
  destruct (align_fexp p 0 ltac:(lia)) as (mz & ez & -> & Dz & S & V).
  exists mz, ez. split; [reflexivity|].
  pose proof (Ulp.digits_bounds mz) as Bz.
  replace (Zpos (digits2_pos mz)) with 53%Z in * by lia.
  split; [exact Bz|]. split; [lia|].
  rewrite V. apply mag_int.
Qed.

Lemma mag_shift (p : positive) (z e : Z) :
  (e <= 0)%Z -> Zpos p = (z * 2 ^ (- e))%Z -> mag p e == inject_Z z.
Proof.
  intros E H. unfold mag. rewrite H, inject_Z_mult, pow2_inj by lia.
  rewrite <- Qmult_assoc, <- pow2_plus.
  replace (- e + e)%Z with 0%Z by lia. change (2 ^ 0) with 1. ring.
Qed.

(** The difference of two distinct lengths is normal, has the sign of
    the exact difference and is near it. *)
Lemma sub_lengths_close (o c : nat) :
  (0 < Z.of_nat o < 2 ^ 53)%Z -> (Z.of_nat c < 2 ^ 53)%Z -> o <> c ->
  exists m e,
    sub (of_length o) (of_length c) =
      S754_finite (Z.of_nat o <? Z.of_nat c)%Z m e /\
    (2 ^ 52 <= Zpos m < 2 ^ 53)%Z /\ (-110 <= e <= 60)%Z /\
    near (inject_Z (Z.abs (Z.of_nat o - Z.of_nat c))) (mag m e).
Proof.
  intros Ho Hc Hne.
  destruct (of_length_normal o Ho) as (mo & eo & Eo & Bo & Ro & Vo).
  destruct c as [|c'].
  - rewrite Eo. cbn [of_length Z.of_nat sub SFsub Zero].
    exists mo, eo.
    replace (Z.of_nat o <? 0)%Z with false by (symmetry; apply Z.ltb_ge; lia).
    split; [reflexivity|]. split; [exact Bo|]. split; [lia|].
    rewrite Z.sub_0_r, Z.abs_eq, <- Vo by lia.
    apply near_refl, Qlt_le_weak, mag_pos.
  - set (c := S c') in *.
    destruct (of_length_normal c ltac:(lia)) as (mc & ec & Ec & Bc & Rc & Vc).
    destruct (Sign.of_length_value o ltac:(lia)) as (mo' & eo' & Eo' & _ & Zo).
    destruct (Sign.of_length_value c ltac:(lia)) as (mc' & ec' & Ec' & _ & Zc).
    rewrite Eo in Eo'. injection Eo' as <- <-.
    rewrite Ec in Ec'. injection Ec' as <- <-.
    rewrite Eo, Ec. cbn [sub SFsub cond_Zopp].
    set (ez := Z.min eo ec).
    rewrite (Sign.shl_align_value mo eo ez) by (unfold ez; lia).
    rewrite (Sign.shl_align_value mc ec ez) by (unfold ez; lia).
    rewrite Zo, Zc, <- !Z.mul_assoc, <- !Z.pow_add_r by (unfold ez; lia).
    replace (- eo + (eo - ez))%Z with (- ez)%Z by lia.
    replace (- ec + (ec - ez))%Z with (- ez)%Z by lia.
    rewrite <- Z.mul_sub_distr_r.
    assert (Rz : (-52 <= ez <= 0)%Z) by (unfold ez; lia).
    assert (P : (0 < 2 ^ (- ez))%Z) by (apply Z.pow_pos_nonneg; lia).
    assert (P' : (2 ^ (- ez) <= 2 ^ 52)%Z) by (apply Z.pow_le_mono_r; lia).
    set (d := (Z.of_nat o - Z.of_nat c)%Z).
    assert (Hd : d <> 0%Z) by (unfold d; lia).
    assert (Bd : (Z.abs d < 2 ^ 53)%Z) by (unfold d; lia).
    assert (Ba : (Z.abs d * 2 ^ (- ez) < 2 ^ 105)%Z).
    { change (2 ^ 105)%Z with (2 ^ 53 * 2 ^ 52)%Z.
      apply Z.le_lt_trans with (Z.abs d * 2 ^ 52)%Z.
      - apply Z.mul_le_mono_nonneg_l; lia.
      - apply Z.mul_lt_mono_pos_r; [reflexivity | exact Bd]. }
    destruct (d * 2 ^ (- ez))%Z as [|p|p] eqn:Ep; cbn [binary_normalize].
    + nia.
    + assert (Ea : Zpos p = (Z.abs d * 2 ^ (- ez))%Z) by nia.
      assert (D1 : (0 < Zpos (digits2_pos p))%Z) by lia.
      pose proof (Ulp.digits_upper p 105 ltac:(lia) ltac:(lia)) as D2.
      destruct (binary_round_close false p ez ltac:(lia))
        as (m' & e' & E & B & X & N).
      exists m', e'.
      replace (Z.of_nat o <? Z.of_nat c)%Z with false
        by (symmetry; apply Z.ltb_ge; nia).
      split; [exact E|]. split; [exact B|]. split; [lia|].
      rewrite <- (mag_shift p (Z.abs d) ez) by (lia || exact Ea). exact N.
    + assert (Ea : Zpos p = (Z.abs d * 2 ^ (- ez))%Z) by nia.
      assert (D1 : (0 < Zpos (digits2_pos p))%Z) by lia.
      pose proof (Ulp.digits_upper p 105 ltac:(lia) ltac:(lia)) as D2.
      destruct (binary_round_close true p ez ltac:(lia))
        as (m' & e' & E & B & X & N).
      exists m', e'.
      replace (Z.of_nat o <? Z.of_nat c)%Z with true
        by (symmetry; apply Z.ltb_lt; nia).
      split; [exact E|]. split; [exact B|]. split; [lia|].
      rewrite <- (mag_shift p (Z.abs d) ez) by (lia || exact Ea). exact N.
Qed.

Lemma of_Z_100 : of_Z 100 = S754_finite false 7036874417766400 (-46).
Proof. reflexivity. Qed.

Lemma of_Z_10 : of_Z 10 = S754_finite false 5629499534213120 (-49).
Proof. reflexivity. Qed.

Lemma normal_100 : (2 ^ 52 <= Zpos 7036874417766400 < 2 ^ 53)%Z.
Proof. split; [intros H; discriminate H | reflexivity]. Qed.

Lemma normal_10 : (2 ^ 52 <= Zpos 5629499534213120 < 2 ^ 53)%Z.
Proof. split; [intros H; discriminate H | reflexivity]. Qed.

Lemma mag_100 : mag 7036874417766400 (-46) == 100.
Proof. reflexivity. Qed.

Lemma mag_10 : mag 5629499534213120 (-49) == 10.
Proof. reflexivity. Qed.

Lemma near_scale (v r k : Q) : 0 < k -> near v r -> near (v * k) (r * k).
Proof.
  intros K [L U]. unfold near. split.
  - setoid_replace (r * k * (1 - ulp)) with (r * (1 - ulp) * k) by ring.
    apply Qmult_le_compat_r; [exact L | lra].
  - setoid_replace (r * k * (1 + ulp)) with (r * (1 + ulp) * k) by ring.
    apply Qmult_le_compat_r; [exact U | lra].
Qed.

(** The argument of [Math.round], times the original length, is within a
    half of a thousand times the difference of the lengths. *)
Lemma product_close (o c : nat) :
  (0 < Z.of_nat o < 2 ^ 39)%Z -> (Z.of_nat c < 2 ^ 39)%Z -> o <> c ->
  exists m e,
    mul (reduction (of_length o) (of_length c)) (of_Z 10) =
      S754_finite (Z.of_nat o <? Z.of_nat c)%Z m e /\
    (e < 0)%Z /\
    let t := mag m e * inject_Z (Z.of_nat o) in
    let n := inject_Z (1000 * Z.abs (Z.of_nat o - Z.of_nat c)) in
    n - (49 # 100) <= t /\ t <= n + (49 # 100).
Proof.
  intros Ho Hc Hne.
  assert (P53 : (2 ^ 39 < 2 ^ 53)%Z) by reflexivity.
  destruct (sub_lengths_close o c ltac:(lia) ltac:(lia) Hne)
    as (m1 & e1 & E1 & B1 & R1 & N1).
  destruct (of_length_normal o ltac:(lia)) as (mo & eo & Eo & Bo & Ro & Vo).
  unfold reduction. rewrite E1. rewrite Eo.
  change (gt (S754_finite false mo eo) Zero) with true. cbv iota.
  assert (O : 0 < mag mo eo) by apply mag_pos.
  destruct (div_close (Z.of_nat o <? Z.of_nat c)%Z m1 mo e1 eo
              (mag m1 e1 / mag mo eo) B1 Bo ltac:(lia))
    as (m2 & e2 & E2 & B2 & R2 & N2).
  { field. lra. }
  rewrite E2, of_Z_100.
  destruct (mul_close (Z.of_nat o <? Z.of_nat c)%Z m2 7036874417766400
              e2 (-46) B2 normal_100 ltac:(lia))
    as (m3 & e3 & E3 & B3 & R3 & N3).
  rewrite E3, of_Z_10.
  destruct (mul_close (Z.of_nat o <? Z.of_nat c)%Z m3 5629499534213120
              e3 (-49) B3 normal_10 ltac:(lia))
    as (m4 & e4 & E4 & B4 & R4 & N4).
  rewrite E4. exists m4, e4. split; [reflexivity|].
  rewrite mag_100 in N3. rewrite mag_10 in N4.
  apply (near_scale _ _ (mag mo eo) O) in N2, N3, N4.
  setoid_replace (mag m1 e1 / mag mo eo * mag mo eo) with (mag m1 e1) in N2
    by (field; lra).
  rewrite Vo in N2, N3, N4.
  set (d := Z.abs (Z.of_nat o - Z.of_nat c)) in *.
  assert (D : (0 <= d < 2 ^ 39)%Z) by (unfold d; lia).
  destruct D as [D0 D1]. rewrite Zle_Qle in D0. rewrite Zlt_Qlt in D1.
  change (inject_Z 0) with 0 in D0.
  change (inject_Z (2 ^ 39)) with 549755813888 in D1.
  assert (T : let t := mag m4 e4 * inject_Z (Z.of_nat o) in
              let n := inject_Z (1000 * d) in
              n - (49 # 100) <= t /\ t <= n + (49 # 100)).
  { cbv zeta. rewrite inject_Z_mult. change (inject_Z 1000) with 1000.
    unfold near, ulp in N1, N2, N3, N4.
    set (a1 := mag m1 e1) in *.
    set (t2 := mag m2 e2 * inject_Z (Z.of_nat o)) in *.
    set (t3 := mag m3 e3 * inject_Z (Z.of_nat o)) in *.
    set (t4 := mag m4 e4 * inject_Z (Z.of_nat o)) in *.
    set (n := inject_Z d) in *.
    setoid_replace (mag m2 e2 * 100 * inject_Z (Z.of_nat o)) with (100 * t2)
      in N3 by (unfold t2; ring).
    setoid_replace (mag m3 e3 * 10 * inject_Z (Z.of_nat o)) with (10 * t3)
      in N4 by (unfold t3; ring).
    clearbody a1 t2 t3 t4 n.
    split; lra. }
  split; [|exact T].
  destruct (Z.lt_ge_cases e4 0) as [G|G]; [exact G|]. exfalso.
  cbv zeta in T. destruct T as [_ T].
  pose proof (pow2_ge_1 e4 G) as P.
  destruct B4 as [B4 _]. rewrite Zle_Qle in B4.
  change (inject_Z (2 ^ 52)) with 4503599627370496 in B4.
  destruct Ho as [Ho _]. apply Z.le_succ_l in Ho. rewrite Zle_Qle in Ho.
  change (inject_Z (Z.succ 0)) with 1 in Ho.
  rewrite inject_Z_mult in T. change (inject_Z 1000) with 1000 in T.
  unfold mag in T.
  set (a := inject_Z (Zpos m4)) in *. set (p := 2 ^ e4) in *.
  set (q := inject_Z (Z.of_nat o)) in *. set (n := inject_Z d) in *.
  assert (H1 : 4503599627370496 * 1 <= a * p).
  { apply Qle_trans with (a * 1); [lra|].
    apply Qmult_le_l; lra. }
  assert (H2 : a * p * 1 <= a * p * q).
  { apply Qmult_le_l; lra. }
  lra.
Qed.

End Near.

(** ** The nearest tenth *)

Module Tenth.

Local Open Scope Z_scope.

(** Off a half, the integer within a half of [n / o] is the floor of
    [n / o] or the next integer, by the remainder. *)
Lemma nearest_off_half (n o k : Z) :
  0 < o -> 2 * Z.abs (k * o - n) <= o -> 2 * (n mod o) <> o ->
  k = if 2 * (n mod o) <? o then n / o else n / o + 1.
Proof.
  intros Ho H T.
  pose proof (Z.div_mod n o ltac:(lia)) as E.
  pose proof (Z.mod_pos_bound n o Ho) as B.
  set (q := n / o) in *. set (r := n mod o) in *.
  destruct (Z.ltb_spec (2 * r) o) as [L|L].
  - destruct (Z.lt_trichotomy k q) as [G|[G|G]]; [|exact G|]; nia.
  - destruct (Z.lt_trichotomy k (q + 1)) as [G|[G|G]]; [|exact G|]; nia.
Qed.

Lemma nearest_unique (n o k k' : Z) :
  0 < o -> 2 * (n mod o) <> o ->
  2 * Z.abs (k * o - n) <= o -> 2 * Z.abs (k' * o - n) <= o -> k = k'.
Proof.
  intros Ho T H H'.
  rewrite (nearest_off_half n o k Ho H T).
  rewrite (nearest_off_half n o k' Ho H' T). reflexivity.
Qed.

(** Each mode of the specification picks an integer within a half. *)
Lemma away_nearest (n o : Z) :
  0 < o -> 2 * Z.abs (spec_round_half_away_from_zero n o * o - n) <= o.
Proof.
  intros Ho. unfold spec_round_half_away_from_zero.
  pose proof (Z.div_mod (2 * Z.abs n + o) (2 * o) ltac:(lia)) as E.
  pose proof (Z.mod_pos_bound (2 * Z.abs n + o) (2 * o) ltac:(lia)) as B.
  set (j := (2 * Z.abs n + o) / (2 * o)) in *.
  destruct (Z.lt_trichotomy n 0) as [G|[G|G]].
  - rewrite (Z.sgn_neg n G). rewrite (Z.abs_neq n) in * by lia. lia.
  - subst n. cbn. lia.
  - rewrite (Z.sgn_pos n G). rewrite (Z.abs_eq n) in * by lia. lia.
Qed.

Lemma even_nearest (n o : Z) :
  0 < o -> 2 * Z.abs (spec_round_half_to_even n o * o - n) <= o.
Proof.
  intros Ho. unfold spec_round_half_to_even.
  pose proof (Z.div_mod n o ltac:(lia)) as E.
  pose proof (Z.mod_pos_bound n o Ho) as B.
  set (q := n / o) in *. set (r := n mod o) in *.
  destruct (Z.compare_spec (2 * r) o) as [C|C|C].
  - destruct (Z.even q); lia.
  - lia.
  - lia.
Qed.

(** A Number other than NaN equals itself. *)
Lemma eqb_refl (s : bool) (x : Number) : has_sign s x -> eqb x x = true.
Proof.
  destruct x as [s'|s'| |s' m e]; cbn [has_sign]; intros H;
    try contradiction; try (destruct s'; reflexivity).
  unfold eqb, SFeqb, SFcompare.
  rewrite Z.compare_refl, Pos.compare_cont_refl. destruct s'; reflexivity.
Qed.

(** Dividing the result of [Math.round] by ten gives the Number of that
    many tenths; [-0] counts as zero. *)
Lemma tenths_integral (s : bool) (k : Z) :
  eqb (div (integral s k) (of_Z 10)) (tenths k) = true.
Proof.
  destruct (Z.eq_dec k 0) as [->|N].
  - destruct s; reflexivity.
  - replace (integral s k) with (of_Z k)
      by (destruct k; [contradiction N|..]; reflexivity).
    unfold tenths. rewrite Near.of_Z_10.
    destruct (Z.le_ge_cases 0 k) as [G|G].
    + apply (eqb_refl false), Sign.div_sign, Sign.of_Z_sign, G.
    + apply (eqb_refl true), Sign.div_sign, Sign.of_Z_sign, G.
Qed.

Lemma int_le_half (a b : Z) :
  (inject_Z a < inject_Z b + 1)%Q -> a <= b.
Proof.
  intros H. change 1%Q with (inject_Z 1) in H.
  rewrite <- (inject_Z_plus b 1), <- Zlt_Qlt in H. lia.
Qed.

Ltac push_inject :=
  repeat (rewrite inject_Z_plus in * || rewrite inject_Z_mult in * ||
          rewrite inject_Z_opp in *);
  change (inject_Z 2) with 2%Q in *; change (inject_Z 1000) with 1000%Q in *.

(** The integer picked by [Math.round] is within a half of ten times the
    exact percentage. *)
Lemma percent_tenth (o c : nat) :
  0 < Z.of_nat o < 2 ^ 39 -> Z.of_nat c < 2 ^ 39 ->
  exists k : Z,
    eqb (div (Math_round (mul (reduction (of_length o) (of_length c))
                              (of_Z 10))) (of_Z 10)) (tenths k) = true /\
    nearest_tenth o c k.
Proof.
  intros Ho Hc.
  destruct (Nat.eq_dec o c) as [<-|Hne].
  - rewrite StatsFacts.reduction_same by apply StatsFacts.of_length_shape.
    exists 0. split; [reflexivity|]. unfold nearest_tenth. lia.
  - destruct (Near.product_close o c Ho Hc Hne) as (m & e & E & He & T).
    rewrite E. destruct e as [|p|p]; try lia. clear He.
    pose proof (RoundingFacts.Math_round_half_up
                  (S754_finite (Z.of_nat o <? Z.of_nat c) m (Zneg p))) as R.
    cbn [rounds_half_up] in R. destruct R as (k & -> & L & U).
    exists k. split; [apply tenths_integral|].
    rewrite Near.exact_mag in L, U. cbv zeta in T. destruct T as [T1 T2].
    assert (O : (0 < inject_Z (Z.of_nat o))%Q)
      by (change 0%Q with (inject_Z 0); rewrite <- Zlt_Qlt; lia).
    apply (Qmult_le_compat_r _ _ (inject_Z (Z.of_nat o))) in L;
      [|apply Qlt_le_weak, O].
    apply (Qmult_lt_compat_r _ _ (inject_Z (Z.of_nat o))) in U; [|exact O].
    unfold nearest_tenth.
    rewrite inject_Z_mult in T1, T2.
    change (inject_Z 1000) with 1000%Q in T1, T2.
    assert (G : 2 * (k * Z.of_nat o - 1000 * (Z.of_nat o - Z.of_nat c))
                  <= Z.of_nat o /\
                2 * (1000 * (Z.of_nat o - Z.of_nat c) - k * Z.of_nat o)
                  <= Z.of_nat o); [|lia].
    destruct (Z.ltb_spec (Z.of_nat o) (Z.of_nat c)) as [G|G].
    + rewrite Z.abs_neq in T1, T2 by lia.
      unfold Z.sub in *. split; apply int_le_half; push_inject; lra.
    + rewrite Z.abs_eq in T1, T2 by lia.
      unfold Z.sub in *. split; apply int_le_half; push_inject; lra.
Qed.

End Tenth.

(** Some bound on the lengths is needed: with 4090722491273 original and
    1356074505857 cleaned characters, ten times the percentage is just
    below 668.5, the two modes give 66.8, and the errors of the division
    and the multiplications take the code to 66.9. *)
Lemma long_strings_misround :
  let o := Z.to_nat 4090722491273 in
  let c := Z.to_nat 1356074505857 in
  ~ on_a_half o c /\
  spec_reductionPercent spec_round_half_away_from_zero o c = tenths 668 /\
  spec_reductionPercent spec_round_half_to_even o c = tenths 668 /\
  reductionPercent (getStats (blank o) (blank c)) = tenths 669 /\
  ~ nearest_tenth o c 669.
Proof.
  intros o c.
  assert (Eo : Z.of_nat o = 4090722491273%Z) by (apply Z2Nat.id; lia).
  assert (Ec : Z.of_nat c = 1356074505857%Z) by (apply Z2Nat.id; lia).
  clearbody o c.
  unfold on_a_half, nearest_tenth, spec_reductionPercent, getStats, blank.
  cbn [reductionPercent]. rewrite !repeat_length. unfold of_length.
  rewrite Eo, Ec.
  split; [vm_compute; discriminate|].
  split; [vm_compute; reflexivity|].
  split; [vm_compute; reflexivity|].
  split; [vm_compute; reflexivity|].
  vm_compute. intros H. apply H. reflexivity.
Qed.

(** On an exact half the result is one of the two neighbours, and which
    one depends on the errors of the division and the multiplications:
    80 and 29 characters give 63.7 for 63.75, 80 and 91 characters give
    -13.8 for -13.75, 16 and 19 characters give -18.7 for -18.75. *)
Lemma half_goes_either_way :
  on_a_half 80 29 /\
  reductionPercent (getStats (blank 80) (blank 29)) = tenths 637 /\
  on_a_half 80 91 /\
  reductionPercent (getStats (blank 80) (blank 91)) = tenths (-138) /\
  on_a_half 16 19 /\
  reductionPercent (getStats (blank 16) (blank 19)) = tenths (-187).
Proof. repeat split; vm_compute; reflexivity. Qed.

(** C9, amended: when the original is not empty and both lengths are
    below [2 ^ 39], [reductionPercent] is the Number of [k / 10] for an
    integer [k] with [k / 10] at most [0.05] away from the exact
    percentage [(o - c) / o * 100], that is, the percentage rounded to
    one decimal place, to a nearest value; and when the percentage does
    not fall on a half at the first decimal, it is the result of
    round-half-away-from-zero and of round-half-to-even alike. *)
Theorem reductionPercent_nearest_tenth (original cleaned : jsstring) :
  original <> [] ->
  (Z.of_nat (List.length original) < 2 ^ 39)%Z ->
  (Z.of_nat (List.length cleaned) < 2 ^ 39)%Z ->
  (exists k : Z,
     eqb (reductionPercent (getStats original cleaned)) (tenths k) = true /\
     nearest_tenth (List.length original) (List.length cleaned) k) /\
  (~ on_a_half (List.length original) (List.length cleaned) ->
   agrees_with_both_spec_modes original cleaned).
Proof.
  intros Hne Ho Hc.
  assert (Ho' : (0 < Z.of_nat (List.length original))%Z)
    by (destruct original; [congruence | cbn [List.length]; lia]).
  destruct (Tenth.percent_tenth (List.length original) (List.length cleaned)
              ltac:(lia) Hc) as (k & E & N).
  split; [exists k; split; assumption|].
  intros T. unfold agrees_with_both_spec_modes, spec_reductionPercent.
  cbv zeta. unfold on_a_half in T. unfold nearest_tenth in N.
  change (reductionPercent (getStats original cleaned))
    with (div (Math_round (mul (reduction (of_length (List.length original))
                                          (of_length (List.length cleaned)))
                               (of_Z 10))) (of_Z 10)).
  split.
  - rewrite <- (Tenth.nearest_unique _ _ k _ Ho' T N
                  (Tenth.away_nearest _ _ Ho')). exact E.
  - rewrite <- (Tenth.nearest_unique _ _ k _ Ho' T N
                  (Tenth.even_nearest _ _ Ho')). exact E.
Qed.

Lemma reductionPercent_nearest_tenth_witness :
  blank 3 <> [] /\
  (Z.of_nat (List.length (blank 3)) < 2 ^ 39)%Z /\
  (Z.of_nat (List.length (blank 2)) < 2 ^ 39)%Z /\
  (exists k : Z,
     eqb (reductionPercent (getStats (blank 3) (blank 2))) (tenths k) = true /\
     nearest_tenth (List.length (blank 3)) (List.length (blank 2)) k) /\
  (~ on_a_half (List.length (blank 3)) (List.length (blank 2)) ->
   agrees_with_both_spec_modes (blank 3) (blank 2)).
Proof.
  split; [discriminate|]. split; [reflexivity|]. split; [reflexivity|].
  apply (reductionPercent_nearest_tenth (blank 3) (blank 2));
    [discriminate | reflexivity | reflexivity].
Defined.

